(** * LPC granular pitch shifter (17_Voice_Transformers): shallow embedding

    The notebook's signal-processing core ([subsample], [resample],
    [win_taper], [bac], [ld], [lpc], [LPC_GS_pshift]) is embedded as
    Rocq functions over Python-like sequences, and with it the time-domain
    transformers around it ([double_len], [double_len2], [gs_map],
    [GS_pshift]) and the filters of 11_FIR-Filter-Implementation
    ([FIR_loop], [cconv]).

    - numpy arrays and Python lists are [list]s; indices and sizes are [Z],
      with Python's negative-index and slice-clipping rules written out;
    - Python exceptions are values of [exn], and every fallible operation
      returns a [result];
    - the sample type is a parameter ([Num]): the code is written once and
      run at two instances, exact rationals ([Qc], for the algebraic laws)
      and IEEE-754 binary64 ([float], the arithmetic numpy really uses, for
      concrete runs where NaN and rounding matter).

    Conventions: the ratio [f] and the taper [a] are Python numbers, so a
    zero divisor in [len(x) / f] is a ZeroDivisionError, while divisions
    between numpy values follow IEEE-754 (NaN or infinity, no exception);
    [np.dot] sums left to right; [scipy.signal.lfilter] is the direct form
    II transposed structure of its documentation (with the errors of its FIR
    path for a single denominator coefficient), and [np.convolve] the
    convolution sum of its documentation.

    The theorems that depend on a decision the program takes on a rounded
    quantity ([int], [floor]: how many samples a grain keeps, how long a ramp
    is) are stated for any sample arithmetic, binary64 included, or carry
    the hypothesis that binary64 takes the same decision; exact arithmetic
    alone is used where only the values of samples round. *)

From Stdlib Require Import ZArith QArith Qcanon Qround List Bool Lia Floats.
Import ListNotations.

Set Implicit Arguments.
Local Open Scope Z_scope.

(** ** Python run-time layer *)

Inductive exn : Set :=
| IndexError
| ValueError
| ZeroDivisionError
| OverflowError.

Inductive result (A : Type) : Type :=
| Ok (a : A)
| Raise (e : exn).

Arguments Ok {A} a.
Arguments Raise {A} e.

Definition bind {A B} (c : result A) (k : A -> result B) : result B :=
  match c with
  | Ok a => k a
  | Raise e => Raise e
  end.

Notation "x <- c ;; k" := (bind c (fun x => k))
  (at level 61, c at next level, right associativity).
Notation "' pat <- c ;; k" := (bind c (fun x => match x with pat => k end))
  (at level 61, pat pattern, c at next level, right associativity).

(** [for v in xs: s = body(s, v)] with exceptions leaving the loop. *)
Fixpoint foldM {S V} (body : S -> V -> result S) (xs : list V) (s : S)
  : result S :=
  match xs with
  | [] => Ok s
  | v :: xs' => s' <- body s v ;; foldM body xs' s'
  end.

(** [try: c  except IndexError: h] *)
Definition try_IndexError {A} (c : result A) (h : result A) : result A :=
  match c with
  | Raise IndexError => h
  | other => other
  end.

Definition len {A} (x : list A) : Z := Z.of_nat (length x).

(** [x[n]] for an integer [n]: negative indices count from the end. *)
Definition getitem {A} (x : list A) (n : Z) : result A :=
  let i := if n <? 0 then n + len x else n in
  if (0 <=? i) && (i <? len x) then
    match nth_error x (Z.to_nat i) with
    | Some v => Ok v
    | None => Raise IndexError
    end
  else Raise IndexError.

Fixpoint update {A} (x : list A) (i : nat) (v : A) : list A :=
  match x, i with
  | [], _ => []
  | _ :: t, O => v :: t
  | h :: t, S j => h :: update t j v
  end.

(** [x[n] = v] *)
Definition setitem {A} (x : list A) (n : Z) (v : A) : result (list A) :=
  let i := if n <? 0 then n + len x else n in
  if (0 <=? i) && (i <? len x) then Ok (update x (Z.to_nat i) v)
  else Raise IndexError.

(** Slice bounds are clipped to the sequence, never an error. *)
Definition clip {A} (x : list A) (i : Z) : Z :=
  if i <? 0 then Z.max (i + len x) 0 else Z.min i (len x).

(** [x[start:stop]] *)
Definition slice {A} (x : list A) (start stop : Z) : list A :=
  let s := clip x start in
  let e := clip x stop in
  firstn (Z.to_nat (e - s)) (skipn (Z.to_nat s) x).

(** [x[start::-1]]: from index [start] down to the first element. *)
Definition slice_down {A} (x : list A) (start : Z) : list A :=
  let s := if start <? 0 then start + len x else start in
  rev (firstn (Z.to_nat (s + 1)) x).

(** [range(start, stop)] *)
Definition irange (start stop : Z) : list Z :=
  map (fun k => start + Z.of_nat k) (seq 0 (Z.to_nat (stop - start))).

(** [range(start, stop, step)]; a zero step is a ValueError. *)
Definition range (start stop step : Z) : result (list Z) :=
  if step =? 0 then Raise ValueError
  else
    let count :=
      if 0 <? step then (stop - start + step - 1) / step
      else (start - stop - step - 1) / (- step) in
    Ok (map (fun k => start + Z.of_nat k * step) (seq 0 (Z.to_nat count))).

(** Element-wise binary operation with numpy's broadcasting of 1-d arrays:
    equal lengths, or one operand of length 1. *)
Definition broadcast {A} (op : A -> A -> A) (u v : list A) : result (list A) :=
  if (length u =? length v)%nat then Ok (map (fun p => op (fst p) (snd p)) (combine u v))
  else match u, v with
       | [a], _ => Ok (map (op a) v)
       | _, [b] => Ok (map (fun a => op a b) u)
       | _, _ => Raise ValueError
       end.

(** [y[start:stop] op= v]: [v] must broadcast to the shape of the slice. *)
Definition islice {A} (op : A -> A -> A) (y : list A) (start stop : Z)
    (v : list A) : result (list A) :=
  let s := Z.to_nat (clip y start) in
  let m := Z.to_nat (clip y stop - clip y start) in
  let target := firstn m (skipn s y) in
  if (length v =? length target)%nat then
    Ok (firstn s y ++ map (fun p => op (fst p) (snd p)) (combine target v)
          ++ skipn (s + m) y)
  else match v with
       | [b] => Ok (firstn s y ++ map (fun a => op a b) target ++ skipn (s + m) y)
       | _ => Raise ValueError
       end.

(** ** Sample arithmetic *)

(** What the code asks of its numbers: [float(n)], the four operations,
    negation, [np.floor], [int(t)] (truncation toward zero, an error on NaN
    and infinities) and the zero test behind Python's ZeroDivisionError. *)
Class Num (F : Type) : Type := {
  of_int : Z -> F;
  add : F -> F -> F;
  sub : F -> F -> F;
  mul : F -> F -> F;
  div : F -> F -> F;
  neg : F -> F;
  floor : F -> F;
  to_int : F -> result Z;
  is_zero : F -> bool
}.

(** Exact rationals: the arithmetic of the reals on the values of samples.
    A division by zero gives 0 here, where binary64 gives NaN or an
    infinity, and [int] never fails; the theorems stated at this instance
    exclude zero divisors by hypothesis where the program can meet one, and
    leave every [int] and [floor] that decides a length or an exception to
    the arithmetic of the program. *)
#[export] Instance NumQc : Num Qc := {
  of_int z := Q2Qc (inject_Z z);
  add := Qcplus;
  sub := Qcminus;
  mul := Qcmult;
  div := Qcdiv;
  neg := Qcopp;
  floor q := Q2Qc (inject_Z (Qfloor q));
  to_int q := Ok (Z.quot (Qnum q) (Zpos (Qden q)));
  is_zero q := Qc_eq_bool q (Q2Qc 0)
}.

(** IEEE-754 binary64, numpy's float64 and Python's float. *)
(** [float(n)], rounded to nearest even. *)
Definition float_of_Z (n : Z) : float :=
  SF2Prim (binary_normalize prec emax n 0 false).

Definition float_floorZ (s : bool) (m : positive) (e : Z) : Z :=
  let n := if s then Z.neg m else Z.pos m in
  if 0 <=? e then n * 2 ^ e else n / 2 ^ (- e).

(** [np.floor]; NaN and infinities are returned as they are. *)
Definition float_floor (x : float) : float :=
  match Prim2SF x with
  | S754_finite s m e => float_of_Z (float_floorZ s m e)
  | _ => x
  end.

(** [int(x)]: truncation toward zero; ValueError on NaN, OverflowError on an
    infinity. *)
Definition float_to_int (x : float) : result Z :=
  match Prim2SF x with
  | S754_zero _ => Ok 0
  | S754_infinity _ => Raise OverflowError
  | S754_nan => Raise ValueError
  | S754_finite s m e =>
      let n := if s then Z.neg m else Z.pos m in
      Ok (if 0 <=? e then n * 2 ^ e else Z.quot n (2 ^ (- e)))
  end.

#[export] Instance NumFloat : Num float := {
  of_int := float_of_Z;
  add := PrimFloat.add;
  sub := PrimFloat.sub;
  mul := PrimFloat.mul;
  div := PrimFloat.div;
  neg := PrimFloat.opp;
  floor := float_floor;
  to_int := float_to_int;
  is_zero x := PrimFloat.eqb x 0%float
}.

(** ** The program *)

Section Program.

Context {F : Type} `{Num F}.

Definition zero : F := of_int 0.
Definition one : F := of_int 1.
(** The literal [0.5]. *)
Definition half : F := div (of_int 1) (of_int 2).

(** [np.zeros(n)], [np.ones(n)]: negative dimensions are refused. *)
Definition np_zeros (n : Z) : result (list F) :=
  if n <? 0 then Raise ValueError else Ok (repeat zero (Z.to_nat n)).

Definition np_ones (n : Z) : result (list F) :=
  if n <? 0 then Raise ValueError else Ok (repeat one (Z.to_nat n)).

(** [np.dot] of two 1-d arrays, summed left to right. *)
Definition np_dot (u v : list F) : result F :=
  if (length u =? length v)%nat then
    Ok (fold_left (fun acc p => add acc (mul (fst p) (snd p))) (combine u v) zero)
  else Raise ValueError.

(** <<
def subsample(x, t):
    n = int(t)
    a = 1.0 - (t - n)
    try:
        return a * x[n] + (1 - a) * x[n + 1]
    except IndexError:
        try:
            return a * x[n]
        except IndexError:
            return 0
>> *)
Definition subsample (x : list F) (t : F) : result F :=
  n <- to_int t ;;
  let a := sub one (sub t (of_int n)) in
  try_IndexError
    (xn <- getitem x n ;;
     xn1 <- getitem x (n + 1) ;;
     Ok (add (mul a xn) (mul (sub one a) xn1)))
    (try_IndexError
       (xn <- getitem x n ;; Ok (mul a xn))
       (Ok zero)).

(** <<
def resample(x, f):
    n_out = int(np.floor(len(x) / f))
    y = np.zeros(n_out)
    for n in range(0, n_out):
        y[n] = subsample(x, float(n) * f)
    return y
>> *)
Definition resample (x : list F) (f : F) : result (list F) :=
  if is_zero f then Raise ZeroDivisionError
  else
    n_out <- to_int (floor (div (of_int (len x)) f)) ;;
    y <- np_zeros n_out ;;
    foldM (fun y n => v <- subsample x (mul (of_int n) f) ;; setitem y n v)
          (irange 0 n_out) y.

(** <<
def win_taper(N, a):
    R = int(N * a / 2)
    r = np.arange(0, R) / float(R)
    win = np.r_[r, np.ones(N - 2*R), r[::-1]]
    stride = N - R - 1
    return win, stride
>> *)
Definition win_taper (N : Z) (a : F) : result (list F * Z) :=
  R <- to_int (div (mul (of_int N) a) (of_int 2)) ;;
  let r := map (fun k => div (of_int k) (of_int R)) (irange 0 R) in
  flat <- np_ones (N - 2 * R) ;;
  Ok (r ++ flat ++ rev r, N - R - 1).

(** <<
def bac(x, p):
    L = len(x)
    r = np.zeros(p+1)
    for m in range(0, p+1):
        for n in range(0, L-m):
            r[m] += x[n] * x[n+m]
        r[m] /= float(L)
    return r
>> *)
Definition bac_inner (x : list F) (m : Z) (r : list F) (n : Z)
  : result (list F) :=
  rm <- getitem r m ;;
  xn <- getitem x n ;;
  xnm <- getitem x (n + m) ;;
  setitem r m (add rm (mul xn xnm)).

Definition bac_outer (x : list F) (r : list F) (m : Z) : result (list F) :=
  let L := len x in
  r <- foldM (bac_inner x m) (irange 0 (L - m)) r ;;
  rm <- getitem r m ;;
  setitem r m (div rm (of_int L)).

Definition bac (x : list F) (p : Z) : result (list F) :=
  r <- np_zeros (p + 1) ;;
  foldM (bac_outer x) (irange 0 (p + 1)) r.

(** <<
def ld(r, p):
    g = r[1] / r[0]
    a = np.array([g])
    v = (1. - g * g) * r[0];
    for i in range(1, p):
        g = (r[i+1] - np.dot(a, r[1:i+1])) / v
        a = np.r_[ g,  a - g * a[i-1::-1] ]
        v *= 1. - g*g
    return np.r_[1, -a[::-1]]
>> *)
Definition ld_step (r : list F) (s : list F * F) (i : Z)
  : result (list F * F) :=
  let '(a, v) := s in
  ri1 <- getitem r (i + 1) ;;
  d <- np_dot a (slice r 1 (i + 1)) ;;
  let g := div (sub ri1 d) v in
  a' <- broadcast sub a (map (mul g) (slice_down a (i - 1))) ;;
  Ok (g :: a', mul v (sub one (mul g g))).

Definition ld_init (r : list F) : result (list F * F) :=
  r1 <- getitem r 1 ;;
  r0 <- getitem r 0 ;;
  let g := div r1 r0 in
  Ok ([g], mul (sub one (mul g g)) r0).

Definition ld (r : list F) (p : Z) : result (list F) :=
  s0 <- ld_init r ;;
  s <- foldM (ld_step r) (irange 1 p) s0 ;;
  Ok (one :: map neg (rev (fst s))).

(** <<
def lpc(x, p):
    return ld(bac(x, p), p)
>> *)
Definition lpc (x : list F) (p : Z) : result (list F) :=
  r <- bac x p ;;
  ld r p.

(** [scipy.signal.lfilter(b, a, x)] on a 1-d block with zero initial state.
    scipy is outside the repository; this is the structure its documentation
    gives, direct form II transposed: [b] and [a] are padded with zeros to a
    common length [n] and divided by [a[0]], [z] holds the [n-1] delays, and
    for each input sample
<<
      y    = z[0] + b[0]*x
      z[i] = z[i+1] + x*b[i+1] - y*a[i+1]        (i < n-2)
      z[n-2] = x*b[n-1] - y*a[n-1]
>>
    (for [n = 1], [y = x*b[0]]). A zero [a[0]] is refused with a ValueError.
    With a single denominator coefficient scipy takes its FIR path instead,
    [np.convolve(b / a[0], x)] cut to [len(x)] samples: there an empty [b] or
    an empty [x] is refused with a ValueError (numpy's convolution takes no
    empty argument), and a zero [a[0]] is not (the division is numpy's);
    the samples are those of the same structure, which has no feedback
    then. *)
Definition pad (n : nat) (c : list F) : list F :=
  c ++ repeat zero (n - length c).

Fixpoint df2t_delays (z bs as_ : list F) (xk yk : F) : list F :=
  match z, bs, as_ with
  | _ :: ((z1 :: _) as zt), bi :: bt, ai :: at_ =>
      sub (add z1 (mul xk bi)) (mul yk ai) :: df2t_delays zt bt at_ xk yk
  | [_], bi :: _, ai :: _ => [sub (mul xk bi) (mul yk ai)]
  | _, _, _ => []
  end.

Fixpoint df2t (bn an z x : list F) : list F :=
  match x with
  | [] => []
  | xk :: xs =>
      match z, bn with
      | z0 :: _, b0 :: bt =>
          let yk := add z0 (mul b0 xk) in
          yk :: df2t bn an (df2t_delays z bt (tl an) xk yk) xs
      | _, b0 :: _ => mul xk b0 :: df2t bn an z xs
      | _, [] => []
      end
  end.

(** The samples the structure gives for [b], [a] (first coefficient [a0])
    and the block [x]. *)
Definition lfilter_structure (b a x : list F) (a0 : F) : list F :=
  let n := Nat.max (length a) (length b) in
  let bn := map (fun c => div c a0) (pad n b) in
  let an := map (fun c => div c a0) (pad n a) in
  df2t bn an (repeat zero (n - 1)) x.

Definition lfilter (b a x : list F) : result (list F) :=
  match a with
  | [] => Raise ValueError
  | [a0] =>
      match b, x with
      | [], _ => Raise ValueError
      | _, [] => Raise ValueError
      | _, _ => Ok (lfilter_structure b a x a0)
      end
  | a0 :: _ =>
      if is_zero a0 then Raise ValueError
      else Ok (lfilter_structure b a x a0)
  end.

(** <<
def LPC_GS_pshift(x, f, G, P, overlap=0.2):
    N = len(x)
    y = np.zeros(N)
    igs = int(G * f + 0.5)
    win, stride = win_taper(G, overlap)
    for n in range(0, len(x) - max(igs, G), stride):
        w = x[n:n+igs]
        a = lpc(w, P)
        e = sp.lfilter(a, [1], w)
        e = resample(e, f)
        w = sp.lfilter([1], a, e)
        y[n:n+G] += w * win
    return y
>> *)
Definition grain (x : list F) (f : F) (G P igs : Z) (win : list F)
    (y : list F) (n : Z) : result (list F) :=
  let w := slice x n (n + igs) in
  a <- lpc w P ;;
  e <- lfilter a [one] w ;;
  e <- resample e f ;;
  w <- lfilter [one] a e ;;
  ww <- broadcast mul w win ;;
  islice add y n (n + G) ww.

Definition LPC_GS_pshift (x : list F) (f : F) (G P : Z) (overlap : F)
  : result (list F) :=
  let N := len x in
  y <- np_zeros N ;;
  igs <- to_int (add (mul (of_int G) f) half) ;;
  ' (win, stride) <- win_taper G overlap ;;
  ns <- range 0 (len x - Z.max igs G) stride ;;
  foldM (grain x f G P igs win) ns y.

End Program.

(** ** The other transformers of the notebook, and the FIR notebook *)

Section Companions.

Context {F : Type} `{Num F}.

(** [y[start:stop] = v]: like the in-place operations on a slice, with the
    new values replacing the old ones. *)
Definition setslice (y : list F) (start stop : Z) (v : list F)
  : result (list F) :=
  islice (fun _ new => new) y start stop v.

(** <<
def double_len(x, G):
    N = len(x)
    y = np.zeros(2 * N)
    for n in range(0, len(x) - G, G):
        y[2*n:2*n+G] = x[n:n+G]
        y[2*n+G:2*n+2*G] = x[n:n+G]
    return y
>> *)
Definition double_len_body (x : list F) (G : Z) (y : list F) (n : Z)
  : result (list F) :=
  y <- setslice y (2 * n) (2 * n + G) (slice x n (n + G)) ;;
  setslice y (2 * n + G) (2 * n + 2 * G) (slice x n (n + G)).

Definition double_len (x : list F) (G : Z) : result (list F) :=
  let N := len x in
  y <- np_zeros (2 * N) ;;
  ns <- range 0 (len x - G) G ;;
  foldM (double_len_body x G) ns y.

(** <<
def double_len2(x, G):
    N = len(x)
    y = np.zeros(2 * N)
    overlap = 0.4
    win, stride = win_taper(G, overlap)
    ix = 0
    for n in range(0, len(x) - G, G):
        for k in [0, 1]:
            y[ix:ix+G] += x[n:n+G] * win
            ix += stride
    return y
>>
    The loop state is the pair [(y, ix)]. The literal [0.4] is written
    [2/5]: the quotient of two exactly represented integers is rounded to
    the number nearest to 0.4, which is the value of the literal. *)
Definition double_len2_copy (x : list F) (G : Z) (win : list F) (stride : Z)
    (n : Z) (s : list F * Z) (k : Z) : result (list F * Z) :=
  let '(y, ix) := s in
  ww <- broadcast mul (slice x n (n + G)) win ;;
  y <- islice add y ix (ix + G) ww ;;
  Ok (y, ix + stride).

Definition double_len2 (x : list F) (G : Z) : result (list F) :=
  let N := len x in
  y <- np_zeros (2 * N) ;;
  let overlap := div (of_int 2) (of_int 5) in
  ' (win, stride) <- win_taper G overlap ;;
  ns <- range 0 (len x - G) G ;;
  s <- foldM (fun s n => foldM (double_len2_copy x G win stride n) [0; 1] s)
             ns (y, 0) ;;
  Ok (fst s).

(** <<
def gs_map(n, f, G):
    t = np.floor(n / G) * G
    t += (n - t) * f
    return t
>>
    [n] is an array of integer indices, and every operation is element-wise. *)
Definition gs_map (n : list Z) (f : F) (G : Z) : list F :=
  map (fun k =>
         let t := mul (floor (div (of_int k) (of_int G))) (of_int G) in
         add t (mul (sub (of_int k) t) f)) n.

(** <<
def GS_pshift(x, f, G, overlap=0.5):
    N = len(x)
    y = np.zeros(N)
    igs = int(G * f + 0.5)
    win, stride = win_taper(G, overlap)
    for n in range(0, len(x) - max(igs, G), stride):
        w = resample(x[n:n+igs], f)
        y[n:n+G] += w * win
    return y
>> *)
Definition gs_grain (x : list F) (f : F) (G igs : Z) (win : list F)
    (y : list F) (n : Z) : result (list F) :=
  w <- resample (slice x n (n + igs)) f ;;
  ww <- broadcast mul w win ;;
  islice add y n (n + G) ww.

Definition GS_pshift (x : list F) (f : F) (G : Z) (overlap : F)
  : result (list F) :=
  let N := len x in
  y <- np_zeros N ;;
  igs <- to_int (add (mul (of_int G) f) half) ;;
  ' (win, stride) <- win_taper G overlap ;;
  ns <- range 0 (len x - Z.max igs G) stride ;;
  foldM (gs_grain x f G igs win) ns y.

(** [np.convolve(a, v)] in its default mode, the full linear convolution.
    numpy is outside the repository; this is the sum its documentation
    gives, [(a * v)[n] = sum_m a[m] * v[n - m]] over the [m] where both
    factors exist, for [n = 0 .. len(a) + len(v) - 2]; an empty argument is
    refused with a ValueError. *)
Definition convolve_at (a v : list F) (n : Z) : F :=
  fold_left
    (fun acc m =>
       add acc (mul (nth (Z.to_nat m) a zero) (nth (Z.to_nat (n - m)) v zero)))
    (irange (Z.max 0 (n - len v + 1)) (Z.min (n + 1) (len a))) zero.

Definition np_convolve (a v : list F) : result (list F) :=
  match a, v with
  | [], _ => Raise ValueError
  | _, [] => Raise ValueError
  | _, _ => Ok (map (convolve_at a v) (irange 0 (len a + len v - 1)))
  end.

(** <<
def cconv(x, h):
    # as before, we assume len(h) < len(x)
    L = len(x)
    xp = np.concatenate((x,x))
    # full convolution
    y = np.convolve(xp, h)
    return y[L:2*L]
>> *)
Definition cconv (x h : list F) : result (list F) :=
  let L := len x in
  let xp := x ++ x in
  y <- np_convolve xp h ;;
  Ok (slice y L (2 * L)).

(** [a % m] on Python integers: the sign of the result follows [m]. *)
Definition py_mod (a m : Z) : result Z :=
  if m =? 0 then Raise ZeroDivisionError else Ok (a mod m).

(** <<
class FIR_loop():
    def __init__(self, h):
        self.h = h
        self.ix = 0
        self.M = len(h)
        self.buf = np.zeros(self.M)

    def filter(self, x):
        y = 0
        self.buf[self.ix] = x
        for n in range(0, self.M):
            y += self.h[n] * self.buf[(self.ix+self.M-n) % self.M]
        self.ix = (self.ix + 1) % self.M
        return y
>>
    The object is a record of its four attributes; [filter] takes the state
    and returns the new state with the output sample. *)
Record FIR_loop : Type := {
  fir_h : list F;
  fir_ix : Z;
  fir_M : Z;
  fir_buf : list F
}.

Definition FIR_loop_init (h : list F) : result FIR_loop :=
  buf <- np_zeros (len h) ;;
  Ok {| fir_h := h; fir_ix := 0; fir_M := len h; fir_buf := buf |}.

Definition FIR_loop_tap (s : FIR_loop) (buf : list F) (y : F) (n : Z)
  : result F :=
  hn <- getitem (fir_h s) n ;;
  j <- py_mod (fir_ix s + fir_M s - n) (fir_M s) ;;
  b <- getitem buf j ;;
  Ok (add y (mul hn b)).

Definition FIR_loop_filter (s : FIR_loop) (x : F) : result (FIR_loop * F) :=
  buf <- setitem (fir_buf s) (fir_ix s) x ;;
  y <- foldM (FIR_loop_tap s buf) (irange 0 (fir_M s)) zero ;;
  ix <- py_mod (fir_ix s + 1) (fir_M s) ;;
  Ok ({| fir_h := fir_h s; fir_ix := ix; fir_M := fir_M s; fir_buf := buf |},
      y).

(** Successive calls of [filter] on the samples of [xs], as in the
    notebook's [for n in range(0, 10): print(f.filter(n))]. *)
Fixpoint FIR_loop_run (s : FIR_loop) (xs : list F)
  : result (FIR_loop * list F) :=
  match xs with
  | [] => Ok (s, [])
  | x :: xs' =>
      ' (s1, y) <- FIR_loop_filter s x ;;
      ' (s2, ys) <- FIR_loop_run s1 xs' ;;
      Ok (s2, y :: ys)
  end.

End Companions.

Arguments FIR_loop : clear implicits.

(** ** Closed forms of the loops *)

Section LoopForms.

Context {F : Type} `{Num F}.

(** The value the inner loop leaves in [r[m]], before the division. *)
Definition lag_product (x : list F) (m : Z) (acc : F) (n : Z) : F :=
  add acc (mul (nth (Z.to_nat n) x zero) (nth (Z.to_nat (n + m)) x zero)).

(** Entry [m] of the vector [bac] returns. *)
Definition bac_entry (x : list F) (m : Z) : F :=
  div (fold_left (lag_product x m) (irange 0 (len x - m)) zero)
      (of_int (len x)).

(** Element-wise operation and dot product of vectors of equal length. *)
Definition zip_with (op : F -> F -> F) (u v : list F) : list F :=
  map (fun p => op (fst p) (snd p)) (combine u v).

Definition dot_acc (u v : list F) : F :=
  fold_left (fun acc p => add acc (mul (fst p) (snd p))) (combine u v) zero.

(** One pass of the loop body at order [i = len a], when nothing fails. *)
Definition ld_update (r a : list F) (v : F) : list F * F :=
  let i := len a in
  let g := div (sub (nth (Z.to_nat (i + 1)) r zero)
                    (dot_acc a (slice r 1 (i + 1)))) v in
  (g :: zip_with sub a (map (mul g) (rev a)), mul v (sub one (mul g g))).

(** The state after the iterations [i = 1 .. k] of the loop. *)
Definition ld_state (r : list F) (k : Z) : result (list F * F) :=
  s0 <- ld_init r ;; foldM (ld_step r) (irange 1 (k + 1)) s0.

End LoopForms.

(** ** Specification-level notions *)

(** The contract as the specification words it: linear interpolation between
    [x[floor t]] and [x[floor t + 1]], the first term alone when only
    [floor t] is in range, and 0 when [floor t] is out of range. *)
Definition interpolate_spec (x : list Qc) (t : Qc) : Qc :=
  let n := Qfloor t in
  let frac := (t - Q2Qc (inject_Z n))%Qc in
  let xn := nth (Z.to_nat n) x (Q2Qc 0) in
  let xn1 := nth (Z.to_nat (n + 1)) x (Q2Qc 0) in
  if (0 <=? n) && (n + 1 <? len x) then ((1 - frac) * xn + frac * xn1)%Qc
  else if (0 <=? n) && (n <? len x) then ((1 - frac) * xn)%Qc
  else Q2Qc 0.

(** The result of a call, seen through [f]. *)
Definition value_of {A B} (f : A -> B) (r : result A) : result B :=
  match r with
  | Ok a => Ok (f a)
  | Raise e => Raise e
  end.

(** [sum_{k<n} f k] *)
Fixpoint bigsum (n : nat) (f : nat -> Qc) : Qc :=
  match n with
  | O => Q2Qc 0
  | S k => (bigsum k f + f k)%Qc
  end.

(** The biased estimator as the specification writes it:
    [r[m] = (1/L) * sum_{k=0}^{L-m-1} x[k]*x[k+m]]. *)
Definition autocorrelation_spec (x : list Qc) (m : nat) : Qc :=
  let xs k := nth k x (Q2Qc 0) in
  (1 / Q2Qc (inject_Z (len x))
   * bigsum (length x - m) (fun k => xs k * xs (k + m)%nat))%Qc.

(** The gain at position [i] of a window with ramps of length [R]. *)
Definition taper_gain (N R i : Z) : Qc :=
  if i <? R then (of_int i / of_int R)%Qc
  else if i <? N - R then 1%Qc
  else (of_int (N - 1 - i) / of_int R)%Qc.

(** The window plus its copy shifted by [stride], at index [i] of the
    span where the two overlap: [win[i] + win[i - stride]]. *)
Definition crossfade_sum {F : Type} `{Num F} (win : list F) (stride i : Z)
  : result F :=
  u <- getitem win i ;;
  v <- getitem win (i - stride) ;;
  Ok (add u v).

(** The crossfade-unity property of the pair [win_taper N a] returns: the
    window plus its copy shifted by [stride] is 1 on the overlapping span
    [stride <= i < N]. *)
Definition crossfade_unity (N : Z) (a : Qc) : Prop :=
  forall win stride,
    win_taper N a = Ok (win, stride) ->
    forall i, stride <= i < N ->
      exists u v, getitem win i = Ok u /\ getitem win (i - stride) = Ok v /\
                  (u + v)%Qc = 1%Qc.

(** [|i - j|] on naturals. *)
Definition adiff (i j : nat) : nat := ((i - j) + (j - i))%nat.

(** [c] solves the order-[n] normal equations for the lags [rr]:
    [sum_j rr(|i-j|) * c_j = rr(i+1)] for every row [i < n]
    (rows and columns counted from 0, so [c_j] is the predictor coefficient
    a_(j+1)). *)
Definition normal_equations (n : nat) (rr c : nat -> Qc) : Prop :=
  forall i, (i < n)%nat ->
    bigsum n (fun j => rr (adiff i j) * c j)%Qc = rr (S i).

(** The prediction-error power of [c]. *)
Definition error_power (n : nat) (rr c : nat -> Qc) : Qc :=
  (rr O - bigsum n (fun j => c j * rr (S j)))%Qc.

(** The coefficients of order [n+1] from those of order [n] and the
    reflection coefficient [g]. *)
Definition raise_order (n : nat) (c : nat -> Qc) (g : Qc) (j : nat) : Qc :=
  if (j <? n)%nat then (c j - g * c (n - 1 - j)%nat)%Qc else g.

(** Lag [k] of [r], and predictor coefficient [j+1] of a loop state [a]
    (the loop keeps the coefficients newest first). *)
Definition lag (r : list Qc) (k : nat) : Qc := nth k r (Q2Qc 0).
Definition coeff (a : list Qc) (j : nat) : Qc := nth j (rev a) (Q2Qc 0).

(** What every pass of the loop maintains: the state solves the normal
    equations of its order, and [v] is its prediction-error power. *)
Definition ld_invariant (r a : list Qc) (v : Qc) : Prop :=
  normal_equations (length a) (lag r) (coeff a) /\
  v = error_power (length a) (lag r) (coeff a).

(** The divisors of the recursion, [r[0]] and the error power [v] each
    pass divides by, are nonzero. *)
Definition ld_regular (r : list Qc) (p : Z) : Prop :=
  lag r 0 <> Q2Qc 0 /\
  forall k a v, 0 <= k < p - 1 -> ld_state r k = Ok (a, v) -> v <> Q2Qc 0.

(** The ordering the specification states: [1] followed by the negated solution
    newest coefficient first, [[1, -a_p, ..., -a_1]]. *)
Definition ld_returns_reversed_solution (r : list Qc) (p : Z) : Prop :=
  exists c, ld r p = Ok (one :: map neg (rev c)) /\
            normal_equations (Z.to_nat p) (lag r) (fun j => nth j c (Q2Qc 0)).

(** The difference equation scipy documents for [lfilter] (with [a[0] = 1]),
<<
      y[n] = b[0]*x[n] + b[1]*x[n-1] + ... - a[1]*y[n-1] - ...
>>
    with the past inputs [hx] and past outputs [hy] kept newest first; what
    lies before the block reads as 0 (zero initial state). *)
Fixpoint taps (cs h : list Qc) : Qc :=
  match cs, h with
  | c :: cs', v :: h' => (c * v + taps cs' h')%Qc
  | _, _ => Q2Qc 0
  end.

Fixpoint direct_form (bn an hx hy x : list Qc) : list Qc :=
  match x with
  | [] => []
  | xk :: xs =>
      let yk := (hd (Q2Qc 0) bn * xk + taps (tl bn) hx - taps (tl an) hy)%Qc in
      yk :: direct_form bn an (xk :: hx) (yk :: hy) xs
  end.

(** The delays the transposed structure holds after the history [hx], [hy]. *)
Fixpoint delays_of (bt at_ hx hy : list Qc) : list Qc :=
  match bt, at_ with
  | _ :: bt', _ :: at' =>
      (taps bt hx - taps at_ hy)%Qc :: delays_of bt' at' hx hy
  | _, _ => []
  end.

(** The normalised coefficient vectors the two filters get for an all-zero
    grain. *)
Definition whitening_coeffs (P : nat) : list float := 1%float :: repeat nan P.
Definition unit_coeffs (P : nat) : list float := 1%float :: repeat 0%float P.

Definition all_nan (l : list float) : Prop := forall u, In u l -> u = nan.

(** The linear convolution of a finite impulse response [h] with a finite
    signal [x], as the FIR notebook writes it,
    [y[n] = sum_{k=0}^{M-1} h[k] * x[n-k]], where the samples before the
    start or after the end of [x] read as 0. *)
Definition convolution_spec (h x : list Qc) (n : nat) : Qc :=
  bigsum (length h)
    (fun k => if (k <=? n)%nat
              then (nth k h (Q2Qc 0) * nth (n - k) x (Q2Qc 0))%Qc
              else Q2Qc 0).

(** The circular convolution of the same notebook,
    [y[n] = sum_{k=0}^{M-1} h[k] * x[(n-k) mod L]]. *)
Definition circular_convolution_spec (h x : list Qc) (n : Z) : Qc :=
  bigsum (length h)
    (fun k => (nth k h (Q2Qc 0)
               * nth (Z.to_nat ((n - Z.of_nat k) mod len x)) x (Q2Qc 0))%Qc).

(** What a [FIR_loop] object holds between two calls, for the impulse
    response [h] and the past inputs [hist] (newest first): the circular
    buffer keeps the last [M] inputs, the one received [j+1] calls ago at
    index [(ix - 1 - j) mod M], and zeros where there is no past yet. *)
Definition FIR_loop_holds (h hist : list Qc) (s : FIR_loop Qc) : Prop :=
  fir_h s = h /\ fir_M s = len h /\ len (fir_buf s) = len h /\
  0 <= fir_ix s < len h /\
  forall j, 0 <= j < len h ->
    nth (Z.to_nat ((fir_ix s - 1 - j) mod len h)) (fir_buf s) (Q2Qc 0)
    = nth (Z.to_nat j) hist (Q2Qc 0).

(** The sample [double_len x G] leaves at index [i]: the blocks of [G]
    samples that start before [len(x) - G] are written twice in a row, and
    nothing is written past them. *)
Definition doubled {F : Type} `{Num F} (x : list F) (G : Z) (i : Z) : F :=
  if i <? 2 * G * Z.max 0 ((len x - 1) / G)
  then nth (Z.to_nat (i / (2 * G) * G + i mod G)) x zero
  else zero.

(** The total gain the first [k] grains of an overlap-add at unit ratio put
    on sample [i] (grain length [G], ramps of [R] samples, so stride
    [G - R - 1]): the first ramp up, then 1 up to the start of the next
    grain, then the pending ramp down of the last grain. *)
Definition overlap_gain (G R : Z) (k : nat) (i : Z) : Qc :=
  let s := G - R - 1 in
  match k with
  | O => Q2Qc 0
  | S k' =>
      if i <? R then taper_gain G R i
      else if i <? Z.of_nat k * s then 1%Qc
      else if i <? Z.of_nat k' * s + G then taper_gain G R (i - Z.of_nat k' * s)
      else Q2Qc 0
  end.

(** The rational number a finite binary64 number stands for (0 for NaN and
    the infinities). *)
Definition float_exact (x : float) : Qc :=
  match Prim2SF x with
  | S754_finite s m e =>
      Q2Qc (inject_Z (if s then Z.neg m else Z.pos m) * Qpower (inject_Z 2) e)
  | _ => Q2Qc 0
  end.

(** Every grain [LPC_GS_pshift] analyses has a regular recursion: no pass
    of [ld] divides by zero, so that the division of the rationals is the
    division of the reals. *)
Definition grains_regular (x : list Qc) (f : Qc) (G P : Z) (overlap : Qc)
  : Prop :=
  forall igs win stride ns n r,
    to_int (add (mul (of_int G) f) half) = Ok igs ->
    win_taper G overlap = Ok (win, stride) ->
    range 0 (len x - Z.max igs G) stride = Ok ns ->
    In n ns ->
    bac (slice x n (n + igs)) P = Ok r ->
    ld_regular r P.

(** ** The run-time layer: basic facts *)

Lemma Ok_inj {A} (a b : A) : Ok a = Ok b -> a = b.
Proof. intros E. now inversion E. Qed.

Lemma len_nonneg {A} (x : list A) : 0 <= len x.
Proof. unfold len. lia. Qed.

Lemma getitem_nth {A} (x : list A) (n : Z) (d : A) :
  0 <= n < len x -> getitem x n = Ok (nth (Z.to_nat n) x d).
Proof.
  intros Hn. unfold getitem.
  destruct (Z.ltb_spec n 0); [lia|].
  destruct (Z.leb_spec 0 n); [|lia].
  destruct (Z.ltb_spec n (len x)); [|lia]. simpl.
  destruct (nth_error x (Z.to_nat n)) eqn:E.
  - now rewrite (nth_error_nth _ _ d E).
  - apply nth_error_None in E. unfold len in *. lia.
Qed.

Lemma getitem_beyond {A} (x : list A) (n : Z) :
  len x <= n -> getitem x n = Raise IndexError.
Proof.
  intros Hn. unfold getitem. pose proof (len_nonneg x).
  destruct (Z.ltb_spec n 0); [lia|].
  destruct (Z.ltb_spec n (len x)); [lia|].
  now rewrite andb_false_r.
Qed.

Lemma length_update {A} (x : list A) (i : nat) (v : A) :
  length (update x i v) = length x.
Proof.
  revert i; induction x as [|h t IH]; intros [|i]; simpl; auto.
Qed.

Lemma update_app_here {A} (pre post : list A) (c v : A) :
  update (pre ++ c :: post) (length pre) v = pre ++ v :: post.
Proof. induction pre; simpl; congruence. Qed.

Lemma setitem_app_here {A} (pre post : list A) (c v : A) :
  setitem (pre ++ c :: post) (len pre) v = Ok (pre ++ v :: post).
Proof.
  unfold setitem, len. rewrite length_app. simpl.
  destruct (Z.ltb_spec (Z.of_nat (length pre)) 0); [lia|].
  destruct (Z.leb_spec 0 (Z.of_nat (length pre))); [|lia].
  destruct (Z.ltb_spec (Z.of_nat (length pre))
              (Z.of_nat (length pre + S (length post)))); [|lia].
  simpl. now rewrite Nat2Z.id, update_app_here.
Qed.

Lemma setitem_head {A} (h v : A) (t : list A) :
  setitem (h :: t) 0 v = Ok (v :: t).
Proof. exact (setitem_app_here [] t h v). Qed.

Lemma setitem_keeps_head {A} (h v : A) (t y' : list A) (n : Z) :
  1 <= n -> setitem (h :: t) n v = Ok y' -> exists t', y' = h :: t'.
Proof.
  intros Hn. unfold setitem. destruct (Z.ltb_spec n 0); [lia|].
  destruct ((0 <=? n) && (n <? len (h :: t))); [|discriminate].
  intros K. inversion K.
  replace (Z.to_nat n) with (S (Z.to_nat (n - 1))) by lia. cbn [update]. eauto.
Qed.

Lemma getitem_app_here {A} (pre post : list A) (c : A) :
  getitem (pre ++ c :: post) (len pre) = Ok c.
Proof.
  rewrite (getitem_nth _ c).
  - unfold len. rewrite Nat2Z.id, app_nth2, Nat.sub_diag; auto.
  - unfold len. rewrite length_app. simpl. lia.
Qed.

Lemma getitem_head {A} (h : A) (t : list A) : getitem (h :: t) 0 = Ok h.
Proof. exact (getitem_app_here [] t h). Qed.

Lemma length_irange (a b : Z) : length (irange a b) = Z.to_nat (b - a).
Proof. unfold irange. now rewrite length_map, length_seq. Qed.

Lemma in_irange (a b k : Z) : In k (irange a b) <-> a <= k < b.
Proof.
  unfold irange. rewrite in_map_iff. split.
  - intros (j & <- & Hj). apply in_seq in Hj. lia.
  - intros Hk. exists (Z.to_nat (k - a)). split; [lia|]. apply in_seq. lia.
Qed.

Lemma irange_empty (a b : Z) : b <= a -> irange a b = [].
Proof.
  intros Hab. unfold irange. now replace (Z.to_nat (b - a)) with O by lia.
Qed.

Lemma irange_snoc (a b : Z) :
  a <= b -> irange a (b + 1) = irange a b ++ [b].
Proof.
  intros Hab. unfold irange.
  replace (Z.to_nat (b + 1 - a)) with (Z.to_nat (b - a) + 1)%nat by lia.
  rewrite seq_app, map_app. simpl. do 2 f_equal. lia.
Qed.

Lemma irange_cons (a b : Z) :
  a < b -> irange a b = a :: irange (a + 1) b.
Proof.
  intros Hab. unfold irange.
  replace (Z.to_nat (b - a)) with (S (Z.to_nat (b - (a + 1)))) by lia.
  simpl. f_equal; [lia|].
  rewrite <- seq_shift, map_map. apply map_ext. intros k. lia.
Qed.

Lemma nth_irange (a b d : Z) (k : nat) :
  (k < Z.to_nat (b - a))%nat -> nth k (irange a b) d = a + Z.of_nat k.
Proof.
  intros Hk. unfold irange.
  rewrite (nth_indep _ d (a + Z.of_nat 0)) by (now rewrite length_map, length_seq).
  rewrite (map_nth (fun j => a + Z.of_nat j)). now rewrite seq_nth.
Qed.

Lemma nth_map_irange {B} (g : Z -> B) (a b : Z) (d : B) (k : nat) :
  (k < Z.to_nat (b - a))%nat ->
  nth k (map g (irange a b)) d = g (a + Z.of_nat k).
Proof.
  intros Hk.
  rewrite (nth_indep _ d (g 0)) by (now rewrite length_map, length_irange).
  rewrite (map_nth g). now rewrite nth_irange.
Qed.

Lemma getitem_map_irange {B} (g : Z -> B) (n m : Z) :
  0 <= m < n -> getitem (map g (irange 0 n)) m = Ok (g m).
Proof.
  intros Hm. rewrite (getitem_nth _ (g 0)).
  - rewrite map_nth. rewrite nth_irange by lia. do 2 f_equal. lia.
  - unfold len. rewrite length_map, length_irange. lia.
Qed.

Lemma foldM_app {S V} (body : S -> V -> result S) (xs ys : list V) (s : S) :
  foldM body (xs ++ ys) s = (s' <- foldM body xs s ;; foldM body ys s').
Proof.
  revert s; induction xs as [|v xs IH]; intros s; simpl; auto.
  destruct (body s v); simpl; auto.
Qed.

(** ** Exact arithmetic: the [Qc] instance *)

Lemma zero_Qc : @zero Qc _ = Q2Qc 0.
Proof. reflexivity. Qed.

Lemma one_Qc : @one Qc _ = 1%Qc.
Proof. reflexivity. Qed.

Ltac qc_ops :=
  rewrite ?zero_Qc, ?one_Qc in *;
  cbn [add sub mul div neg NumQc] in *;
  change (Q2Qc (inject_Z 1)) with 1%Qc in *;
  change (Q2Qc (inject_Z 0)) with (Q2Qc 0) in *.

(** For a non-negative rational, [int(t)] is the floor. *)
Lemma to_int_Qc_nonneg (t : Qc) :
  (0 <= t)%Qc -> to_int t = Ok (Qfloor t).
Proof.
  intros Ht. cbn [to_int NumQc]. f_equal.
  destruct t as [[n d] Hc]. unfold Qcle, Qle in Ht. simpl in *.
  rewrite Z.quot_div_nonneg; lia.
Qed.

(** *** [subsample] against the interpolation contract *)

(** C7 (as stated, refuted): at [t = -1] the contract gives 0, but [int(-1)]
    is [-1] and [x[-1]] is Python's last element: on [x = [1, 2]] the code
    returns [1.0 * x[-1] + 0.0 * x[0] = 2]. *)
Lemma subsample_negative_index_wraps :
  let x := [Q2Qc 1; Q2Qc 2] in
  let t := Q2Qc (-1) in
  value_of this (subsample x t) = Ok 2%Q /\
  subsample [1; 2]%float (-1)%float = Ok 2%float /\
  this (interpolate_spec x t) = 0%Q /\
  subsample x t <> Ok (interpolate_spec x t).
Proof.
  cbv zeta. split; [reflexivity|]. split; [reflexivity|].
  split; [reflexivity|]. intros E. apply (f_equal (value_of this)) in E. vm_compute in E. discriminate E.
Qed.

(** C7 (amended): for every sequence [x] and every index [t >= 0],
    [subsample x t] returns normally the value of the interpolation contract:
    [(1-frac)*x[n] + frac*x[n+1]] with [n = floor t], [frac = t - n] when both
    indices are in range, [(1-frac)*x[n]] when only [n] is, and 0 when [n] is
    past the end. *)
Theorem subsample_interpolates (x : list Qc) (t : Qc) :
  (0 <= t)%Qc -> subsample x t = Ok (interpolate_spec x t).
Proof.
  intros Ht. unfold subsample, interpolate_spec.
  rewrite (to_int_Qc_nonneg Ht). cbn [bind].
  assert (Hn : 0 <= Qfloor t).
  { change 0 with (Qfloor 0). apply Qfloor_resp_le. exact Ht. }
  set (n := Qfloor t) in *.
  destruct (Z.leb_spec 0 n); [|lia]. cbn [andb].
  destruct (Z.ltb_spec (n + 1) (len x)) as [H1|H1].
  - rewrite (getitem_nth x (Q2Qc 0)) by lia.
    rewrite (getitem_nth x (Q2Qc 0)) by lia.
    cbn [bind try_IndexError]. f_equal. qc_ops. cbn [of_int NumQc]. ring.
  - destruct (Z.ltb_spec n (len x)) as [H2|H2].
    + rewrite (getitem_nth x (Q2Qc 0)) by lia.
      rewrite getitem_beyond by lia. reflexivity.
    + rewrite getitem_beyond by lia. reflexivity.
Qed.

Lemma subsample_interpolates_witness :
  subsample [Q2Qc 1; Q2Qc 2; Q2Qc 4] (Q2Qc (3 # 2))
  = Ok (interpolate_spec [Q2Qc 1; Q2Qc 2; Q2Qc 4] (Q2Qc (3 # 2))).
Proof.
  apply subsample_interpolates. unfold Qcle, Qle. simpl. lia.
Defined.

(** ** [bac]: the autocorrelation loop *)

Section Autocorrelation.

Context {F : Type} `{Num F}.

Lemma bac_inner_loop (x pre post : list F) (m : Z) (ns : list Z) :
  m = len pre ->
  (forall n, In n ns -> 0 <= n /\ n + m < len x) ->
  forall c,
    foldM (bac_inner x m) ns (pre ++ c :: post)
    = Ok (pre ++ fold_left (lag_product x m) ns c :: post).
Proof.
  intros Hm. induction ns as [|n ns IH]; intros Hns c; [reflexivity|].
  assert (Hn : 0 <= n /\ n + m < len x) by (apply Hns; now left).
  assert (0 <= m) by (subst m; apply len_nonneg).
  cbn [foldM fold_left]. unfold bac_inner at 1. subst m.
  rewrite getitem_app_here. cbn [bind].
  rewrite (getitem_nth x zero) by lia. cbn [bind].
  rewrite (getitem_nth x zero) by lia. cbn [bind].
  rewrite setitem_app_here. cbn [bind].
  apply IH. intros k Hk. apply Hns. now right.
Qed.

Lemma bac_outer_here (x pre post : list F) (m : Z) :
  m = len pre ->
  bac_outer x (pre ++ zero :: post) m = Ok (pre ++ bac_entry x m :: post).
Proof.
  intros Hm. unfold bac_outer.
  rewrite bac_inner_loop; auto.
  - cbn [bind]. subst m. rewrite getitem_app_here. cbn [bind].
    now rewrite setitem_app_here.
  - intros n Hn. apply in_irange in Hn. lia.
Qed.

Lemma bac_outer_loop (x : list F) (j : nat) :
  forall pre,
    foldM (bac_outer x) (irange (len pre) (len pre + Z.of_nat j))
          (pre ++ repeat zero j)
    = Ok (pre ++ map (bac_entry x) (irange (len pre) (len pre + Z.of_nat j))).
Proof.
  induction j as [|j IH]; intros pre.
  - rewrite irange_empty by lia. reflexivity.
  - rewrite irange_cons by lia. cbn [foldM repeat map].
    rewrite bac_outer_here by reflexivity. cbn [bind].
    specialize (IH (pre ++ [bac_entry x (len pre)])).
    replace (len (pre ++ [bac_entry x (len pre)])) with (len pre + 1) in IH
      by (unfold len; rewrite length_app; simpl; lia).
    replace (len pre + Z.of_nat (S j)) with (len pre + 1 + Z.of_nat j) by lia.
    rewrite <- !app_assoc in IH. exact IH.
Qed.

(** [bac] never fails for [p >= -1]: every index it uses is in range, and the
    result lists the entries lag by lag. *)
Lemma bac_closed_form (x : list F) (p : Z) :
  -1 <= p -> bac x p = Ok (map (bac_entry x) (irange 0 (p + 1))).
Proof.
  intros Hp. unfold bac, np_zeros.
  destruct (Z.ltb_spec (p + 1) 0); [lia|]. cbn [bind].
  pose proof (bac_outer_loop x (Z.to_nat (p + 1)) []) as E.
  change (len (@nil F)) with 0 in E. rewrite Z2Nat.id in E by lia.
  exact E.
Qed.

End Autocorrelation.

(** C10 (as stated, refuted): for the empty block ([L = 0]) every lag
    [m >= L] is divided by [float(0)]: [bac([], 0)] is [[0.0/0.0] = [nan]],
    not [[0]]. *)
Lemma bac_empty_block_is_nan :
  bac (@nil float) 0 = Ok [nan] /\
  getitem [nan] 0 = Ok nan /\
  nan <> (zero : float).
Proof.
  split; [reflexivity|]. split; [reflexivity|].
  intros E. apply (f_equal is_nan) in E. vm_compute in E. discriminate E.
Qed.

(** C10 (amended): for every block [x] whose length [L] has
    [0 / float(L) = 0] (every [L >= 1]; not [L = 0], where the quotient is
    NaN) and every [p >= 0], including [p >= L], [bac x p] returns normally
    (no IndexError), its result has length [p+1], and every entry at a lag
    [m >= L] is 0. *)
Theorem bac_safe_beyond_block_length {F : Type} `{Num F} (x : list F) (p : Z) :
  0 <= p ->
  div zero (of_int (len x)) = zero ->
  exists r, bac x p = Ok r /\ len r = p + 1 /\
            forall m, len x <= m <= p -> getitem r m = Ok zero.
Proof.
  intros Hp Hdiv. exists (map (bac_entry x) (irange 0 (p + 1))).
  split; [apply bac_closed_form; lia|]. split.
  - unfold len. rewrite length_map, length_irange. lia.
  - intros m Hm. pose proof (len_nonneg x).
    rewrite getitem_map_irange by lia. f_equal.
    unfold bac_entry. rewrite irange_empty by lia. exact Hdiv.
Qed.

Lemma bac_safe_beyond_block_length_witness :
  exists r, bac [1; 2]%float 3 = Ok r /\ len r = 3 + 1 /\
            forall m, len [1; 2]%float <= m <= 3 -> getitem r m = Ok zero.
Proof.
  apply (@bac_safe_beyond_block_length float NumFloat); [lia | reflexivity].
Defined.

(** *** Finite sums over [Qc] *)

Lemma bigsum_ext (n : nat) (f g : nat -> Qc) :
  (forall k, (k < n)%nat -> f k = g k) -> bigsum n f = bigsum n g.
Proof.
  induction n as [|n IH]; intros E; simpl; [reflexivity|].
  rewrite IH, E; auto.
Qed.

Lemma fold_left_irange_bigsum (g : Z -> Qc) (n : nat) :
  fold_left (fun acc k => (acc + g k)%Qc) (irange 0 (Z.of_nat n)) (Q2Qc 0)
  = bigsum n (fun k => g (Z.of_nat k)).
Proof.
  induction n as [|n IH]; [reflexivity|].
  rewrite Nat2Z.inj_succ, <- Z.add_1_r, irange_snoc by lia.
  rewrite fold_left_app, IH. reflexivity.
Qed.

(** C4: for every block [x] of length [L] and every maximum lag [p] with
    [0 <= p < L], [bac x p] returns a vector [r] of length [p+1] with
    [r[m] = (1/L) * sum_{k=0}^{L-m-1} x[k]*x[k+m]] for every [m] in [0..p]
    (exact arithmetic). *)
Theorem bac_biased_autocorrelation (x : list Qc) (p : Z) :
  0 <= p < len x ->
  exists r, bac x p = Ok r /\ len r = p + 1 /\
            forall m, 0 <= m <= p ->
                      getitem r m = Ok (autocorrelation_spec x (Z.to_nat m)).
Proof.
  intros Hp. exists (map (bac_entry x) (irange 0 (p + 1))).
  split; [apply bac_closed_form; lia|]. split.
  - unfold len. rewrite length_map, length_irange. lia.
  - intros m Hm. rewrite getitem_map_irange by lia. f_equal.
    unfold bac_entry, autocorrelation_spec.
    replace (len x - m) with (Z.of_nat (length x - Z.to_nat m))
      by (unfold len in *; lia).
    unfold lag_product. qc_ops. rewrite fold_left_irange_bigsum.
    cbn [of_int NumQc].
    rewrite (@bigsum_ext _ _ (fun k => (nth k x (Q2Qc 0)
                                       * nth (k + Z.to_nat m) x (Q2Qc 0))%Qc)).
    + unfold Qcdiv. ring.
    + intros k Hk. rewrite Nat2Z.id. do 2 f_equal. lia.
Qed.

Lemma bac_biased_autocorrelation_witness :
  exists r, bac [Q2Qc 1; Q2Qc 2; Q2Qc 3] 1 = Ok r /\ len r = 1 + 1 /\
            forall m, 0 <= m <= 1 ->
              getitem r m
              = Ok (autocorrelation_spec [Q2Qc 1; Q2Qc 2; Q2Qc 3] (Z.to_nat m)).
Proof.
  apply bac_biased_autocorrelation. unfold len. simpl. lia.
Defined.

(** ** [lfilter]: whitening and resynthesis are inverse *)

Lemma length_df2t {F : Type} `{Num F} (bn an : list F) :
  bn <> [] -> forall x z, length (df2t bn an z x) = length x.
Proof.
  intros Hb. induction x as [|xk xs IH]; intros z; [reflexivity|].
  destruct bn as [|b0 bt]; [contradiction|].
  destruct z as [|z0 zt]; simpl; now rewrite IH.
Qed.

Lemma div_one_Qc (l : list Qc) : map (fun c => (c / 1)%Qc) l = l.
Proof.
  rewrite <- (map_id l) at 2. apply map_ext. intros c. now field.
Qed.

(** The delays of the synthesis filter stay the negated delays of the
    whitening filter. *)
Lemma df2t_delays_mirror (xk yk : Qc) :
  forall (z c : list Qc),
    length c = length z ->
    df2t_delays (map Qcopp z) (repeat zero (length z)) c yk xk
    = map Qcopp (df2t_delays z c (repeat zero (length z)) xk yk)
    /\ length (df2t_delays z c (repeat zero (length z)) xk yk) = length z.
Proof.
  induction z as [|z0 zt IH]; intros c Hc; [now split|].
  destruct c as [|c0 ct]; [discriminate|].
  destruct zt as [|z1 zt'].
  - cbn [map length repeat df2t_delays]. split; [|reflexivity].
    f_equal. qc_ops. ring.
  - destruct (IH ct) as [E L]; [simpl in *; lia|].
    cbn [map length repeat df2t_delays] in *. split.
    + rewrite E. f_equal. qc_ops. ring.
    + now rewrite L.
Qed.

Lemma df2t_inverse (c : list Qc) :
  forall (x z : list Qc),
    length z = length c ->
    df2t (one :: repeat zero (length c)) (one :: c) (map Qcopp z)
         (df2t (one :: c) (one :: repeat zero (length c)) z x)
    = x.
Proof.
  induction x as [|xk xs IH]; intros z Hz; [reflexivity|].
  destruct z as [|z0 zt].
  - destruct c; [|discriminate]. cbn [df2t map].
    specialize (IH [] eq_refl). cbn [map] in IH. rewrite IH.
    f_equal. qc_ops. ring.
  - cbn [df2t map tl]. rewrite <- Hz.
    destruct (df2t_delays_mirror xk (add z0 (mul one xk)) (z0 :: zt) c
                (eq_sym Hz)) as [E L].
    cbn [map] in E.
    replace (add (- z0)%Qc (mul one (add z0 (mul one xk)))) with xk
      by (qc_ops; ring).
    rewrite E, Hz. rewrite IH by congruence. reflexivity.
Qed.

(** The two ways [lfilter] returns: the FIR path on non-empty arguments, and
    the recursive structure when [a[0]] is not zero. *)
Lemma lfilter_fir {F : Type} `{Num F} (b x : list F) (a0 : F) :
  b <> [] -> x <> [] ->
  lfilter b [a0] x = Ok (lfilter_structure b [a0] x a0).
Proof.
  intros Hb Hx. unfold lfilter.
  destruct b; [contradiction|]. destruct x; [contradiction|]. reflexivity.
Qed.

Lemma lfilter_recursive {F : Type} `{Num F} (b at_ x : list F) (a0 : F) :
  at_ <> [] -> is_zero a0 = false ->
  lfilter b (a0 :: at_) x = Ok (lfilter_structure b (a0 :: at_) x a0).
Proof.
  intros Ha Hz. unfold lfilter. destruct at_; [contradiction|].
  now rewrite Hz.
Qed.

Lemma lfilter_fir_empty_block {F : Type} `{Num F} (b : list F) (a0 : F) :
  lfilter b [a0] [] = Raise ValueError.
Proof. unfold lfilter. now destruct b. Qed.

(** Either way, with [a[0] = 1] and a non-empty block. *)
Lemma lfilter_unit_leading {F : Type} `{Num F} (b c x : list F) :
  is_zero (one : F) = false -> b <> [] -> x <> [] ->
  lfilter b (one :: c) x = Ok (lfilter_structure b (one :: c) x one).
Proof.
  intros Hz Hb Hx. destruct c as [|c0 c].
  - now apply lfilter_fir.
  - apply lfilter_recursive; [discriminate|exact Hz].
Qed.

Lemma length_lfilter_structure {F : Type} `{Num F} (b a x : list F) (a0 : F) :
  a <> [] -> length (lfilter_structure b a x a0) = length x.
Proof.
  intros Ha. unfold lfilter_structure. apply length_df2t.
  unfold pad. destruct a; [contradiction|]. destruct b; [|discriminate].
  cbn [app length]. rewrite Nat.max_0_r. discriminate.
Qed.

Lemma lfilter_structure_whiten_Qc (c x : list Qc) :
  lfilter_structure (one :: c) [one] x one
  = df2t (one :: c) (one :: repeat zero (length c)) (repeat zero (length c)) x.
Proof.
  unfold lfilter_structure.
  replace (Nat.max (length [@one Qc _]) (length (one :: c)))
    with (S (length c)) by (simpl; lia).
  unfold pad. cbn [length]. rewrite Nat.sub_diag, app_nil_r.
  replace (S (length c) - 1)%nat with (length c) by lia.
  replace (S (length c) - S O)%nat with (length c) by lia.
  change (fun c0 : Qc => div c0 one) with (fun c0 : Qc => (c0 / 1)%Qc).
  rewrite !div_one_Qc. reflexivity.
Qed.

Lemma lfilter_structure_resynth_Qc (c x : list Qc) :
  lfilter_structure [one] (one :: c) x one
  = df2t (one :: repeat zero (length c)) (one :: c) (repeat zero (length c)) x.
Proof.
  unfold lfilter_structure.
  replace (Nat.max (length (one :: c)) (length [@one Qc _]))
    with (S (length c)) by (simpl; lia).
  unfold pad. cbn [length]. rewrite Nat.sub_diag, app_nil_r.
  replace (S (length c) - 1)%nat with (length c) by lia.
  replace (S (length c) - S O)%nat with (length c) by lia.
  change (fun c0 : Qc => div c0 one) with (fun c0 : Qc => (c0 / 1)%Qc).
  rewrite !div_one_Qc. reflexivity.
Qed.

(** Whitening a non-empty block and resynthesizing with the same
    coefficients gives the block back. *)
Lemma lfilter_round_trip_Qc (c x : list Qc) :
  x <> [] ->
  exists e, lfilter (one :: c) [one] x = Ok e /\ length e = length x /\
            lfilter [one] (one :: c) e = Ok x.
Proof.
  intros Hx. rewrite lfilter_fir by (discriminate || exact Hx).
  eexists. split; [reflexivity|].
  assert (Le : length (lfilter_structure (one :: c) [one] x one) = length x)
    by (apply length_lfilter_structure; discriminate).
  split; [exact Le|].
  rewrite lfilter_unit_leading.
  - f_equal. rewrite lfilter_structure_resynth_Qc, lfilter_structure_whiten_Qc.
    replace (repeat zero (length c))
      with (map Qcopp (repeat zero (length c))) at 2.
    + apply df2t_inverse. apply repeat_length.
    + rewrite map_repeat. reflexivity.
  - reflexivity.
  - discriminate.
  - intros E. rewrite E in Le. destruct x; [contradiction|discriminate].
Qed.

(** ** [win_taper]: the crossfade window *)

Lemma of_int_Qc_sub (a b : Z) :
  (of_int (a - b) : Qc) = (of_int a - of_int b)%Qc.
Proof.
  cbn [of_int NumQc]. apply Qc_is_canon. unfold Qcminus, Qcplus, Qcopp, Q2Qc.
  cbn [this]. rewrite !Qred_correct. unfold Z.sub.
  rewrite inject_Z_plus, inject_Z_opp. reflexivity.
Qed.

Lemma of_int_Qc_nonzero (a : Z) : a <> 0 -> (of_int a : Qc) <> Q2Qc 0.
Proof.
  intros Ha E. cbn [of_int NumQc] in E. apply (f_equal this) in E.
  cbn [this Q2Qc] in E.
  assert (E' : (Qred (inject_Z a) == Qred 0)%Q) by (now rewrite E).
  rewrite !Qred_correct in E'. unfold Qeq in E'. simpl in E'. lia.
Qed.

Lemma win_taper_shape (N R : Z) (a : Qc) :
  to_int (div (mul (of_int N) a) (of_int 2)) = Ok R ->
  0 <= R -> 2 * R <= N ->
  exists win, win_taper N a = Ok (win, N - R - 1) /\ len win = N /\
              forall i, 0 <= i < N -> getitem win i = Ok (taper_gain N R i).
Proof.
  intros HR HR0 HN. unfold win_taper. rewrite HR. cbn [bind].
  unfold np_ones. destruct (Z.ltb_spec (N - 2 * R) 0); [lia|]. cbn [bind].
  set (r := map (fun k : Z => div (of_int k) (of_int R)) (irange 0 R)).
  assert (Lr : length r = Z.to_nat R)
    by (unfold r; rewrite length_map, length_irange; f_equal; lia).
  assert (Hr : forall k, (k < Z.to_nat R)%nat ->
                 nth k r (Q2Qc 0) = (of_int (Z.of_nat k) / of_int R)%Qc).
  { intros k Hk. unfold r. rewrite nth_map_irange by lia. reflexivity. }
  eexists. split; [reflexivity|]. split.
  - unfold len. rewrite !length_app, length_rev, repeat_length, Lr. lia.
  - intros i Hi. rewrite (getitem_nth _ (Q2Qc 0)).
    2:{ unfold len. rewrite !length_app, length_rev, repeat_length, Lr. lia. }
    f_equal. unfold taper_gain.
    destruct (Z.ltb_spec i R) as [H1|H1].
    + rewrite app_nth1 by lia. rewrite Hr by lia. now rewrite Z2Nat.id by lia.
    + rewrite app_nth2 by lia.
      destruct (Z.ltb_spec i (N - R)) as [H2|H2].
      * rewrite app_nth1 by (rewrite repeat_length; lia).
        apply nth_repeat_lt. lia.
      * rewrite app_nth2 by (rewrite repeat_length; lia).
        rewrite repeat_length, rev_nth by lia. rewrite Hr by lia.
        do 2 f_equal. lia.
Qed.

(** C2 (the code departs from the claim): inside the documented range
    [0 <= a <= 1] the window [win_taper] returns does not always crossfade
    to 1. With no taper, [win_taper(3, 0.0) = ([1, 1, 1], 2)]: the two
    copies overlap in the sample [i = 2], where their sum is 2. With a full
    taper of an even window, [win_taper(4, 1.0) = ([0, 0.5, 0.5, 0], 1)]:
    the flat part is empty and the sum at [i = 1] is 0.5 (binary64). *)
Theorem win_taper_crossfade_not_unity :
  (win_taper 3 0%float = Ok ([1; 1; 1]%float, 2) /\
   crossfade_sum [1; 1; 1]%float 2 2 = Ok 2%float) /\
  (win_taper 4 1%float = Ok ([0; 0.5; 0.5; 0]%float, 1) /\
   crossfade_sum [0; 0.5; 0.5; 0]%float 1 1 = Ok 0.5%float).
Proof. repeat split; reflexivity. Qed.

(** Where the window has a ramp and a flat part, the crossfade is exact:
    for a taper [a] whose ramp length [R = int(N*a/2)] is the same computed
    in binary64, as the program does, and computed exactly, with [1 <= R]
    and [2*R < N], the window has length [N], the stride is [N-R-1], and
    the window plus its shifted copy is 1 on the overlapping span (window
    values in exact arithmetic). *)
Lemma win_taper_crossfade_inside (N R : Z) (a : float) :
  to_int (div (mul (of_int N) a) (of_int 2)) = Ok R ->
  to_int (div (mul (of_int N) (float_exact a)) (of_int 2)) = Ok R ->
  1 <= R -> 2 * R < N ->
  (exists win, win_taper N (float_exact a) = Ok (win, N - R - 1) /\
               len win = N) /\
  crossfade_unity N (float_exact a).
Proof.
  intros _ HR HR1 HN.
  destruct (@win_taper_shape N R (float_exact a) HR) as (win & Hw & Hl & Hg);
    try lia.
  split; [now exists win|].
  intros win' stride E i Hi. rewrite Hw in E. inversion E; subst win' stride.
  exists (taper_gain N R i), (taper_gain N R (i - (N - R - 1))).
  split; [apply Hg; lia|]. split; [apply Hg; lia|].
  pose proof (@of_int_Qc_nonzero R ltac:(lia)) as HRz.
  unfold taper_gain.
  destruct (Z.ltb_spec i R); [lia|].
  destruct (Z.ltb_spec i (N - R)) as [H1|H1].
  - replace (i - (N - R - 1)) with 0 by lia.
    destruct (Z.ltb_spec 0 R); [|lia].
    change (of_int 0 : Qc) with (Q2Qc 0). now field.
  - destruct (Z.ltb_spec (i - (N - R - 1)) R) as [H2|H2].
    + replace (N - 1 - i) with (R - (i - (N - R - 1))) by lia.
      rewrite of_int_Qc_sub. now field.
    + destruct (Z.ltb_spec (i - (N - R - 1)) (N - R)); [|lia].
      replace (N - 1 - i) with 0 by lia.
      change (of_int 0 : Qc) with (Q2Qc 0). now field.
Qed.

(** ** [ld]: the Levinson-Durbin recursion *)

Section LevinsonDurbin.

Context {F : Type} `{Num F}.

Lemma length_slice_from_1 (r : list F) (i : Z) :
  0 <= i -> i + 1 <= len r -> length (slice r 1 (i + 1)) = Z.to_nat i.
Proof.
  intros Hi Hr. unfold slice, clip.
  destruct (Z.ltb_spec 1 0); [lia|]. destruct (Z.ltb_spec (i + 1) 0); [lia|].
  rewrite length_firstn, length_skipn. unfold len in *. lia.
Qed.

Lemma slice_down_all (a : list F) (i : Z) :
  len a = i -> 1 <= i -> slice_down a (i - 1) = rev a.
Proof.
  intros Ha Hi. unfold slice_down. destruct (Z.ltb_spec (i - 1) 0); [lia|].
  rewrite firstn_all2; [reflexivity|]. unfold len in Ha. lia.
Qed.

Lemma ld_step_update (r a : list F) (v : F) (i : Z) :
  len a = i -> 1 <= i -> i + 1 < len r ->
  ld_step r (a, v) i = Ok (ld_update r a v).
Proof.
  intros Ha Hi Hr. unfold ld_step, ld_update. rewrite Ha.
  rewrite (getitem_nth r zero) by lia. cbn [bind].
  unfold np_dot. rewrite length_slice_from_1 by lia.
  replace (length a =? Z.to_nat i)%nat with true
    by (symmetry; apply Nat.eqb_eq; unfold len in Ha; lia).
  cbn [bind]. rewrite (@slice_down_all a i) by assumption.
  unfold broadcast. rewrite length_map, length_rev, Nat.eqb_refl.
  reflexivity.
Qed.

Lemma length_ld_update (r a : list F) (v : F) :
  len (fst (ld_update r a v)) = len a + 1.
Proof.
  unfold ld_update, zip_with, len. cbn [fst length].
  rewrite length_map, length_combine, length_map, length_rev. lia.
Qed.

Lemma ld_init_ok (r : list F) :
  2 <= len r ->
  exists g v, ld_init r = Ok ([g], v).
Proof.
  intros Hr. unfold ld_init.
  rewrite (getitem_nth r zero) by lia. rewrite (getitem_nth r zero) by lia.
  cbn [bind]. eauto.
Qed.

Lemma ld_state_ok (r : list F) (k : nat) :
  Z.of_nat k + 1 < len r ->
  exists a v, ld_state r (Z.of_nat k) = Ok (a, v) /\ len a = Z.of_nat k + 1.
Proof.
  induction k as [|k IH]; intros Hr.
  - destruct (@ld_init_ok r) as (g & v & E); [lia|].
    exists [g], v. unfold ld_state. rewrite E. split; reflexivity.
  - destruct IH as (a & v & E & La); [lia|].
    unfold ld_state in *. rewrite Nat2Z.inj_succ, <- Z.add_1_r.
    rewrite irange_snoc by lia. destruct (ld_init r) as [s0|]; [|discriminate].
    cbn [bind] in *. rewrite foldM_app, E. cbn [bind foldM].
    rewrite ld_step_update by lia. cbn [bind].
    destruct (ld_update r a v) as [a' v'] eqn:U.
    exists a', v'. split; [reflexivity|].
    change a' with (fst (a', v')). rewrite <- U, length_ld_update. lia.
Qed.

(** [ld] returns normally whenever [r] holds the [p+1] lags it reads, and
    its result is [1] followed by [p] coefficients. *)
Lemma ld_returns (r : list F) (p : Z) :
  1 <= p < len r ->
  exists a v, ld_state r (p - 1) = Ok (a, v) /\ len a = p /\
              ld r p = Ok (one :: map neg (rev a)).
Proof.
  intros Hp. destruct (@ld_state_ok r (Z.to_nat (p - 1))) as (a & v & E & La);
    [lia|]. rewrite Z2Nat.id in * by lia.
  exists a, v. split; [exact E|]. split; [lia|].
  unfold ld, ld_state in *. replace (p - 1 + 1) with p in E by lia.
  destruct (ld_init r); [|discriminate]. cbn [bind] in *. now rewrite E.
Qed.

End LevinsonDurbin.

(** *** Sums: shifting, reversal, linearity *)

Lemma bigsum_shift (n : nat) (f : nat -> Qc) :
  bigsum (S n) f = (f O + bigsum n (fun k => f (S k)))%Qc.
Proof.
  induction n as [|n IH].
  - simpl. ring.
  - change (bigsum (S (S n)) f) with (bigsum (S n) f + f (S n))%Qc.
    rewrite IH. simpl. ring.
Qed.

Lemma bigsum_rev (n : nat) (f : nat -> Qc) :
  bigsum n f = bigsum n (fun k => f (n - 1 - k)%nat).
Proof.
  revert f. induction n as [|n IH]; intros f; [reflexivity|].
  rewrite bigsum_shift. cbn [bigsum].
  rewrite (IH (fun k => f (S k))).
  replace (S n - 1 - n)%nat with O by lia.
  rewrite Qcplus_comm. f_equal.
  apply bigsum_ext. intros k Hk. f_equal. lia.
Qed.

Lemma bigsum_sub_scale (n : nat) (f h : nat -> Qc) (g : Qc) :
  bigsum n (fun k => f k - g * h k)%Qc = (bigsum n f - g * bigsum n h)%Qc.
Proof.
  induction n as [|n IH]; simpl; [ring|]. rewrite IH. ring.
Qed.

(** *** The order-update step of the recursion *)

Lemma levinson_step (n : nat) (rr c : nat -> Qc) (v g : Qc) :
  normal_equations n rr c ->
  v = error_power n rr c ->
  (g * v)%Qc = (rr (S n) - bigsum n (fun j => c j * rr (n - j)%nat))%Qc ->
  normal_equations (S n) rr (raise_order n c g) /\
  (v * (1 - g * g))%Qc = error_power (S n) rr (raise_order n c g).
Proof.
  intros Hsys Hv Hg. unfold error_power in *.
  set (S1 := bigsum n (fun j => c j * rr (n - j)%nat)%Qc) in *.
  assert (Hpow : bigsum n (fun j => c j * rr (S j))%Qc = (rr O - v)%Qc)
    by (rewrite Hv; ring).
  assert (Hrev : bigsum n (fun j => c (n - 1 - j)%nat * rr (S j))%Qc = S1).
  { unfold S1. rewrite (bigsum_rev n (fun j => c j * rr (n - j)%nat)%Qc).
    apply bigsum_ext. intros k Hk. do 2 f_equal. lia. }
  split.
  - intros i Hi. cbn [bigsum]. unfold raise_order at 2.
    rewrite Nat.ltb_irrefl.
    rewrite (@bigsum_ext n _
               (fun j => rr (adiff i j) * c j
                         - g * (rr (adiff i j) * c (n - 1 - j)%nat))%Qc).
    2:{ intros k Hk. unfold raise_order.
        destruct (Nat.ltb_spec k n); [ring|lia]. }
    rewrite bigsum_sub_scale.
    destruct (Nat.eq_dec i n) as [->|Hne].
    + rewrite (@bigsum_ext n _ (fun j => c j * rr (n - j)%nat)%Qc).
      2:{ intros k Hk. unfold adiff.
          replace (n - k + (k - n))%nat with (n - k)%nat by lia. ring. }
      fold S1.
      rewrite (bigsum_rev n (fun j => rr (adiff n j) * c (n - 1 - j)%nat)%Qc).
      rewrite (@bigsum_ext n _ (fun j => c j * rr (S j))%Qc).
      2:{ intros k Hk. unfold adiff.
          replace (n - (n - 1 - k) + (n - 1 - k - n))%nat with (S k) by lia.
          replace (n - 1 - (n - 1 - k))%nat with k by lia. ring. }
      rewrite Hpow. unfold adiff. rewrite Nat.sub_diag. cbn [Nat.add].
      replace (rr (S n)) with (g * v + S1)%Qc by (rewrite Hg; ring). ring.
    + rewrite (Hsys i) by lia.
      rewrite (bigsum_rev n (fun j => rr (adiff i j) * c (n - 1 - j)%nat)%Qc).
      rewrite (@bigsum_ext n _ (fun j => rr (adiff (n - 1 - i) j) * c j)%Qc).
      2:{ intros k Hk. unfold adiff.
          replace (n - 1 - (n - 1 - k))%nat with k by lia.
          do 2 f_equal. lia. }
      rewrite (Hsys (n - 1 - i)%nat) by lia.
      unfold adiff. replace (i - n + (n - i))%nat with (n - i)%nat by lia.
      replace (S (n - 1 - i)) with (n - i)%nat by lia. ring.
  - cbn [bigsum]. unfold raise_order at 2. rewrite Nat.ltb_irrefl.
    rewrite (@bigsum_ext n _
               (fun j => c j * rr (S j)
                         - g * (c (n - 1 - j)%nat * rr (S j)))%Qc).
    2:{ intros k Hk. unfold raise_order.
        destruct (Nat.ltb_spec k n); [ring|lia]. }
    rewrite bigsum_sub_scale, Hpow, Hrev.
    replace (rr (S n)) with (g * v + S1)%Qc by (rewrite Hg; ring). ring.
Qed.

(** *** From the loop to the normal equations *)

Lemma ld_state_next {F : Type} `{Num F} (r a : list F) (v : F) (k : Z) :
  0 <= k -> k + 2 < len r ->
  ld_state r k = Ok (a, v) -> len a = k + 1 ->
  ld_state r (k + 1) = Ok (ld_update r a v).
Proof.
  intros Hk Hr E La. unfold ld_state in *.
  rewrite irange_snoc by lia. destruct (ld_init r); [|discriminate].
  cbn [bind] in *. rewrite foldM_app, E. cbn [bind foldM].
  rewrite ld_step_update by lia. reflexivity.
Qed.

Lemma normal_equations_ext (n : nat) (rr c c' : nat -> Qc) :
  (forall j, (j < n)%nat -> c j = c' j) ->
  normal_equations n rr c -> normal_equations n rr c'.
Proof.
  intros E Hc i Hi. rewrite <- (Hc i Hi). apply bigsum_ext.
  intros j Hj. now rewrite E.
Qed.

Lemma dot_acc_bigsum (u w : list Qc) :
  length u = length w ->
  forall acc,
    fold_left (fun acc p => add acc (mul (fst p) (snd p))) (combine u w) acc
    = (acc + bigsum (length u)
               (fun k => nth k u (Q2Qc 0) * nth k w (Q2Qc 0)))%Qc.
Proof.
  revert w. induction u as [|u0 u IH]; intros [|w0 w] L acc; try discriminate.
  - simpl. ring.
  - cbn [combine fold_left length fst snd]. rewrite IH by (simpl in L; lia).
    rewrite bigsum_shift. cbn [nth]. qc_ops. ring.
Qed.

Lemma nth_slice_from_1 (r : list Qc) (n k : nat) :
  (k < n)%nat ->
  nth k (slice r 1 (Z.of_nat n + 1)) (Q2Qc 0) = lag r (S k).
Proof.
  intros Hk. unfold slice, clip, lag.
  destruct (Z.ltb_spec 1 0); [lia|].
  destruct (Z.ltb_spec (Z.of_nat n + 1) 0); [lia|].
  destruct (Nat.lt_ge_cases (S k) (length r)) as [Hr|Hr].
  - rewrite nth_firstn.
    replace (k <? Z.to_nat (Z.min (Z.of_nat n + 1) (len r) - Z.min 1 (len r)))%nat
      with true by (symmetry; apply Nat.ltb_lt; unfold len; lia).
    rewrite nth_skipn. f_equal. unfold len. lia.
  - rewrite (nth_overflow r) by lia. apply nth_overflow.
    rewrite length_firstn, length_skipn. unfold len. lia.
Qed.

Lemma nth_zip_with_sub (u w : list Qc) (m : nat) :
  length u = length w -> (m < length u)%nat ->
  nth m (zip_with sub u w) (Q2Qc 0)
  = (nth m u (Q2Qc 0) - nth m w (Q2Qc 0))%Qc.
Proof.
  intros L Hm. unfold zip_with.
  rewrite (nth_indep _ (Q2Qc 0)
             ((fun p : Qc * Qc => sub (fst p) (snd p)) (Q2Qc 0, Q2Qc 0)))
    by (rewrite length_map, length_combine; lia).
  rewrite (map_nth (fun p : Qc * Qc => sub (fst p) (snd p))).
  rewrite combine_nth by assumption. reflexivity.
Qed.

Lemma coeff_ld_update (r a : list Qc) (v : Qc) (j : nat) :
  (j <= length a)%nat ->
  let g := ((lag r (S (length a))
             - dot_acc a (slice r 1 (len a + 1))) / v)%Qc in
  coeff (fst (ld_update r a v)) j = raise_order (length a) (coeff a) g j.
Proof.
  intros Hj g. unfold ld_update. cbn [fst].
  replace (Z.to_nat (len a + 1)) with (S (length a)) by (unfold len; lia).
  change (div (sub (nth (S (length a)) r zero)
                   (dot_acc a (slice r 1 (len a + 1)))) v) with g.
  unfold coeff, raise_order. cbn [rev].
  set (z := zip_with sub a (map (mul g) (rev a))).
  assert (Lz : length z = length a).
  { unfold z, zip_with.
    rewrite length_map, length_combine, length_map, length_rev. lia. }
  destruct (Nat.ltb_spec j (length a)) as [H1|H1].
  - rewrite app_nth1 by (rewrite length_rev; lia).
    rewrite rev_nth by lia. rewrite Lz. unfold z.
    rewrite nth_zip_with_sub by (rewrite ?length_map, ?length_rev; lia).
    rewrite (nth_indep (map (mul g) (rev a)) (Q2Qc 0) (mul g (Q2Qc 0)))
      by (rewrite length_map, length_rev; lia).
    rewrite (map_nth (mul g)).
    replace (length a - 1 - j)%nat with (length a - S j)%nat by lia.
    rewrite (@rev_nth _ a (Q2Qc 0) j) by lia. reflexivity.
  - rewrite app_nth2 by (rewrite length_rev; lia).
    rewrite length_rev, Lz. replace (j - length a)%nat with O by lia.
    reflexivity.
Qed.

Lemma ld_init_invariant (r : list Qc) :
  2 <= len r -> lag r 0 <> Q2Qc 0 ->
  exists g v, ld_init r = Ok ([g], v) /\ ld_invariant r [g] v.
Proof.
  intros Hr H0. unfold ld_init.
  rewrite (getitem_nth r zero) by lia. rewrite (getitem_nth r zero) by lia.
  cbn [bind]. change (nth (Z.to_nat 1) r zero) with (lag r 1).
  change (nth (Z.to_nat 0) r zero) with (lag r 0).
  eexists; eexists. split; [reflexivity|]. split.
  - intros i Hi. cbn [length] in *. assert (i = O) as -> by lia.
    cbn. qc_ops. now field.
  - unfold error_power. cbn. qc_ops. now field.
Qed.

Lemma dot_acc_reversed (r a : list Qc) :
  len a + 1 <= len r ->
  dot_acc a (slice r 1 (len a + 1))
  = bigsum (length a) (fun j => coeff a j * lag r (length a - j)%nat)%Qc.
Proof.
  intros Hr. unfold dot_acc. pose proof (len_nonneg a).
  rewrite dot_acc_bigsum
    by (rewrite length_slice_from_1 by lia; unfold len; lia).
  rewrite zero_Qc, Qcplus_0_l, bigsum_rev.
  apply bigsum_ext. intros k Hk. unfold coeff, len.
  rewrite nth_slice_from_1 by lia. rewrite rev_nth by lia.
  replace (length a - S k)%nat with (length a - 1 - k)%nat by lia.
  replace (S (length a - 1 - k)) with (length a - k)%nat by lia.
  reflexivity.
Qed.

Lemma ld_update_invariant (r a : list Qc) (v : Qc) :
  len a + 1 <= len r -> v <> Q2Qc 0 ->
  ld_invariant r a v ->
  ld_invariant r (fst (ld_update r a v)) (snd (ld_update r a v)).
Proof.
  intros Hr Hv [Hsys Hpow].
  set (g := ((lag r (S (length a))
              - dot_acc a (slice r 1 (len a + 1))) / v)%Qc).
  assert (Hg : (g * v)%Qc
               = (lag r (S (length a))
                  - bigsum (length a)
                      (fun j => coeff a j * lag r (length a - j)%nat))%Qc).
  { rewrite <- dot_acc_reversed by assumption. unfold g. now field. }
  destruct (levinson_step Hsys Hpow Hg) as [Hsys' Hpow'].
  assert (L : length (fst (ld_update r a v)) = S (length a)).
  { pose proof (length_ld_update r a v). unfold len in *. lia. }
  assert (E : forall j, (j < S (length a))%nat ->
                raise_order (length a) (coeff a) g j
                = coeff (fst (ld_update r a v)) j).
  { intros j Hj. symmetry. apply coeff_ld_update. lia. }
  split; rewrite L.
  - exact (@normal_equations_ext _ _ _ _ E Hsys').
  - transitivity (v * (1 - g * g))%Qc.
    + unfold ld_update. cbn [snd].
      replace (Z.to_nat (len a + 1)) with (S (length a)) by (unfold len; lia).
      reflexivity.
    + rewrite Hpow'. unfold error_power. f_equal.
      apply bigsum_ext. intros j Hj. now rewrite E.
Qed.

Lemma ld_state_invariant (r : list Qc) (k : nat) :
  Z.of_nat k + 1 < len r ->
  ld_regular r (Z.of_nat k + 1) ->
  exists a v, ld_state r (Z.of_nat k) = Ok (a, v) /\
              length a = S k /\ ld_invariant r a v.
Proof.
  induction k as [|k IH]; intros Hr [H0 Hv].
  - destruct (@ld_init_invariant r) as (g & v & E & I); [lia|assumption|].
    exists [g], v. unfold ld_state. rewrite E. now split.
  - destruct IH as (a & v & E & La & I); [lia| |].
    { split; [assumption|]. intros j a v Hj. apply Hv. lia. }
    assert (La' : len a = Z.of_nat k + 1) by (unfold len; lia).
    exists (fst (ld_update r a v)), (snd (ld_update r a v)).
    rewrite Nat2Z.inj_succ, <- Z.add_1_r.
    rewrite (ld_state_next r (k := Z.of_nat k) ltac:(lia) ltac:(lia) E La').
    split; [now destruct (ld_update r a v)|]. split.
    + pose proof (length_ld_update r a v). unfold len in *. lia.
    + apply ld_update_invariant; [lia| |assumption].
      apply (Hv (Z.of_nat k) a v); [lia|assumption].
Qed.

Lemma ld_regular_example : ld_regular [Q2Qc 1; Q2Qc (1 # 2); Q2Qc 0] 2.
Proof.
  split.
  - intros E. apply (f_equal this) in E. vm_compute in E. discriminate E.
  - intros k a v Hk E. assert (k = 0) as -> by lia.
    vm_compute in E. inversion E; subst.
    intros E'. apply (f_equal this) in E'. vm_compute in E'. discriminate E'.
Qed.

(** C5 (as stated, refuted): for [r = [1, 1/2, 0]] and [p = 2] the divisors
    are [1] and [3/4], the normal equations have the solution
    [a_1 = 2/3, a_2 = -1/3], and [ld] returns [[1, -2/3, 1/3]], that is
    [[1, -a_1, -a_2]], not [[1, -a_2, -a_1]]. *)
Lemma ld_order_is_not_reversed :
  let r := [Q2Qc 1; Q2Qc (1 # 2); Q2Qc 0] in
  ld_regular r 2 /\
  value_of (map this) (ld r 2) = Ok [1; -2 # 3; 1 # 3]%Q /\
  ~ ld_returns_reversed_solution r 2.
Proof.
  cbv zeta. split; [exact ld_regular_example|]. split; [reflexivity|].
  intros (c & E & Hc).
  assert (L : ld [Q2Qc 1; Q2Qc (1 # 2); Q2Qc 0] 2
              = Ok [one; Q2Qc (-2 # 3); Q2Qc (1 # 3)]).
  { vm_compute.
    repeat first [apply Qc_is_canon; reflexivity | f_equal]. }
  rewrite L in E. inversion E as [E1].
  assert (R : rev c = [Q2Qc (2 # 3); Q2Qc (-1 # 3)]).
  { destruct (rev c) as [|u [|w [|? ?]]]; try discriminate E1.
    pose proof (f_equal (fun l => nth 0 l (Q2Qc 0)) E1) as Eu.
    pose proof (f_equal (fun l => nth 1 l (Q2Qc 0)) E1) as Ew.
    cbn [nth map neg NumQc] in Eu, Ew.
    rewrite <- (Qcopp_involutive u), <- (Qcopp_involutive w), <- Eu, <- Ew.
    repeat first [apply Qc_is_canon; reflexivity | f_equal]. }
  apply (f_equal (@rev Qc)) in R. rewrite rev_involutive in R. subst c.
  specialize (Hc O ltac:(simpl; lia)).
  apply (f_equal this) in Hc. vm_compute in Hc. discriminate Hc.
Qed.

(** C5 (amended): for every autocorrelation vector [r] holding the lags
    [0..p], [p >= 1], for which the divisors of the recursion are nonzero,
    [ld r p] returns a vector of length [p+1] whose first element is 1 and
    whose remaining entries are the negated solution of the symmetric
    Toeplitz system [R a = r[1..p]] in index order, [[1, -a_1, ..., -a_p]]
    (exact arithmetic). *)
Theorem ld_solves_normal_equations (r : list Qc) (p : Z) :
  1 <= p < len r ->
  ld_regular r p ->
  exists c, ld r p = Ok (one :: map neg c) /\ len c = p /\
            normal_equations (Z.to_nat p) (lag r) (fun j => nth j c (Q2Qc 0)).
Proof.
  intros Hp Hreg.
  destruct (@ld_state_invariant r (Z.to_nat (p - 1))) as (a & v & E & La & I).
  { lia. }
  { now replace (Z.of_nat (Z.to_nat (p - 1)) + 1) with p by lia. }
  destruct (@ld_returns _ _ r p Hp) as (a' & v' & E' & _ & Hld).
  rewrite Z2Nat.id in E by lia. rewrite E in E'. inversion E'; subst a' v'.
  exists (rev a). split; [exact Hld|]. split.
  - unfold len. rewrite length_rev. lia.
  - destruct I as [Hsys _].
    replace (Z.to_nat p) with (length a) by lia. exact Hsys.
Qed.

Lemma ld_solves_normal_equations_witness :
  exists c, ld [Q2Qc 1; Q2Qc (1 # 2); Q2Qc 0] 2 = Ok (one :: map neg c) /\
            len c = 2 /\
            normal_equations (Z.to_nat 2)
              (lag [Q2Qc 1; Q2Qc (1 # 2); Q2Qc 0])
              (fun j => nth j c (Q2Qc 0)).
Proof.
  apply ld_solves_normal_equations.
  - unfold len. simpl. lia.
  - exact ld_regular_example.
Defined.

(** ** Binary64: NaN is absorbing *)

Lemma float_nan_mul_l (u : float) : PrimFloat.mul nan u = nan.
Proof. apply Prim2SF_inj. rewrite mul_spec. reflexivity. Qed.

Lemma float_nan_add_l (u : float) : PrimFloat.add nan u = nan.
Proof. apply Prim2SF_inj. rewrite add_spec. reflexivity. Qed.

Lemma float_nan_add_r (u : float) : PrimFloat.add u nan = nan.
Proof.
  apply Prim2SF_inj. rewrite add_spec.
  change (Prim2SF nan) with S754_nan. now destruct (Prim2SF u).
Qed.

Lemma float_nan_div_r (u : float) : PrimFloat.div u nan = nan.
Proof.
  apply Prim2SF_inj. rewrite div_spec.
  change (Prim2SF nan) with S754_nan. now destruct (Prim2SF u).
Qed.

Lemma float_nan_sub_r (u : float) : PrimFloat.sub u nan = nan.
Proof.
  apply Prim2SF_inj. rewrite sub_spec.
  change (Prim2SF nan) with S754_nan. now destruct (Prim2SF u).
Qed.

(** [0.0 / y] is a zero or NaN, so dividing it by itself gives NaN. *)
Lemma float_zero_quotient_self (y : float) :
  let c := PrimFloat.div 0%float y in PrimFloat.div c c = nan.
Proof.
  cbv zeta. apply Prim2SF_inj. rewrite !div_spec.
  change (Prim2SF 0%float) with (S754_zero false).
  change (Prim2SF nan) with S754_nan.
  destruct (Prim2SF y) as [s|s| |s m e]; try reflexivity;
    destruct s; reflexivity.
Qed.

(** ** No degenerate-solve detection: NaN coefficients *)

Lemma zip_with_repeat {F : Type} `{Num F} (op : F -> F -> F) (x y : F) (n : nat) :
  zip_with op (repeat x n) (repeat y n) = repeat (op x y) n.
Proof.
  unfold zip_with. induction n as [|n IH]; simpl; [reflexivity|].
  now rewrite IH.
Qed.

Lemma ld_update_nan (r : list float) (n : nat) :
  ld_update r (repeat nan n) nan = (repeat nan (S n), nan).
Proof.
  unfold ld_update. cbn [div add mul sub NumFloat].
  rewrite float_nan_div_r, float_nan_mul_l. f_equal.
  rewrite rev_repeat, map_repeat, zip_with_repeat. reflexivity.
Qed.

Lemma ld_state_nan (r : list float) (k : nat) :
  Z.of_nat k + 1 < len r ->
  PrimFloat.div (nth 1 r zero) (nth 0 r zero) = nan ->
  ld_state r (Z.of_nat k) = Ok (repeat nan (S k), nan).
Proof.
  intros Hr Hg. induction k as [|k IH].
  - unfold ld_state, ld_init.
    rewrite (getitem_nth r zero) by lia. rewrite (getitem_nth r zero) by lia.
    cbn [bind foldM irange]. change (Z.to_nat 1) with 1%nat.
    change (Z.to_nat 0) with O. cbn [div mul sub NumFloat].
    rewrite Hg. change (PrimFloat.sub one (PrimFloat.mul nan nan)) with nan.
    now rewrite float_nan_mul_l.
  - rewrite Nat2Z.inj_succ, <- Z.add_1_r.
    rewrite (ld_state_next r (k := Z.of_nat k) ltac:(lia) ltac:(lia)
               (IH ltac:(lia))).
    + now rewrite ld_update_nan.
    + unfold len. rewrite repeat_length. lia.
Qed.

(** Whenever the first division [r[1]/r[0]] is NaN, every coefficient [ld]
    returns is NaN, and no exception is raised. *)
Lemma ld_nan_coefficients (r : list float) (p : Z) :
  1 <= p < len r ->
  PrimFloat.div (nth 1 r zero) (nth 0 r zero) = nan ->
  ld r p = Ok (one :: repeat nan (Z.to_nat p)).
Proof.
  intros Hp Hg.
  destruct (@ld_returns _ _ r p Hp) as (a & v & E & _ & Hld).
  rewrite Hld. pose proof (@ld_state_nan r (Z.to_nat (p - 1))) as K.
  rewrite Z2Nat.id in K by lia. rewrite K in E by (assumption || lia).
  assert (Ea : a = repeat nan (S (Z.to_nat (p - 1)))) by congruence.
  rewrite Ea. replace (S (Z.to_nat (p - 1))) with (Z.to_nat p) by lia.
  now rewrite rev_repeat, map_repeat.
Qed.

(** C6 (as stated, refuted): on the autocorrelation of an all-zero block
    [ld] raises nothing and returns NaN coefficients. *)
Lemma ld_zero_power_returns_nan :
  ld [0; 0; 0]%float 2 = Ok [1; nan; nan]%float /\
  (forall e : exn, ld [0; 0; 0]%float 2 <> Raise e).
Proof.
  split; [reflexivity|]. intros e E. vm_compute in E. discriminate E.
Qed.

(** C6 (amended): [ld] has no detection of a zero or near-zero divisor and
    signals no error for it. For every autocorrelation vector [r] holding the
    lags [0..p], [p >= 1], whose first two lags are zero (as for an all-zero
    block), [ld r p] returns normally, and the vector it returns is [1]
    followed by [p] NaNs: the [0/0] of the first division is propagated
    silently. *)
Theorem ld_zero_power_is_not_detected (r : list float) (p : Z) :
  1 <= p < len r ->
  getitem r 0 = Ok 0%float ->
  getitem r 1 = Ok 0%float ->
  ld r p = Ok (one :: repeat nan (Z.to_nat p)).
Proof.
  intros Hp H0 H1. apply ld_nan_coefficients; [assumption|].
  assert (E0 : nth 0 r zero = 0%float).
  { pose proof (getitem_nth r zero (n := 0) ltac:(lia)) as K.
    change (Z.to_nat 0) with O in K. congruence. }
  assert (E1 : nth 1 r zero = 0%float).
  { pose proof (getitem_nth r zero (n := 1) ltac:(lia)) as K.
    change (Z.to_nat 1) with 1%nat in K. congruence. }
  rewrite E0, E1. reflexivity.
Qed.

Lemma ld_zero_power_is_not_detected_witness :
  ld [0; 0; 0; 0]%float 3 = Ok (one :: repeat nan (Z.to_nat 3)).
Proof.
  apply ld_zero_power_is_not_detected;
    [unfold len; simpl; lia | reflexivity | reflexivity].
Defined.

(** The LPC analysis of an all-zero grain. *)
Lemma bac_zero_block (L : nat) (p : Z) :
  -1 <= p ->
  bac (repeat (0%float) L) p
  = Ok (map (fun _ => PrimFloat.div 0%float (float_of_Z (Z.of_nat L)))
            (irange 0 (p + 1))).
Proof.
  intros Hp. rewrite bac_closed_form by assumption. f_equal.
  apply map_ext. intros m. unfold bac_entry.
  unfold len. rewrite repeat_length. cbn [div of_int NumFloat]. f_equal.
  generalize (irange 0 (Z.of_nat L - m)). intros ns.
  induction ns as [|n ns IH]; [reflexivity|].
  cbn [fold_left]. unfold lag_product at 2.
  change (@zero float _) with 0%float. rewrite !nth_repeat.
  change (add 0 (mul 0 0))%float with 0%float. exact IH.
Qed.

Lemma lpc_zero_block (L : nat) (P : Z) :
  1 <= P ->
  lpc (repeat (0%float) L) P = Ok (one :: repeat nan (Z.to_nat P)).
Proof.
  intros HP. unfold lpc. rewrite bac_zero_block by lia. cbn [bind].
  apply ld_nan_coefficients.
  - unfold len. rewrite length_map, length_irange. lia.
  - rewrite !nth_map_irange by lia. apply float_zero_quotient_self.
Qed.

(** ** The grain loop *)

Lemma bind_Ok {A B} (c : result A) (k : A -> result B) (b : B) :
  (x <- c ;; k x) = Ok b -> exists a, c = Ok a /\ k a = Ok b.
Proof. destruct c as [a|e]; simpl; [eauto|discriminate]. Qed.

Lemma foldM_invariant {S V} (body : S -> V -> result S) (P : S -> Prop) :
  (forall s v s', body s v = Ok s' -> P s -> P s') ->
  forall xs s s', foldM body xs s = Ok s' -> P s -> P s'.
Proof.
  intros Hb. induction xs as [|v xs IH]; intros s s' E Hs; simpl in E.
  - now inversion E; subst.
  - apply bind_Ok in E. destruct E as (s1 & E1 & E2). eauto.
Qed.

Lemma clip_range {A} (y : list A) (i : Z) : 0 <= clip y i <= len y.
Proof.
  unfold clip. pose proof (len_nonneg y). destruct (Z.ltb_spec i 0); lia.
Qed.

Lemma length_islice {A} (op : A -> A -> A) (y v y' : list A) (start stop : Z) :
  islice op y start stop v = Ok y' -> length y' = length y.
Proof.
  unfold islice.
  pose proof (clip_range y start). pose proof (clip_range y stop).
  set (s := Z.to_nat (clip y start)). set (m := Z.to_nat (clip y stop - clip y start)).
  assert (Hs : (s + m <= length y)%nat) by (unfold len in *; lia).
  assert (Lt : length (firstn m (skipn s y)) = m)
    by (rewrite length_firstn, length_skipn; lia).
  destruct (Nat.eqb_spec (length v) (length (firstn m (skipn s y)))) as [E|E].
  - intros K. inversion K; subst y'.
    rewrite !length_app, length_map, length_combine, length_firstn, length_skipn.
    lia.
  - destruct v as [|b [|? ?]]; try discriminate.
    intros K. inversion K; subst y'.
    rewrite !length_app, length_map, length_firstn, length_skipn. lia.
Qed.

Section GrainLoop.

Context {F : Type} `{Num F}.

Lemma length_grain (x : list F) (f : F) (G P igs : Z) (win y y' : list F) (n : Z) :
  grain x f G P igs win y n = Ok y' -> length y' = length y.
Proof.
  unfold grain. intros E.
  repeat (apply bind_Ok in E; destruct E as (? & _ & E)).
  eapply length_islice; eassumption.
Qed.

Lemma length_LPC_GS_pshift (x : list F) (f : F) (G P : Z) (overlap : F)
    (y : list F) :
  LPC_GS_pshift x f G P overlap = Ok y -> length y = length x.
Proof.
  unfold LPC_GS_pshift, np_zeros. pose proof (len_nonneg x).
  destruct (Z.ltb_spec (len x) 0); [lia|]. cbn [bind]. intros E.
  apply bind_Ok in E. destruct E as (igs & _ & E).
  apply bind_Ok in E. destruct E as ([win stride] & _ & E).
  apply bind_Ok in E. destruct E as (ns & _ & E).
  apply (@foldM_invariant _ _ _ (fun y => length y = length x)) in E;
    [assumption| |].
  - intros s v s' Hg Hs. apply length_grain in Hg. congruence.
  - unfold len. now rewrite repeat_length, Nat2Z.id.
Qed.

(** With a non-positive order the LPC analysis of any grain fails inside
    [bac] (the negative size of [np.zeros(p+1)]) or at [ld]'s first read
    [r[1]]. *)
Lemma lpc_nonpositive_order (w : list F) (P : Z) :
  P <= 0 ->
  lpc w P = Raise (if P <? -1 then ValueError else IndexError).
Proof.
  intros HP. unfold lpc. destruct (Z.ltb_spec P (-1)) as [H1|H1].
  - unfold bac, np_zeros. destruct (Z.ltb_spec (P + 1) 0); [reflexivity|lia].
  - rewrite bac_closed_form by lia. cbn [bind]. unfold ld, ld_init.
    rewrite getitem_beyond; [reflexivity|].
    unfold len. rewrite length_map, length_irange. lia.
Qed.

End GrainLoop.

(** ** [LPC_GS_pshift]: parameters are not validated *)

(** C9 (as stated, refuted): an LPC order above the grain size ([P = 3],
    [G = 2]) is not rejected: the call processes its three grains and
    returns normally ([[1, 4, 6, 4, 0]] in exact arithmetic; the grains
    overlap by one sample because the untapered window has stride [G-1]). *)
Lemma LPC_GS_pshift_accepts_order_above_grain :
  2 <= 3 /\
  (exists y, LPC_GS_pshift [1; 2; 3; 4; 5]%float 1%float 2 3 0%float = Ok y) /\
  value_of (map this)
    (LPC_GS_pshift [Q2Qc 1; Q2Qc 2; Q2Qc 3; Q2Qc 4; Q2Qc 5] (Q2Qc 1) 2 3
                   (Q2Qc 0))
  = Ok [1; 4; 6; 4; 0]%Q.
Proof.
  split; [lia|]. split; [|reflexivity].
  eexists. vm_compute. reflexivity.
Qed.

(** C9 (amended): the entry point validates no parameter and raises no
    dedicated error. For a non-positive LPC order [P], after the output
    buffer, [igs], the window and the grain range have been computed, the
    call returns [zeros(len(x))] normally when no grain fits, and otherwise
    fails inside the first grain's LPC analysis, with an IndexError for
    [P = 0] or [P = -1] and a ValueError for [P <= -2]. *)
Theorem LPC_GS_pshift_nonpositive_order {F : Type} `{Num F}
    (x : list F) (f : F) (G P : Z) (overlap : F)
    (igs : Z) (win : list F) (stride : Z) (ns : list Z) :
  P <= 0 ->
  to_int (add (mul (of_int G) f) half) = Ok igs ->
  win_taper G overlap = Ok (win, stride) ->
  range 0 (len x - Z.max igs G) stride = Ok ns ->
  LPC_GS_pshift x f G P overlap
  = match ns with
    | [] => Ok (repeat zero (length x))
    | _ :: _ => Raise (if P <? -1 then ValueError else IndexError)
    end.
Proof.
  intros HP Higs Hwin Hns. unfold LPC_GS_pshift, np_zeros.
  pose proof (len_nonneg x). destruct (Z.ltb_spec (len x) 0); [lia|].
  cbn [bind]. rewrite Higs. cbn [bind]. rewrite Hwin. cbn [bind].
  rewrite Hns. cbn [bind]. unfold len. rewrite Nat2Z.id.
  destruct ns as [|n ns']; [reflexivity|].
  cbn [foldM]. unfold grain. now rewrite lpc_nonpositive_order.
Qed.

Lemma LPC_GS_pshift_nonpositive_order_witness :
  LPC_GS_pshift [1; 2; 3; 4; 5]%float 1%float 2 0 0%float
  = Raise IndexError.
Proof.
  exact (@LPC_GS_pshift_nonpositive_order float NumFloat
           [1; 2; 3; 4; 5]%float 1%float 2 0 0%float
           2 [1; 1]%float 1 [0; 1; 2]
           ltac:(lia) eq_refl eq_refl eq_refl).
Defined.

(** ** [LPC_GS_pshift]: output length *)

(** C1 (fails on the code): [igs = int(G*f + 0.5)] rounds to nearest while
    [resample] keeps [floor(igs / f)] samples. For [G = 5], [f = 1.25]:
    [igs = 6] and [floor(6 / 1.25) = 4], so the resynthesized grain has 4
    samples, the window 5, and [w * win] cannot be broadcast: the call
    raises ValueError and returns nothing. *)
Lemma LPC_GS_pshift_rounding_mismatch :
  LPC_GS_pshift [1; 2; 3; 4; 5; 6; 7]%float 1.25%float 5 1 0.5%float
  = Raise ValueError /\
  value_of (@length float)
    (resample (repeat 0%float 6) 1.25%float) = Ok 4%nat /\
  value_of (fun p => length (fst p)) (win_taper 5 0.5%float) = Ok 5%nat.
Proof. split; [reflexivity|]. split; reflexivity. Qed.

(** ** An all-zero block through the grain pipeline (binary64) *)

Lemma df2t_delays_repeat (P : nat) (zv bv av xk yk c : float) :
  PrimFloat.sub (PrimFloat.add zv (PrimFloat.mul xk bv)) (PrimFloat.mul yk av) = c ->
  PrimFloat.sub (PrimFloat.mul xk bv) (PrimFloat.mul yk av) = c ->
  df2t_delays (repeat zv P) (repeat bv P) (repeat av P) xk yk = repeat c P.
Proof.
  intros Hmid Hlast. induction P as [|P IH]; [reflexivity|].
  destruct P as [|P].
  - cbn [repeat df2t_delays]. cbn [sub mul NumFloat]. now rewrite Hlast.
  - change (repeat zv (S (S P))) with (zv :: repeat zv (S P)).
    change (repeat bv (S (S P))) with (bv :: repeat bv (S P)).
    change (repeat av (S (S P))) with (av :: repeat av (S P)).
    change (repeat c (S (S P))) with (c :: repeat c (S P)).
    rewrite <- IH. cbn [repeat df2t_delays]. cbn [sub add mul NumFloat].
    now rewrite Hmid.
Qed.

Lemma lfilter_whiten_normal_form (P : nat) (x : list float) :
  x <> [] ->
  lfilter (one :: repeat nan P) [one] x
  = Ok (df2t (whitening_coeffs P) (unit_coeffs P) (repeat 0%float P) x).
Proof.
  intros Hx. rewrite lfilter_fir by (discriminate || exact Hx). f_equal.
  unfold lfilter_structure. cbn [length]. rewrite repeat_length.
  replace (Nat.max 1 (S P)) with (S P) by lia. unfold pad. cbn [length].
  rewrite repeat_length, Nat.sub_diag, app_nil_r.
  replace (S P - 1)%nat with P by lia. cbn [map app].
  rewrite !map_repeat. reflexivity.
Qed.

Lemma lfilter_resynth_normal_form (P : nat) (x : list float) :
  (1 <= P)%nat ->
  lfilter [one] (one :: repeat nan P) x
  = Ok (df2t (unit_coeffs P) (whitening_coeffs P) (repeat 0%float P) x).
Proof.
  intros HP. rewrite lfilter_recursive;
    [|destruct P; [lia|discriminate]|reflexivity]. f_equal.
  unfold lfilter_structure. cbn [length]. rewrite repeat_length.
  replace (Nat.max (S P) 1) with (S P) by lia. unfold pad. cbn [length].
  rewrite repeat_length, Nat.sub_diag, app_nil_r.
  replace (S P - 1)%nat with P by lia. cbn [map app].
  rewrite !map_repeat. reflexivity.
Qed.

(** One input sample through a filter whose delays, numerator tail and
    denominator tail are constant vectors. *)
Lemma df2t_step_repeat (P : nat) (bv av zv xk c : float) (xs : list float) :
  let yk := PrimFloat.add zv (PrimFloat.mul 1%float xk) in
  PrimFloat.sub (PrimFloat.add zv (PrimFloat.mul xk bv)) (PrimFloat.mul yk av) = c ->
  PrimFloat.sub (PrimFloat.mul xk bv) (PrimFloat.mul yk av) = c ->
  df2t (1%float :: repeat bv (S P)) (1%float :: repeat av (S P))
       (repeat zv (S P)) (xk :: xs)
  = yk :: df2t (1%float :: repeat bv (S P)) (1%float :: repeat av (S P))
               (repeat c (S P)) xs.
Proof.
  intros yk Hmid Hlast.
  transitivity
    (yk :: df2t (1%float :: repeat bv (S P)) (1%float :: repeat av (S P))
             (df2t_delays (repeat zv (S P)) (repeat bv (S P))
                          (repeat av (S P)) xk yk) xs);
    [reflexivity|].
  now rewrite (df2t_delays_repeat (S P) Hmid Hlast).
Qed.

(** Whitening zeros with NaN coefficients: the first residual sample is 0,
    all later ones are NaN. *)
Lemma whiten_zero_block (P k : nat) :
  (1 <= P)%nat ->
  lfilter (one :: repeat nan P) [one] (repeat 0%float (S k))
  = Ok (0%float :: repeat nan k).
Proof.
  intros HP. rewrite lfilter_whiten_normal_form by discriminate. f_equal.
  destruct P as [|P]; [lia|]. unfold whitening_coeffs, unit_coeffs.
  change (repeat 0%float (S k)) with (0%float :: repeat 0%float k).
  rewrite (@df2t_step_repeat P nan 0%float 0%float 0%float nan) by reflexivity.
  f_equal. induction k as [|k IH]; [reflexivity|].
  change (repeat 0%float (S k)) with (0%float :: repeat 0%float k).
  rewrite (@df2t_step_repeat P nan 0%float nan 0%float nan) by reflexivity.
  cbn [repeat]. f_equal. exact IH.
Qed.

(** Resynthesis with NaN coefficients of an excitation that starts with
    NaN: every output sample is NaN. *)
Lemma resynth_nan_head (P : nat) (rest : list float) :
  (1 <= P)%nat ->
  lfilter [one] (one :: repeat nan P) (nan :: rest)
  = Ok (repeat nan (S (length rest))).
Proof.
  intros HP. rewrite lfilter_resynth_normal_form by exact HP. f_equal.
  destruct P as [|P]; [lia|]. unfold whitening_coeffs, unit_coeffs.
  rewrite (@df2t_step_repeat P 0%float nan 0%float nan nan) by reflexivity.
  cbn [length repeat]. f_equal.
  induction rest as [|u rest IH]; [reflexivity|].
  rewrite (@df2t_step_repeat P 0%float nan nan u nan).
  - cbn [length repeat]. rewrite float_nan_add_l. f_equal. exact IH.
  - rewrite !float_nan_add_l. reflexivity.
  - rewrite float_nan_add_l. change (PrimFloat.mul nan nan) with nan.
    apply float_nan_sub_r.
Qed.

Lemma float_zero_mul_cases (f : float) :
  let t := PrimFloat.mul 0%float f in
  t = 0%float \/ t = (-0)%float \/ t = nan.
Proof.
  cbv zeta.
  assert (K : Prim2SF (PrimFloat.mul 0%float f) = S754_zero false
              \/ Prim2SF (PrimFloat.mul 0%float f) = S754_zero true
              \/ Prim2SF (PrimFloat.mul 0%float f) = S754_nan).
  { rewrite mul_spec. change (Prim2SF 0%float) with (S754_zero false).
    destruct (Prim2SF f) as [s|s| |s m e]; try destruct s; simpl; auto. }
  destruct K as [K|[K|K]]; [left|right; left|right; right];
    apply Prim2SF_inj; rewrite K; reflexivity.
Qed.

(** The first resampled sample of a residual [0, nan, ...] is NaN. *)
Lemma subsample_zero_time (rest : list float) (f v : float) :
  subsample (0%float :: nan :: rest) (mul (of_int 0) f) = Ok v -> v = nan.
Proof.
  change (mul (of_int 0) f) with (PrimFloat.mul 0%float f).
  assert (G0 : getitem (0%float :: nan :: rest) 0 = Ok 0%float)
    by (rewrite (getitem_nth _ 0%float); [reflexivity | unfold len; simpl; lia]).
  assert (G1 : getitem (0%float :: nan :: rest) (0 + 1) = Ok nan)
    by (rewrite (getitem_nth _ 0%float); [reflexivity | unfold len; simpl; lia]).
  destruct (float_zero_mul_cases f) as [E|[E|E]]; rewrite E; unfold subsample.
  - change (to_int 0%float) with (@Ok Z 0). cbn [bind].
    rewrite G0, G1. cbn [bind try_IndexError]. intros K. now inversion K.
  - change (to_int (-0)%float) with (@Ok Z 0). cbn [bind].
    rewrite G0, G1. cbn [bind try_IndexError]. intros K. now inversion K.
  - change (to_int nan) with (@Raise Z ValueError). discriminate.
Qed.

Lemma foldM_invariant_in {S V} (body : S -> V -> result S) (P : S -> Prop)
    (xs : list V) :
  (forall s v s', In v xs -> body s v = Ok s' -> P s -> P s') ->
  forall s s', foldM body xs s = Ok s' -> P s -> P s'.
Proof.
  induction xs as [|v xs IH]; intros Hb s s' E Hs; simpl in E.
  - now inversion E; subst.
  - apply bind_Ok in E. destruct E as (s1 & E1 & E2).
    apply (IH (fun s v s' Hin => Hb s v s' (or_intror Hin)) s1 s' E2).
    apply (Hb s v s1 (or_introl eq_refl) E1 Hs).
Qed.

Lemma resample_head_nan (rest : list float) (f : float) (e' : list float) :
  resample (0%float :: nan :: rest) f = Ok e' ->
  e' = [] \/ exists tl, e' = nan :: tl.
Proof.
  unfold resample. destruct (is_zero f); [discriminate|]. intros E.
  apply bind_Ok in E. destruct E as (n_out & _ & E).
  apply bind_Ok in E. destruct E as (y0 & Hy0 & E).
  unfold np_zeros in Hy0. destruct (Z.ltb_spec n_out 0); [discriminate|].
  inversion Hy0; subst y0. clear Hy0.
  destruct (Z.eq_dec n_out 0) as [->|Hn].
  - left. rewrite irange_empty in E by lia. cbn [foldM Z.to_nat repeat] in E.
    congruence.
  - right. rewrite irange_cons in E by lia. cbn [foldM] in E.
    apply bind_Ok in E. destruct E as (y1 & Hy1 & E).
    apply bind_Ok in Hy1. destruct Hy1 as (v & Hv & Hy1).
    apply subsample_zero_time in Hv. subst v.
    replace (Z.to_nat n_out) with (S (Z.to_nat (n_out - 1))) in Hy1 by lia.
    cbn [repeat] in Hy1. rewrite setitem_head in Hy1.
    assert (Ey : exists tl, y1 = nan :: tl) by (inversion Hy1; eauto).
    apply (@foldM_invariant_in _ _ _ (fun y => exists tl, y = nan :: tl)) in E;
      [exact E| |exact Ey].
    intros s n s' Hin Hb [tl ->]. apply in_irange in Hin.
    apply bind_Ok in Hb. destruct Hb as (v & _ & Hb).
    apply setitem_keeps_head in Hb; [exact Hb|lia].
Qed.

Lemma all_nan_repeat (k : nat) : all_nan (repeat nan k).
Proof. intros u Hu. now apply repeat_spec in Hu. Qed.

Lemma broadcast_mul_all_nan (w win ww : list float) :
  all_nan w -> broadcast mul w win = Ok ww -> all_nan ww.
Proof.
  intros Hw. unfold broadcast.
  destruct (length w =? length win)%nat.
  - intros K u Hu. apply Ok_inj in K. subst ww.
    apply in_map_iff in Hu. destruct Hu as ([a b] & <- & Hin).
    apply in_combine_l in Hin. cbn [fst snd mul NumFloat].
    rewrite (Hw a Hin). apply float_nan_mul_l.
  - destruct w as [|a [|a' w']].
    + destruct win as [|b [|? ?]]; try discriminate.
      intros K u Hu. apply Ok_inj in K. subst ww. destruct Hu.
    + intros K u Hu. apply Ok_inj in K. subst ww.
      apply in_map_iff in Hu. destruct Hu as (b & <- & _).
      rewrite (Hw a (or_introl eq_refl)). apply float_nan_mul_l.
    + destruct win as [|b [|? ?]]; try discriminate.
      intros K u Hu. apply Ok_inj in K. subst ww.
      apply in_map_iff in Hu. destruct Hu as (c & <- & Hc).
      rewrite (Hw c Hc). apply float_nan_mul_l.
Qed.

(** What [y[start:stop] op= v] does at each index: inside the slice the
    element is combined with an element of [v], outside it is unchanged. *)
Lemma islice_nth {A} (op : A -> A -> A) (y v y' : list A) (start stop : Z)
    (d : A) :
  islice op y start stop v = Ok y' ->
  forall i, (i < length y)%nat ->
    ((Z.to_nat (clip y start) <= i
      < Z.to_nat (clip y start) + Z.to_nat (clip y stop - clip y start))%nat ->
     exists u, In u v /\ nth i y' d = op (nth i y d) u) /\
    (~ (Z.to_nat (clip y start) <= i
        < Z.to_nat (clip y start) + Z.to_nat (clip y stop - clip y start))%nat ->
     nth i y' d = nth i y d).
Proof.
  unfold islice.
  pose proof (clip_range y start). pose proof (clip_range y stop).
  set (s := Z.to_nat (clip y start)).
  set (m := Z.to_nat (clip y stop - clip y start)).
  set (target := firstn m (skipn s y)).
  assert (Hs : (s + m <= length y)%nat) by (unfold len in *; lia).
  assert (Lt : length target = m)
    by (unfold target; rewrite length_firstn, length_skipn; lia).
  assert (Ht : forall j, (j < m)%nat -> nth j target d = nth (s + j) y d).
  { intros j Hj. unfold target. rewrite nth_firstn.
    destruct (Nat.ltb_spec j m); [|lia]. apply nth_skipn. }
  assert (Key : forall mid,
             length mid = m ->
             (forall j, (j < m)%nat ->
                exists u, In u v /\ nth j mid d = op (nth j target d) u) ->
             forall i, (i < length y)%nat ->
               ((s <= i < s + m)%nat ->
                exists u, In u v
                          /\ nth i (firstn s y ++ mid ++ skipn (s + m) y) d
                             = op (nth i y d) u) /\
               (~ (s <= i < s + m)%nat ->
                nth i (firstn s y ++ mid ++ skipn (s + m) y) d = nth i y d)).
  { intros mid Lm Hmid i Hi.
    assert (Lf : length (firstn s y) = s) by (rewrite length_firstn; lia).
    split; intros Hr.
    - rewrite app_nth2 by lia. rewrite Lf. rewrite app_nth1 by lia.
      destruct (Hmid (i - s)%nat ltac:(lia)) as (u & Hu & E).
      exists u. split; [assumption|]. rewrite E, Ht by lia.
      do 2 f_equal. lia.
    - destruct (Nat.lt_ge_cases i s) as [H1|H1].
      + rewrite app_nth1 by lia. rewrite nth_firstn.
        now destruct (Nat.ltb_spec i s); [|lia].
      + rewrite app_nth2 by lia. rewrite Lf. rewrite app_nth2 by lia.
        rewrite Lm, nth_skipn. f_equal. lia. }
  destruct (Nat.eqb_spec (length v) (length target)) as [E|E].
  - intros K. apply Ok_inj in K. subst y'. apply Key.
    + rewrite length_map, length_combine. lia.
    + intros j Hj. exists (nth j v d). split; [apply nth_In; lia|].
      rewrite (nth_indep _ d
                 ((fun p : A * A => op (fst p) (snd p)) (d, d)))
        by (rewrite length_map, length_combine; lia).
      rewrite (map_nth (fun p : A * A => op (fst p) (snd p))).
      rewrite combine_nth by lia. reflexivity.
  - destruct v as [|b [|? ?]]; try discriminate.
    intros K. apply Ok_inj in K. subst y'. apply Key.
    + rewrite length_map. lia.
    + intros j Hj. exists b. split; [now left|].
      rewrite (nth_indep _ d ((fun a : A => op a b) d))
        by (rewrite length_map; lia).
      now rewrite (map_nth (fun a : A => op a b)).
Qed.

Lemma between_dec (a i b : nat) :
  {(a <= i < b)%nat} + {~ (a <= i < b)%nat}.
Proof.
  destruct (le_dec a i); destruct (lt_dec i b); (left; lia) || (right; lia).
Qed.

Lemma range_head (stop step : Z) :
  0 < step -> 0 < stop -> exists ns, range 0 stop step = Ok (0 :: ns).
Proof.
  intros Hstep Hstop. unfold range.
  destruct (Z.eqb_spec step 0); [lia|]. destruct (Z.ltb_spec 0 step); [|lia].
  assert (1 <= (stop - 0 + step - 1) / step)
    by (apply Z.div_le_lower_bound; lia).
  replace (Z.to_nat ((stop - 0 + step - 1) / step))
    with (S (Z.to_nat ((stop - 0 + step - 1) / step - 1))) by lia.
  cbn [seq map]. eauto.
Qed.

Lemma firstn_repeat_le {A} (a : A) (n m : nat) :
  (n <= m)%nat -> firstn n (repeat a m) = repeat a n.
Proof.
  revert m. induction n as [|n IH]; intros [|m] Hm; simpl; try lia; auto.
  rewrite IH by lia. reflexivity.
Qed.

Lemma slice_zero_block (L : nat) (igs : Z) :
  0 <= igs <= Z.of_nat L ->
  slice (repeat 0%float L) 0 (0 + igs) = repeat 0%float (Z.to_nat igs).
Proof.
  intros Hi. unfold slice, clip, len. rewrite repeat_length.
  destruct (Z.ltb_spec (0 + igs) 0); [lia|]. cbn [Z.ltb Z.compare].
  replace (Z.min 0 (Z.of_nat L)) with 0 by lia.
  replace (Z.min (0 + igs) (Z.of_nat L) - 0) with igs by lia.
  cbn [Z.to_nat skipn]. apply firstn_repeat_le. lia.
Qed.

Lemma grain_islice (x : list float) (f : float) (G P igs : Z)
    (win y y' : list float) (n : Z) :
  grain x f G P igs win y n = Ok y' ->
  exists ww, islice add y n (n + G) ww = Ok y'.
Proof.
  unfold grain. intros E.
  repeat (apply bind_Ok in E; destruct E as (? & _ & E)). eauto.
Qed.

Lemma first_grain_zero_block (L : nat) (f : float) (G P igs : Z)
    (win y1 : list float) :
  1 <= P -> 1 <= G -> 2 <= igs -> Z.max igs G < Z.of_nat L ->
  grain (repeat 0%float L) f G P igs win (repeat zero L) 0 = Ok y1 ->
  forall i, (i < Z.to_nat G)%nat -> nth i y1 0%float = nan.
Proof.
  intros HP HG Higs HL E i Hi. unfold grain in E.
  rewrite slice_zero_block, lpc_zero_block in E by lia. cbn [bind] in E.
  replace (Z.to_nat igs) with (S (S (Z.to_nat (igs - 2)))) in E by lia.
  rewrite whiten_zero_block in E by lia. cbn [bind repeat] in E.
  apply bind_Ok in E. destruct E as (e' & He' & E).
  apply bind_Ok in E. destruct E as (w' & Hw' & E).
  apply bind_Ok in E. destruct E as (ww & Hww & E).
  assert (Aw : all_nan w').
  { apply resample_head_nan in He'. destruct He' as [->|[tl ->]].
    - rewrite lfilter_resynth_normal_form in Hw' by lia. apply Ok_inj in Hw'.
      subst w'. intros u [].
    - rewrite resynth_nan_head in Hw' by lia. apply Ok_inj in Hw'.
      subst w'. apply all_nan_repeat. }
  pose proof (@broadcast_mul_all_nan _ _ _ Aw Hww) as Aww.
  assert (C0 : clip (repeat (@zero float _) L) 0 = 0)
    by (unfold clip, len; rewrite repeat_length; cbn [Z.ltb Z.compare]; lia).
  assert (CG : clip (repeat (@zero float _) L) (0 + G) = G).
  { unfold clip, len. rewrite repeat_length.
    destruct (Z.ltb_spec (0 + G) 0); lia. }
  destruct (@islice_nth _ add _ _ _ 0 (0 + G) 0%float E i) as [Hin _].
  { rewrite repeat_length. lia. }
  rewrite C0, CG in Hin. destruct Hin as (u & Hu & ->); [lia|].
  rewrite (Aww u Hu). apply float_nan_add_r.
Qed.

(** C8 (as stated, refuted): ten zeros, [f = 1.5], [G = 4], [P = 1],
    [overlap = 0.5] (so the block is longer than [G + P]): nothing is raised
    and the length is kept, but the samples the two grains cover are NaN,
    not 0. *)
Lemma LPC_GS_pshift_zero_block_returns_nan :
  4 + 1 <= len (repeat 0%float 10) /\
  LPC_GS_pshift (repeat 0%float 10) 1.5%float 4 1 0.5%float
  = Ok [nan; nan; nan; nan; nan; nan; 0; 0; 0; 0]%float /\
  LPC_GS_pshift (repeat 0%float 10) 1.5%float 4 1 0.5%float
  <> Ok (repeat 0%float 10).
Proof.
  split; [unfold len; simpl; lia|]. split; [reflexivity|].
  intros E. apply (f_equal (value_of (fun l => is_nan (nth 0 l 0%float)))) in E.
  vm_compute in E. discriminate E.
Qed.

(** C8 (amended): the degenerate solve of an all-zero grain is not absorbed.
    For every all-zero block long enough for at least one grain
    ([len(x) > max(igs, G)], with [G >= 1], [igs >= 2], a positive stride and
    order [P >= 1]), whenever the call returns, it returns a sequence of the
    same length whose first [G] samples are NaN, not 0; the call raises no
    error for the degenerate solve itself. *)
Theorem LPC_GS_pshift_zero_block_is_nan (L : nat) (f : float) (G P : Z)
    (overlap : float) (igs : Z) (win : list float) (stride : Z)
    (y : list float) :
  1 <= P -> 1 <= G ->
  to_int (add (mul (of_int G) f) half) = Ok igs -> 2 <= igs ->
  win_taper G overlap = Ok (win, stride) -> 0 < stride ->
  Z.max igs G < Z.of_nat L ->
  LPC_GS_pshift (repeat 0%float L) f G P overlap = Ok y ->
  length y = L /\ forall i, 0 <= i < G -> getitem y i = Ok nan.
Proof.
  intros HP HG Higs Higs2 Hwin Hstride HL E.
  assert (Ly : length y = L)
    by (rewrite (@length_LPC_GS_pshift _ _ _ _ _ _ _ _ E); apply repeat_length).
  split; [exact Ly|]. intros i Hi.
  rewrite (getitem_nth y 0%float) by (unfold len; lia). f_equal.
  assert (Lx : len (repeat 0%float L) = Z.of_nat L)
    by (unfold len; now rewrite repeat_length).
  unfold LPC_GS_pshift, np_zeros in E. rewrite !Lx in E.
  destruct (Z.ltb_spec (Z.of_nat L) 0); [lia|]. cbn [bind] in E.
  rewrite Higs in E. cbn [bind] in E. rewrite Hwin in E. cbn [bind] in E.
  destruct (@range_head (Z.of_nat L - Z.max igs G) stride)
    as (ns & Hns); [lia | lia|].
  rewrite Hns in E. cbn [bind foldM] in E. rewrite Nat2Z.id in E.
  apply bind_Ok in E. destruct E as (y1 & Hy1 & E).
  pose proof (@first_grain_zero_block _ _ _ _ _ _ _ HP HG Higs2 HL Hy1) as H1.
  apply length_grain in Hy1. rewrite repeat_length in Hy1.
  apply (@foldM_invariant _ _ _
           (fun y => length y = L
                     /\ forall i, (i < Z.to_nat G)%nat -> nth i y 0%float = nan))
    in E.
  - apply E. lia.
  - intros s n s' Hg [Ls Hs].
    destruct (@grain_islice _ _ _ _ _ _ _ _ _ Hg) as (ww & Hi').
    split; [rewrite (@length_islice _ _ _ _ _ _ _ Hi'); exact Ls|].
    intros j Hj.
    destruct (@islice_nth _ add _ _ _ n (n + G) 0%float Hi' j) as [Hin Hout];
      [lia|].
    destruct (between_dec
                (Z.to_nat (clip s n)) j
                (Z.to_nat (clip s n) + Z.to_nat (clip s (n + G) - clip s n)))
      as [Hr|Hr].
    + destruct (Hin Hr) as (u & _ & ->). rewrite Hs by assumption.
      apply float_nan_add_l.
    + rewrite (Hout Hr). now apply Hs.
  - split; assumption.
Qed.

Lemma LPC_GS_pshift_zero_block_is_nan_witness :
  length [nan; nan; nan; nan; nan; nan; 0; 0; 0; 0]%float = 10%nat /\
  forall i, 0 <= i < 4 ->
    getitem [nan; nan; nan; nan; nan; nan; 0; 0; 0; 0]%float i = Ok nan.
Proof.
  apply (@LPC_GS_pshift_zero_block_is_nan
           10 1.5%float 4 1 0.5%float 6 [0; 1; 1; 0]%float 2);
    try reflexivity; try lia.
Defined.

(** ** Further properties of the code *)

(** X1: whenever [LPC_GS_pshift] returns, the sequence it returns has the
    length of its input (any sample arithmetic). *)
Theorem LPC_GS_pshift_preserves_length {F : Type} `{Num F}
    (x : list F) (f : F) (G P : Z) (overlap : F) (y : list F) :
  LPC_GS_pshift x f G P overlap = Ok y -> len y = len x.
Proof.
  intros E. unfold len. f_equal. exact (length_LPC_GS_pshift _ _ _ _ _ E).
Qed.

Lemma LPC_GS_pshift_preserves_length_witness :
  len [1; 4; 6; 4; 0]%float = len [1; 2; 3; 4; 5]%float.
Proof.
  apply (@LPC_GS_pshift_preserves_length float NumFloat
           [1; 2; 3; 4; 5]%float 1%float 2 3 0%float).
  reflexivity.
Defined.

(** X2: every coefficient vector [lpc] returns starts with 1, so the
    whitening and resynthesis filters built from it are inverse to each
    other (any sample arithmetic for the first part). *)
Theorem lpc_leading_coefficient {F : Type} `{Num F} (x : list F) (p : Z)
    (a : list F) :
  lpc x p = Ok a -> getitem a 0 = Ok one.
Proof.
  unfold lpc, ld. intros E.
  repeat (apply bind_Ok in E; destruct E as (? & _ & E)).
  apply Ok_inj in E. subst a. apply getitem_head.
Qed.

Lemma lpc_leading_coefficient_witness :
  getitem [1; nan]%float 0 = Ok (one : float).
Proof.
  apply (@lpc_leading_coefficient float NumFloat [0; 0; 0]%float 1).
  reflexivity.
Defined.

(** X3: [bac] never raises for [p >= -1] and returns [p+1] lags, for every
    block (also empty, also shorter than [p]) and any sample arithmetic. *)
Theorem bac_returns_all_lags {F : Type} `{Num F} (x : list F) (p : Z) :
  -1 <= p -> exists r, bac x p = Ok r /\ len r = p + 1.
Proof.
  intros Hp. rewrite bac_closed_form by assumption.
  eexists. split; [reflexivity|].
  unfold len. rewrite length_map, length_irange. lia.
Qed.

Lemma bac_returns_all_lags_witness :
  exists r, bac [1; 2]%float 5 = Ok r /\ len r = 5 + 1.
Proof. apply (@bac_returns_all_lags float NumFloat). lia. Defined.

(** X4: [ld] returns normally whenever [r] holds the lags [0..p], [p >= 1],
    whatever the divisors are: [1] followed by [p] coefficients (any sample
    arithmetic). *)
Theorem ld_returns_order_plus_1 {F : Type} `{Num F} (r : list F) (p : Z) :
  1 <= p < len r ->
  exists c, ld r p = Ok (one :: c) /\ len c = p.
Proof.
  intros Hp. destruct (@ld_returns _ _ r p Hp) as (a & v & _ & La & E).
  exists (map neg (rev a)). split; [exact E|].
  unfold len in *. now rewrite length_map, length_rev.
Qed.

Lemma ld_returns_order_plus_1_witness :
  exists c, ld [0; 0; 0]%float 2 = Ok (one :: c) /\ len c = 2.
Proof.
  apply (@ld_returns_order_plus_1 float NumFloat).
  unfold len. simpl. lia.
Defined.

(** *** [lfilter] and the difference equation *)

Lemma taps_nil_r (cs : list Qc) : taps cs [] = Q2Qc 0.
Proof. now destruct cs. Qed.

Lemma delays_of_empty_history (bt at_ : list Qc) :
  length bt = length at_ ->
  delays_of bt at_ [] [] = repeat zero (length bt).
Proof.
  revert at_. induction bt as [|b bt IH]; intros [|a at_] L;
    try discriminate; [reflexivity|].
  cbn [delays_of length repeat]. rewrite IH by (simpl in L; lia).
  f_equal; rewrite ?taps_nil_r; qc_ops; ring.
Qed.

Lemma df2t_delays_history (xk yk : Qc) (hx hy : list Qc) :
  forall bt at_,
    length bt = length at_ ->
    df2t_delays (delays_of bt at_ hx hy) bt at_ xk yk
    = delays_of bt at_ (xk :: hx) (yk :: hy).
Proof.
  induction bt as [|b bt IH]; intros [|a at_] L; try discriminate;
    [reflexivity|].
  destruct bt as [|b' bt]; destruct at_ as [|a' at_]; try discriminate.
  - cbn [delays_of df2t_delays taps]. f_equal. qc_ops. ring.
  - specialize (IH (a' :: at_) ltac:(simpl in *; lia)).
    cbn [delays_of df2t_delays] in *. rewrite IH. f_equal.
    cbn [taps]. qc_ops. ring.
Qed.

Lemma df2t_direct_form (bn an : list Qc) :
  bn <> [] -> length (tl bn) = length (tl an) ->
  forall x hx hy,
    df2t bn an (delays_of (tl bn) (tl an) hx hy) x
    = direct_form bn an hx hy x.
Proof.
  intros Hb L. induction x as [|xk xs IH]; intros hx hy; [reflexivity|].
  destruct bn as [|b0 bt]; [contradiction|]. cbn [tl hd] in *.
  destruct bt as [|b1 bt].
  - destruct (tl an) as [|? ?] eqn:Ea; [|discriminate].
    cbn [delays_of df2t direct_form hd tl taps].
    rewrite <- (IH (xk :: hx)). rewrite Ea. cbn [tl delays_of taps].
    f_equal. qc_ops. ring.
  - destruct (tl an) as [|a1 at_] eqn:Ea; [discriminate|].
    cbn [df2t direct_form hd tl]. rewrite Ea.
    change (delays_of (b1 :: bt) (a1 :: at_) hx hy)
      with ((taps (b1 :: bt) hx - taps (a1 :: at_) hy)%Qc
            :: delays_of bt at_ hx hy) at 1.
    cbv iota.
    change ((taps (b1 :: bt) hx - taps (a1 :: at_) hy)%Qc
            :: delays_of bt at_ hx hy)
      with (delays_of (b1 :: bt) (a1 :: at_) hx hy).
    rewrite df2t_delays_history by assumption.
    set (yk := add (taps (b1 :: bt) hx - taps (a1 :: at_) hy)%Qc (mul b0 xk)).
    assert (Ey : yk = (b0 * xk + taps (b1 :: bt) hx - taps (a1 :: at_) hy)%Qc)
      by (unfold yk; qc_ops; ring).
    rewrite Ey. f_equal. apply IH.
Qed.

Lemma length_pad {F : Type} `{Num F} (n : nat) (c : list F) :
  (length c <= n)%nat -> length (pad n c) = n.
Proof. intros Hc. unfold pad. rewrite length_app, repeat_length. lia. Qed.

(** X5: with [a[0] = 1], whenever the call is not refused, the transposed
    structure that embeds [lfilter] computes the difference equation
    [y[n] = b[0]*x[n] + sum_{k>=1} (b[k]*x[n-k] - a[k]*y[n-k])] with zero
    initial state, [b] and [a] padded with zeros to a common length (exact
    arithmetic); the call is refused, with a ValueError, when [a] has a
    single coefficient and [b] or [x] is empty. *)
Theorem lfilter_difference_equation (b a x : list Qc) :
  getitem a 0 = Ok one ->
  let n := Nat.max (length a) (length b) in
  ((length a = 1%nat -> b <> [] /\ x <> []) ->
   lfilter b a x = Ok (direct_form (pad n b) (pad n a) [] [] x))
  /\ (length a = 1%nat -> b = [] \/ x = [] ->
      lfilter b a x = Raise ValueError).
Proof.
  intros Ha n. destruct a as [|a0 c]; [discriminate|].
  assert (a0 = one) as ->.
  { rewrite getitem_head in Ha. now apply Ok_inj in Ha. }
  split.
  - intros Hne.
    assert (E : lfilter b (one :: c) x
                = Ok (lfilter_structure b (one :: c) x one)).
    { destruct c as [|c0 c].
      - destruct (Hne eq_refl) as [Hb Hx]. now apply lfilter_fir.
      - apply lfilter_recursive; [discriminate|reflexivity]. }
    rewrite E. unfold lfilter_structure. fold n.
    change (fun c0 : Qc => div c0 one) with (fun c0 : Qc => (c0 / 1)%Qc).
    rewrite !div_one_Qc. f_equal.
    assert (Ln : (1 <= n)%nat) by (unfold n; cbn [length]; lia).
    assert (Lb : length (pad n b) = n) by (apply length_pad; unfold n; lia).
    assert (La : length (pad n (one :: c)) = n)
      by (apply length_pad; unfold n; lia).
    rewrite <- df2t_direct_form.
    + f_equal. rewrite delays_of_empty_history.
      * f_equal. destruct (pad n b); simpl in *; lia.
      * destruct (pad n b), (pad n (one :: c)); simpl in *; lia.
    + destruct (pad n b); [simpl in Lb; lia | discriminate].
    + destruct (pad n b), (pad n (one :: c)); simpl in *; lia.
  - intros L1 Hbx. destruct c; [|discriminate]. unfold lfilter.
    destruct Hbx as [->| ->]; [reflexivity|now destruct b].
Qed.

Lemma lfilter_difference_equation_witness :
  let n := Nat.max (length [Q2Qc 1; Q2Qc (1 # 2)]) (length [Q2Qc 2]) in
  lfilter [Q2Qc 2] [Q2Qc 1; Q2Qc (1 # 2)] [Q2Qc 1; Q2Qc 3; Q2Qc 5]
  = Ok (direct_form (pad n [Q2Qc 2]) (pad n [Q2Qc 1; Q2Qc (1 # 2)]) [] []
                    [Q2Qc 1; Q2Qc 3; Q2Qc 5])
  /\ lfilter [Q2Qc 2] [Q2Qc 1] [] = Raise ValueError.
Proof.
  split.
  - apply (proj1 (@lfilter_difference_equation
                    [Q2Qc 2] [Q2Qc 1; Q2Qc (1 # 2)] [Q2Qc 1; Q2Qc 3; Q2Qc 5]
                    eq_refl)).
    intros E. discriminate E.
  - apply (proj2 (@lfilter_difference_equation [Q2Qc 2] [Q2Qc 1] [] eq_refl));
      [reflexivity | now right].
Defined.

(** *** When the call returns *)

Lemma foldM_total {S V} (body : S -> V -> result S) (P : S -> Prop)
    (xs : list V) :
  (forall s v, In v xs -> P s -> exists s', body s v = Ok s' /\ P s') ->
  forall s, P s -> exists s', foldM body xs s = Ok s' /\ P s'.
Proof.
  induction xs as [|v xs IH]; intros Hb s Hs; [now exists s|].
  destruct (Hb s v (or_introl eq_refl) Hs) as (s1 & E1 & H1).
  destruct (IH (fun s v Hin => Hb s v (or_intror Hin)) s1 H1) as (s' & E & H').
  exists s'. cbn [foldM]. rewrite E1. now split.
Qed.

Lemma in_range_positive_step (start stop step n : Z) (ns : list Z) :
  0 < step -> range start stop step = Ok ns -> In n ns ->
  start <= n < stop.
Proof.
  intros Hstep E Hn. unfold range in E.
  destruct (Z.eqb_spec step 0); [lia|]. destruct (Z.ltb_spec 0 step); [|lia].
  apply Ok_inj in E. subst ns. apply in_map_iff in Hn.
  destruct Hn as (k & <- & Hk). apply in_seq in Hk.
  set (c := (stop - start + step - 1) / step) in *.
  assert (Hc : step * c <= stop - start + step - 1)
    by (apply Z.mul_div_le; lia).
  nia.
Qed.

Lemma getitem_cases {A} (x : list A) (n : Z) :
  (exists v, getitem x n = Ok v) \/ getitem x n = Raise IndexError.
Proof.
  unfold getitem. destruct (_ && _); [|now right].
  destruct (nth_error x _); [left; eauto | now right].
Qed.

(** [subsample] returns as soon as [int(t)] does: both index errors are
    caught. *)
Lemma subsample_returns {F : Type} `{Num F} (x : list F) (t : F) (n : Z) :
  to_int t = Ok n -> exists v, subsample x t = Ok v.
Proof.
  intros Ht. unfold subsample. rewrite Ht. cbn [bind].
  destruct (getitem_cases x n) as [[u ->]| ->]; cbn [bind try_IndexError];
    [|eauto].
  destruct (getitem_cases x (n + 1)) as [[w ->]| ->];
    cbn [bind try_IndexError]; eauto.
Qed.

(** [resample] returns [n_out] samples when [f] is not zero, [n_out] is not
    negative and every instant [n * f] has an integer part. *)
Lemma resample_returns {F : Type} `{Num F} (x : list F) (f : F) (n_out : Z) :
  is_zero f = false ->
  to_int (floor (div (of_int (len x)) f)) = Ok n_out -> 0 <= n_out ->
  (forall n, 0 <= n < n_out -> exists k, to_int (mul (of_int n) f) = Ok k) ->
  exists y, resample x f = Ok y /\ len y = n_out.
Proof.
  intros Hf Hn H0 Hint. unfold resample. rewrite Hf, Hn. cbn [bind].
  unfold np_zeros. destruct (Z.ltb_spec n_out 0); [lia|]. cbn [bind].
  apply (@foldM_total _ _ _ (fun y : list F => len y = n_out)).
  - intros y k Hk Ly. apply in_irange in Hk.
    destruct (Hint k Hk) as (kk & Hkk).
    destruct (subsample_returns x _ Hkk) as (v & ->).
    cbn [bind]. unfold setitem. destruct (Z.ltb_spec k 0); [lia|].
    destruct (Z.leb_spec 0 k); [|lia].
    destruct (Z.ltb_spec k (len y)); [|lia]. cbn [andb].
    eexists. split; [reflexivity|]. unfold len in *.
    now rewrite length_update.
  - unfold len. rewrite repeat_length. lia.
Qed.

Lemma lpc_returns {F : Type} `{Num F} (w : list F) (P : Z) :
  1 <= P -> exists c, lpc w P = Ok (one :: c).
Proof.
  intros HP. unfold lpc. rewrite bac_closed_form by lia. cbn [bind].
  destruct (@ld_returns _ _ (map (bac_entry w) (irange 0 (P + 1))) P)
    as (a & v & _ & _ & E).
  - unfold len. rewrite length_map, length_irange. lia.
  - eauto.
Qed.

(** The vector [lpc] returns has [P] coefficients after the leading 1. *)
Lemma lpc_returns_order {F : Type} `{Num F} (w : list F) (P : Z) :
  1 <= P -> exists c, lpc w P = Ok (one :: c) /\ length c = Z.to_nat P.
Proof.
  intros HP. unfold lpc. rewrite bac_closed_form by lia. cbn [bind].
  destruct (@ld_returns _ _ (map (bac_entry w) (irange 0 (P + 1))) P)
    as (a & v & _ & La & E).
  - unfold len. rewrite length_map, length_irange. lia.
  - eexists. split; [exact E|].
    rewrite length_map, length_rev. unfold len in La. lia.
Qed.

(** *** Whitening and resynthesis of a block *)




Lemma length_slice_inside {A} (x : list A) (n k : Z) :
  0 <= n -> 0 <= k -> n + k <= len x -> length (slice x n (n + k)) = Z.to_nat k.
Proof.
  intros Hn Hk Hx. unfold slice, clip.
  destruct (Z.ltb_spec n 0); [lia|]. destruct (Z.ltb_spec (n + k) 0); [lia|].
  rewrite length_firstn, length_skipn. unfold len in *. lia.
Qed.

Lemma islice_returns {A} (op : A -> A -> A) (y v : list A) (n G : Z) :
  0 <= n -> 0 <= G -> n + G <= len y -> len v = G ->
  exists y', islice op y n (n + G) v = Ok y'.
Proof.
  intros Hn HG Hy Hv. unfold islice.
  pose proof (length_slice_inside y Hn HG Hy) as L. unfold slice in L.
  rewrite L. replace (length v =? Z.to_nat G)%nat with true; [eauto|].
  symmetry. apply Nat.eqb_eq. unfold len in Hv. lia.
Qed.

Lemma nonempty_of_length {A} (l : list A) (k : Z) :
  1 <= k -> length l = Z.to_nat k -> l <> [].
Proof. intros Hk L E. subst l. simpl in L. lia. Qed.

(** The two filters of a grain return, keeping the length of their input:
    the whitening call on a non-empty grain, the synthesis call when [1] is
    not the zero of the arithmetic. *)
Lemma whitening_returns {F : Type} `{Num F} (c w : list F) :
  w <> [] ->
  exists e, lfilter (one :: c) [one] w = Ok e /\ length e = length w.
Proof.
  intros Hw. rewrite lfilter_fir by (discriminate || exact Hw).
  eexists. split; [reflexivity|]. apply length_lfilter_structure. discriminate.
Qed.

Lemma synthesis_returns {F : Type} `{Num F} (c e : list F) :
  is_zero (one : F) = false -> c <> [] ->
  exists w, lfilter [one] (one :: c) e = Ok w /\ length w = length e.
Proof.
  intros Hz Hc. rewrite lfilter_recursive by assumption.
  eexists. split; [reflexivity|]. apply length_lfilter_structure. discriminate.
Qed.

Lemma grain_returns {F : Type} `{Num F} (x : list F) (f : F) (G P igs : Z)
    (win y : list F) (n : Z) :
  1 <= P -> is_zero (one : F) = false -> is_zero f = false ->
  1 <= igs -> 0 <= G ->
  to_int (floor (div (of_int igs) f)) = Ok G ->
  (forall k, 0 <= k < G -> exists t, to_int (mul (of_int k) f) = Ok t) ->
  len win = G ->
  0 <= n -> n + igs <= len x -> n + G <= len y ->
  exists y', grain x f G P igs win y n = Ok y'.
Proof.
  intros HP H1 Hf Higs HG Hn Hint Hwin H0 Hx Hy. unfold grain.
  pose proof (@length_slice_inside _ x n igs H0 ltac:(lia) Hx) as Lw.
  set (w := slice x n (n + igs)) in *.
  destruct (lpc_returns_order w HP) as (c & -> & Lc). cbn [bind].
  destruct (@whitening_returns _ _ c w) as (e & -> & Le);
    [now apply (@nonempty_of_length _ w igs)|].
  cbn [bind].
  destruct (@resample_returns _ _ e f G Hf) as (e' & -> & Le');
    [|lia|exact Hint|].
  { replace (len e) with igs; [exact Hn|]. unfold len. lia. }
  cbn [bind].
  destruct (@synthesis_returns _ _ c e' H1) as (w' & -> & Lw');
    [now apply (@nonempty_of_length _ c P)|].
  cbn [bind]. unfold broadcast.
  replace (length w' =? length win)%nat with true
    by (symmetry; apply Nat.eqb_eq; unfold len in *; lia).
  cbn [bind]. apply islice_returns; try lia.
  unfold len in *. rewrite length_map, length_combine. lia.
Qed.

(** X6: in the arithmetic the code runs, [LPC_GS_pshift] returns, with the
    length of [x], whenever [resample] keeps exactly [G] samples of an
    [igs]-sample grain, [int(floor(igs / f)) = G] as the program computes
    it, which is the condition the rounding of [igs] can miss. The
    hypotheses are those of a proper call: [P >= 1], [f] not zero,
    [igs = int(G*f + 0.5) >= 1], a positive stride, a window of [G] samples,
    and an integer part for each of the instants [n * f], [n < G] (none
    overflows). Any sample arithmetic in which 1 is not zero, binary64
    included. *)
Theorem LPC_GS_pshift_returns_when_grain_fits {F : Type} `{Num F}
    (x : list F) (f overlap : F) (G P igs : Z) (win : list F) (stride : Z) :
  1 <= P -> is_zero (one : F) = false -> is_zero f = false ->
  to_int (add (mul (of_int G) f) half) = Ok igs -> 1 <= igs ->
  win_taper G overlap = Ok (win, stride) -> 0 < stride -> len win = G ->
  to_int (floor (div (of_int igs) f)) = Ok G ->
  (forall k, 0 <= k < G -> exists t, to_int (mul (of_int k) f) = Ok t) ->
  exists y, LPC_GS_pshift x f G P overlap = Ok y /\ len y = len x.
Proof.
  intros HP H1 Hf Higs Higs0 Hwin Hstride Lwin Hfit Hint.
  assert (HG : 0 <= G) by (rewrite <- Lwin; apply len_nonneg).
  unfold LPC_GS_pshift, np_zeros. pose proof (len_nonneg x).
  destruct (Z.ltb_spec (len x) 0); [lia|]. cbn [bind].
  rewrite Higs. cbn [bind]. rewrite Hwin. cbn [bind].
  destruct (range 0 (len x - Z.max igs G) stride) as [ns|e] eqn:Hns.
  2:{ unfold range in Hns. destruct (Z.eqb_spec stride 0); [lia|discriminate]. }
  cbn [bind].
  apply (@foldM_total _ _ _ (fun y : list F => len y = len x)).
  - intros y n Hn Ly.
    pose proof (@in_range_positive_step _ _ _ _ _ Hstride Hns Hn) as Rn.
    destruct (@grain_returns _ _ x f G P igs win y n) as (y' & E);
      try assumption; try lia.
    exists y'. split; [exact E|].
    apply length_grain in E. unfold len in *. lia.
  - unfold len. rewrite repeat_length. lia.
Qed.

Lemma LPC_GS_pshift_returns_when_grain_fits_witness :
  exists y,
    LPC_GS_pshift [1; 2; 3; 4; 5; 6; 7; 8; 9; 10]%float 1.5%float 4 1
                  0.5%float = Ok y
    /\ len y = len [1; 2; 3; 4; 5; 6; 7; 8; 9; 10]%float.
Proof.
  apply (@LPC_GS_pshift_returns_when_grain_fits float NumFloat
           _ 1.5%float 0.5%float 4 1 6 [0; 1; 1; 0]%float 2);
    try reflexivity; try lia.
  intros k Hk.
  assert (K : k = 0 \/ k = 1 \/ k = 2 \/ k = 3) by lia.
  destruct K as [->|[->|[->| ->]]]; eexists; reflexivity.
Defined.

(** * The other transformers of the notebook, and the FIR notebook

    [resample] on its own, [gs_map], [double_len], [double_len2] and
    [GS_pshift] of 17_Voice_Transformers; [FIR_loop] and [cconv] of
    11_FIR-Filter-Implementation. *)

(** ** Integer-valued rationals *)

Lemma to_int_of_int_Qc (z : Z) : to_int (of_int z : Qc) = Ok z.
Proof.
  cbn [to_int of_int NumQc]. f_equal. cbn [Q2Qc this].
  rewrite Qred_identity by (simpl; apply Z.gcd_1_r).
  simpl. apply Z.quot_1_r.
Qed.

Lemma of_int_Qc_add (a b : Z) :
  (of_int (a + b) : Qc) = (of_int a + of_int b)%Qc.
Proof.
  cbn [of_int NumQc]. apply Qc_is_canon. unfold Qcplus, Q2Qc.
  cbn [this]. rewrite !Qred_correct. rewrite inject_Z_plus. reflexivity.
Qed.

Lemma of_int_Qc_mul (a b : Z) :
  (of_int (a * b) : Qc) = (of_int a * of_int b)%Qc.
Proof.
  cbn [of_int NumQc]. apply Qc_is_canon. unfold Qcmult, Q2Qc.
  cbn [this]. rewrite !Qred_correct. rewrite inject_Z_mult. reflexivity.
Qed.

Lemma Qfloor_unique (q : Q) (z : Z) :
  (inject_Z z <= q)%Q -> (q < inject_Z (z + 1))%Q -> Qfloor q = z.
Proof.
  intros H1 H2.
  pose proof (Qfloor_le q) as F1. pose proof (Qlt_floor q) as F2.
  assert (A : (inject_Z z < inject_Z (Qfloor q + 1))%Q)
    by (eapply Qle_lt_trans; eassumption).
  assert (B : (inject_Z (Qfloor q) < inject_Z (z + 1))%Q)
    by (eapply Qle_lt_trans; eassumption).
  rewrite <- Zlt_Qlt in A, B. lia.
Qed.

(** [floor(n / k)] of two integers is the integer quotient. *)
Lemma Qfloor_quotient_Qc (n k : Z) :
  0 < k -> Qfloor (div (of_int n) (of_int k) : Qc) = n / k.
Proof.
  intros Hk. cbn [div of_int NumQc]. apply Qfloor_unique.
  - unfold Qcdiv, Qcmult, Qcinv, Q2Qc. cbn [this].
    rewrite !Qred_correct.
    destruct k as [|k|k]; try lia.
    unfold Qle, Qmult, Qinv, inject_Z. simpl.
    pose proof (Z.mul_div_le n (Z.pos k) ltac:(lia)). lia.
  - unfold Qcdiv, Qcmult, Qcinv, Q2Qc. cbn [this].
    rewrite !Qred_correct.
    destruct k as [|k|k]; try lia.
    unfold Qlt, Qmult, Qinv, inject_Z. simpl.
    pose proof (Z.mul_succ_div_gt n (Z.pos k) ltac:(lia)). lia.
Qed.

Lemma floor_quotient_Qc (n k : Z) :
  0 < k -> floor (div (of_int n) (of_int k)) = (of_int (n / k) : Qc).
Proof.
  intros Hk. cbn [floor NumQc]. now rewrite Qfloor_quotient_Qc.
Qed.

(** ** Loops that fill an array *)

(** [for n in range(0, m): y[n] = g(n)] on an array of [m] cells. *)
Lemma fill_loop {A} (g : Z -> result A) (g' : Z -> A) (d : A) (m : nat) :
  (forall n, 0 <= n < Z.of_nat m -> g n = Ok (g' n)) ->
  foldM (fun y n => v <- g n ;; setitem y n v) (irange 0 (Z.of_nat m))
        (repeat d m)
  = Ok (map g' (irange 0 (Z.of_nat m))).
Proof.
  intros Hg.
  assert (K : forall j, (j <= m)%nat ->
            foldM (fun y n => v <- g n ;; setitem y n v)
                  (irange 0 (Z.of_nat j)) (repeat d m)
            = Ok (map g' (irange 0 (Z.of_nat j)) ++ repeat d (m - j))).
  { induction j as [|j IH]; intros Hj.
    - cbn. now rewrite Nat.sub_0_r.
    - rewrite Nat2Z.inj_succ. unfold Z.succ.
      rewrite irange_snoc by lia. rewrite foldM_app, IH by lia.
      cbn [bind foldM]. rewrite Hg by lia. cbn [bind].
      replace (m - j)%nat with (S (m - S j)) by lia. cbn [repeat].
      replace (Z.of_nat j) with (len (map g' (irange 0 (Z.of_nat j)))) at 2
        by (unfold len; rewrite length_map, length_irange; lia).
      rewrite setitem_app_here. rewrite map_app. cbn [map].
      now rewrite <- app_assoc. }
  rewrite K by lia. now rewrite Nat.sub_diag, app_nil_r.
Qed.

(** ** [resample] at an integer ratio *)

Lemma is_zero_Qc_false (f : Qc) : f <> Q2Qc 0 -> is_zero f = false.
Proof.
  intros Hf. cbn [is_zero NumQc]. apply not_true_is_false. intros E.
  apply Qc_eq_bool_correct in E. contradiction.
Qed.

(** At an integer instant the interpolation weight of the next sample is 0. *)
Lemma subsample_integer_time (x : list Qc) (n : Z) :
  0 <= n < len x ->
  subsample x (of_int n) = Ok (nth (Z.to_nat n) x (Q2Qc 0)).
Proof.
  intros Hn. unfold subsample. rewrite to_int_of_int_Qc. cbn [bind].
  rewrite (getitem_nth x (Q2Qc 0)) by lia. cbn [bind].
  destruct (getitem_cases x (n + 1)) as [[w ->]| ->];
    cbn [bind try_IndexError]; f_equal; qc_ops; ring.
Qed.

Lemma resample_decimates (x : list Qc) (k : Z) :
  1 <= k ->
  resample x (of_int k)
  = Ok (map (fun n => nth (Z.to_nat (n * k)) x (Q2Qc 0))
            (irange 0 (len x / k))).
Proof.
  intros Hk. unfold resample.
  rewrite is_zero_Qc_false by (apply of_int_Qc_nonzero; lia).
  rewrite floor_quotient_Qc by lia. rewrite to_int_of_int_Qc. cbn [bind].
  pose proof (len_nonneg x) as Lx.
  assert (Hq : 0 <= len x / k) by (apply Z.div_pos; lia).
  unfold np_zeros. destruct (Z.ltb_spec (len x / k) 0); [lia|]. cbn [bind].
  rewrite <- (Z2Nat.id (len x / k)) at 1 3 by lia.
  apply fill_loop. intros n Hn. rewrite Z2Nat.id in Hn by lia.
  rewrite <- of_int_Qc_mul. rewrite subsample_integer_time; [reflexivity|].
  pose proof (Z.mul_div_le (len x) k ltac:(lia)). nia.
Qed.

Lemma resample_unit_ratio (x : list Qc) : resample x one = Ok x.
Proof.
  change (@one Qc _) with (of_int 1 : Qc).
  rewrite resample_decimates by lia. f_equal.
  rewrite Z.div_1_r. apply nth_ext with (d := Q2Qc 0) (d' := Q2Qc 0).
  - rewrite length_map, length_irange. unfold len. lia.
  - intros i Hi. rewrite length_map, length_irange in Hi.
    rewrite nth_map_irange by lia. f_equal. lia.
Qed.

(** X7: at an integer ratio [k >= 1], [resample] keeps every [k]-th sample:
    it returns the [len(x) // k] samples [x[0], x[k], x[2k], ...], so at
    ratio 1 it returns [x] itself (exact arithmetic). *)
Theorem resample_integer_ratio_decimates (x : list Qc) (k : Z) :
  1 <= k ->
  resample x (of_int k)
  = Ok (map (fun n => nth (Z.to_nat (n * k)) x (Q2Qc 0))
            (irange 0 (len x / k)))
  /\ resample x one = Ok x.
Proof.
  intros Hk. split; [now apply resample_decimates | apply resample_unit_ratio].
Qed.

Lemma resample_integer_ratio_decimates_witness :
  let x := [Q2Qc 1; Q2Qc 2; Q2Qc 3; Q2Qc 4; Q2Qc 5] in
  resample x (of_int 2)
  = Ok (map (fun n => nth (Z.to_nat (n * 2)) x (Q2Qc 0))
            (irange 0 (len x / 2)))
  /\ resample x one = Ok x.
Proof.
  apply (@resample_integer_ratio_decimates
           [Q2Qc 1; Q2Qc 2; Q2Qc 3; Q2Qc 4; Q2Qc 5] 2). lia.
Defined.

(** X8: a negative ratio is refused: for a non-empty [x] and [f < 0],
    [floor(len(x) / f)] is negative and [np.zeros] raises a ValueError
    (exact arithmetic). *)
Theorem resample_negative_ratio_is_refused (x : list Qc) (f : Qc) :
  (f < Q2Qc 0)%Qc -> x <> [] -> resample x f = Raise ValueError.
Proof.
  intros Hf Hx. unfold resample.
  rewrite is_zero_Qc_false.
  2:{ intros E. rewrite E in Hf. now apply Qclt_not_eq in Hf. }
  cbn [floor NumQc].
  change (Q2Qc (inject_Z (Qfloor (div (of_int (len x)) f))))
    with (of_int (Qfloor (div (of_int (len x)) f)) : Qc).
  rewrite to_int_of_int_Qc. cbn [bind]. unfold np_zeros.
  destruct (Z.ltb_spec (Qfloor (div (of_int (len x)) f)) 0) as [|Hq];
    [reflexivity|exfalso].
  pose proof (Qfloor_le (div (of_int (len x)) f)) as Fl.
  assert (Hneg : (div (of_int (len x)) f < Q2Qc 0)%Qc).
  { cbn [div NumQc]. unfold Qcdiv.
    assert (Hl : (Q2Qc 0 < of_int (len x))%Qc).
    { cbn [of_int NumQc]. unfold Qclt, Q2Qc. cbn [this].
      rewrite !Qred_correct. unfold Qlt. simpl.
      destruct x; [contradiction|]. unfold len. cbn [length]. lia. }
    assert (Hi : (/ f < Q2Qc 0)%Qc).
    { unfold Qclt in *. cbn [this Qcinv Q2Qc] in *. rewrite Qred_correct in *.
      destruct f as [[fn fd] Hc]. cbn [this] in *. unfold Qlt, Qinv in *.
      simpl in *. destruct fn; simpl in *; lia. }
    unfold Qclt in *. cbn [this Qcmult Q2Qc] in *. rewrite !Qred_correct in *.
    set (a := this (of_int (len x))) in *. set (b := this (/ f)) in *.
    clearbody a b. clear - Hl Hi.
    setoid_replace 0%Q with (a * 0)%Q by ring.
    apply Qmult_lt_l; assumption. }
  unfold Qclt in Hneg. cbn [this Q2Qc] in Hneg. rewrite Qred_correct in Hneg.
  assert (C : (inject_Z (Qfloor (div (of_int (len x)) f)) < inject_Z 0)%Q)
    by (eapply Qle_lt_trans; eassumption).
  rewrite <- Zlt_Qlt in C. lia.
Qed.

Lemma resample_negative_ratio_is_refused_witness :
  resample [Q2Qc 1; Q2Qc 2] (Q2Qc (-1)) = Raise ValueError.
Proof.
  apply resample_negative_ratio_is_refused; [reflexivity | discriminate].
Defined.

(** ** [gs_map] *)

(** X9: for a grain size [G > 0], [gs_map] sends every index [m] to the
    start of its grain plus [f] times its offset in the grain,
    [(m // G) * G + (m mod G) * f]; so the start of every grain is a fixed
    point, whatever [f] is, and at [f = 1] the map is the identity (exact
    arithmetic). *)
Theorem gs_map_is_piecewise_linear (n : list Z) (f : Qc) (G : Z) :
  0 < G ->
  gs_map n f G
  = map (fun m => (of_int (m / G * G) + of_int (m mod G) * f)%Qc) n
  /\ (forall k, gs_map [k * G] f G = [of_int (k * G)])
  /\ gs_map n (one : Qc) G = map of_int n.
Proof.
  intros HG.
  assert (K : forall (n : list Z) (f : Qc),
            gs_map n f G
            = map (fun m => (of_int (m / G * G) + of_int (m mod G) * f)%Qc) n).
  { clear n f. intros n f. unfold gs_map. apply map_ext. intros m.
    rewrite floor_quotient_Qc by lia. cbn [add mul sub NumQc].
    rewrite <- of_int_Qc_mul, <- of_int_Qc_sub.
    do 3 f_equal. rewrite Z.mod_eq by lia. lia. }
  split; [apply K|]. split.
  - intros k. rewrite K. cbn [map]. f_equal.
    rewrite Z.div_mul, Z.mod_mul by lia.
    change (of_int 0 : Qc) with (Q2Qc 0). ring.
  - rewrite K. apply map_ext. intros m. rewrite one_Qc, Qcmult_1_r.
    rewrite <- of_int_Qc_add. f_equal.
    rewrite (Z.div_mod m G) at 3 by lia. lia.
Qed.

Lemma gs_map_is_piecewise_linear_witness :
  let n := [0; 1; 5; 8; 11; 12] in
  gs_map n (Q2Qc (3 # 2)) 4
  = map (fun m => (of_int (m / 4 * 4) + of_int (m mod 4) * Q2Qc (3 # 2))%Qc) n
  /\ (forall k, gs_map [k * 4] (Q2Qc (3 # 2)) 4 = [of_int (k * 4)])
  /\ gs_map n (one : Qc) 4 = map of_int n.
Proof.
  apply (@gs_map_is_piecewise_linear [0; 1; 5; 8; 11; 12] (Q2Qc (3 # 2)) 4).
  lia.
Defined.

(** ** [FIR_loop] *)

Lemma nth_update {A} (x : list A) (i j : nat) (v d : A) :
  (i < length x)%nat ->
  nth j (update x i v) d = if (j =? i)%nat then v else nth j x d.
Proof.
  revert i j. induction x as [|a x IH]; intros i j Hi; [simpl in Hi; lia|].
  destruct i as [|i], j as [|j]; cbn [update nth Nat.eqb]; try reflexivity.
  apply IH. simpl in Hi. lia.
Qed.

Lemma foldM_pure {S V} (body : S -> V -> result S) (g : S -> V -> S)
    (xs : list V) :
  (forall s v, In v xs -> body s v = Ok (g s v)) ->
  forall s, foldM body xs s = Ok (fold_left g xs s).
Proof.
  induction xs as [|v xs IH]; intros Hb s; [reflexivity|].
  cbn [foldM fold_left]. rewrite Hb by now left. cbn [bind].
  apply IH. intros s' v' Hv. apply Hb. now right.
Qed.

Lemma mod_shift_distinct (ix k M : Z) :
  0 <= ix < M -> 0 < k < M -> (ix - k) mod M <> ix.
Proof.
  intros Hi Hk E.
  pose proof (Z.div_mod (ix - k) M ltac:(lia)) as D. rewrite E in D.
  set (q := (ix - k) / M) in *.
  assert (Hq : M * q = - k) by lia.
  destruct (Z_le_gt_dec 0 q); nia.
Qed.

Lemma FIR_loop_filter_step (h hist : list Qc) (s : FIR_loop Qc) (x : Qc) :
  FIR_loop_holds h hist s ->
  exists s',
    FIR_loop_filter s x
    = Ok (s', bigsum (length h)
                (fun k => (nth k h (Q2Qc 0) * nth k (x :: hist) (Q2Qc 0))%Qc))
    /\ FIR_loop_holds h (x :: hist) s'.
Proof.
  destruct s as [h' ix M buf]. unfold FIR_loop_holds. cbn [fir_h fir_ix fir_M fir_buf].
  intros (-> & -> & Lb & Hix & Hbuf).
  set (M := len h) in *.
  set (buf' := update buf (Z.to_nat ix) x).
  assert (Lb' : len buf' = M)
    by (unfold buf', len; rewrite length_update; exact Lb).
  assert (Hnew : forall j, 0 <= j < M ->
            nth (Z.to_nat ((ix - j) mod M)) buf' (Q2Qc 0)
            = nth (Z.to_nat j) (x :: hist) (Q2Qc 0)).
  { intros j Hj. unfold buf'. rewrite nth_update by (unfold len in Lb; lia).
    destruct (Z.eq_dec j 0) as [->|Hj0].
    - rewrite Z.sub_0_r, Z.mod_small by lia. now rewrite Nat.eqb_refl.
    - pose proof (@mod_shift_distinct ix j M ltac:(lia) ltac:(lia)) as Hd.
      pose proof (Z.mod_pos_bound (ix - j) M ltac:(lia)) as Hb.
      destruct (Nat.eqb_spec (Z.to_nat ((ix - j) mod M)) (Z.to_nat ix)); [lia|].
      replace (ix - j) with (ix - 1 - (j - 1)) by lia.
      rewrite Hbuf by lia.
      replace (Z.to_nat j) with (S (Z.to_nat (j - 1))) by lia. reflexivity. }
  unfold FIR_loop_filter. cbn [fir_h fir_ix fir_M fir_buf].
  unfold setitem. destruct (Z.ltb_spec ix 0); [lia|].
  destruct (Z.leb_spec 0 ix); [|lia].
  destruct (Z.ltb_spec ix (len buf)); [|lia]. cbn [andb bind]. fold buf'.
  rewrite (@foldM_pure _ _ _
             (fun (y : Qc) n =>
                (y + nth (Z.to_nat n) h (Q2Qc 0)
                     * nth (Z.to_nat ((ix - n) mod M)) buf' (Q2Qc 0))%Qc)).
  2:{ intros y n Hn. apply in_irange in Hn. unfold FIR_loop_tap.
      cbn [fir_h fir_ix fir_M fir_buf].
      rewrite (getitem_nth h (Q2Qc 0)) by (fold M; lia). cbn [bind].
      unfold py_mod. destruct (Z.eqb_spec M 0); [lia|]. cbn [bind].
      replace (ix + M - n) with (ix - n + 1 * M) by lia.
      rewrite Z_mod_plus_full.
      pose proof (Z.mod_pos_bound (ix - n) M ltac:(lia)).
      rewrite (getitem_nth buf' (Q2Qc 0)) by lia. reflexivity. }
  cbn [bind]. unfold py_mod. destruct (Z.eqb_spec M 0); [lia|]. cbn [bind].
  eexists. split.
  - do 2 f_equal. change (irange 0 M) with (irange 0 (Z.of_nat (length h))).
    rewrite zero_Qc.
    rewrite (fold_left_irange_bigsum
               (fun n0 => (nth (Z.to_nat n0) h (Q2Qc 0)
                           * nth (Z.to_nat ((ix - n0) mod M)) buf' (Q2Qc 0))%Qc)).
    apply bigsum_ext. intros k Hk.
    rewrite Hnew by (unfold M, len; lia). now rewrite Nat2Z.id.
  - cbn [fir_h fir_ix fir_M fir_buf]. repeat split; try assumption.
    + apply Z.mod_pos_bound. lia.
    + apply Z.mod_pos_bound. lia.
    + intros j Hj.
      replace ((ix + 1) mod M - 1 - j) with ((ix + 1) mod M - (1 + j)) by lia.
      rewrite Zminus_mod_idemp_l.
      replace (ix + 1 - (1 + j)) with (ix - j) by lia. now apply Hnew.
Qed.

Lemma FIR_loop_init_holds (h : list Qc) :
  h <> [] -> exists s, FIR_loop_init h = Ok s /\ FIR_loop_holds h [] s.
Proof.
  intros Hh. unfold FIR_loop_init, np_zeros. pose proof (len_nonneg h).
  destruct (Z.ltb_spec (len h) 0); [lia|]. cbn [bind].
  eexists. split; [reflexivity|]. unfold FIR_loop_holds.
  cbn [fir_h fir_ix fir_M fir_buf].
  assert (0 < len h) by (destruct h; [contradiction|unfold len; simpl; lia]).
  repeat split; try lia.
  - unfold len. rewrite repeat_length. unfold len. lia.
  - intros j Hj. rewrite nth_repeat. now destruct (Z.to_nat j).
Qed.

Lemma FIR_loop_run_history (h : list Qc) (xs : list Qc) :
  forall hist s,
    FIR_loop_holds h hist s ->
    exists s' ys,
      FIR_loop_run s xs = Ok (s', ys) /\ length ys = length xs /\
      forall n, (n < length xs)%nat ->
        nth n ys (Q2Qc 0)
        = bigsum (length h)
            (fun k => (nth k h (Q2Qc 0)
                       * nth k (rev (firstn (S n) xs) ++ hist) (Q2Qc 0))%Qc).
Proof.
  induction xs as [|x xs IH]; intros hist s Hs.
  - exists s, []. repeat split. intros n Hn. simpl in Hn. lia.
  - destruct (@FIR_loop_filter_step h hist s x Hs) as (s1 & E1 & H1).
    destruct (IH (x :: hist) s1 H1) as (s2 & ys & E2 & L2 & V2).
    cbn [FIR_loop_run]. rewrite E1. cbn [bind]. rewrite E2. cbn [bind].
    eexists _, _. split; [reflexivity|]. split; [cbn [length]; lia|].
    intros [|n] Hn.
    + reflexivity.
    + cbn [nth]. rewrite V2 by (cbn [length] in Hn; lia).
      apply bigsum_ext. intros k Hk. f_equal.
      change (firstn (S (S n)) (x :: xs)) with (x :: firstn (S n) xs).
      cbn [rev]. now rewrite <- app_assoc.
Qed.

Lemma nth_reversed_prefix (xs : list Qc) (n k : nat) :
  (n < length xs)%nat ->
  nth k (rev (firstn (S n) xs) ++ []) (Q2Qc 0)
  = if (k <=? n)%nat then nth (n - k) xs (Q2Qc 0) else Q2Qc 0.
Proof.
  intros Hn. rewrite app_nil_r.
  assert (L : length (firstn (S n) xs) = S n) by (rewrite length_firstn; lia).
  destruct (Nat.leb_spec k n) as [Hk|Hk].
  - rewrite rev_nth by lia. rewrite L, nth_firstn.
    replace (S n - S k)%nat with (n - k)%nat by lia.
    destruct (Nat.ltb_spec (n - k) (S n)); [reflexivity|lia].
  - apply nth_overflow. rewrite length_rev. lia.
Qed.

Lemma FIR_loop_run_convolution (h xs : list Qc) :
  h <> [] ->
  exists s0 s,
    FIR_loop_init h = Ok s0 /\
    FIR_loop_run s0 xs
    = Ok (s, map (convolution_spec h xs) (seq 0 (length xs))).
Proof.
  intros Hh. destruct (FIR_loop_init_holds Hh) as (s0 & E0 & H0).
  destruct (@FIR_loop_run_history h xs [] s0 H0) as (s & ys & E & L & V).
  exists s0, s. split; [exact E0|]. rewrite E. do 2 f_equal.
  apply nth_ext with (d := Q2Qc 0) (d' := Q2Qc 0).
  - now rewrite length_map, length_seq.
  - intros n Hn. rewrite V by lia.
    rewrite (nth_indep _ _ (convolution_spec h xs 0%nat))
      by (rewrite length_map, length_seq; lia).
    rewrite map_nth, seq_nth by lia. cbn [Nat.add].
    unfold convolution_spec. apply bigsum_ext. intros k Hk.
    rewrite nth_reversed_prefix by lia.
    destruct (k <=? n)%nat; [reflexivity|]. apply Qcmult_0_r.
Qed.

(** X10: an object built from a non-empty impulse response [h] never raises,
    and the outputs of successive calls of [filter] on [xs[0], xs[1], ...]
    are the convolution sums [y[n] = sum_{k < len(h), k <= n} h[k] * xs[n-k]]
    (zero initial state, exact arithmetic). *)
Theorem FIR_loop_computes_convolution (h xs : list Qc) :
  h <> [] ->
  exists s0 s,
    FIR_loop_init h = Ok s0 /\
    FIR_loop_run s0 xs
    = Ok (s, map (convolution_spec h xs) (seq 0 (length xs))).
Proof. apply FIR_loop_run_convolution. Qed.

Lemma FIR_loop_computes_convolution_witness :
  let h := [Q2Qc (1 # 2); Q2Qc (1 # 2)] in
  let xs := [Q2Qc 1; Q2Qc 2; Q2Qc 3] in
  exists s0 s,
    FIR_loop_init h = Ok s0 /\
    FIR_loop_run s0 xs
    = Ok (s, map (convolution_spec h xs) (seq 0 (length xs))).
Proof.
  apply (@FIR_loop_computes_convolution
           [Q2Qc (1 # 2); Q2Qc (1 # 2)] [Q2Qc 1; Q2Qc 2; Q2Qc 3]).
  discriminate.
Defined.

(** X11: [filter] raises an IndexError exactly when the object was built
    from an empty impulse response: the write [buf[ix] = x] then falls
    outside the empty buffer (exact arithmetic for the non-empty case). *)
Theorem FIR_loop_raises_iff_empty (h : list Qc) (x : Qc) :
  exists s, FIR_loop_init h = Ok s /\
            (FIR_loop_filter s x = Raise IndexError <-> h = []).
Proof.
  destruct h as [|h0 h'].
  - eexists. split; [reflexivity|]. split; reflexivity.
  - destruct (@FIR_loop_init_holds (h0 :: h')) as (s & E & Hs); [discriminate|].
    exists s. split; [exact E|].
    destruct (@FIR_loop_filter_step (h0 :: h') [] s x Hs) as (s' & E' & _).
    rewrite E'. split; discriminate.
Qed.

(** ** Convolutions *)

Lemma bigsum_zero (n : nat) (f : nat -> Qc) :
  (forall k, (k < n)%nat -> f k = Q2Qc 0) -> bigsum n f = Q2Qc 0.
Proof.
  induction n as [|n IH]; intros Hf; [reflexivity|].
  cbn [bigsum]. rewrite IH, Hf by (intros; try apply Hf; lia). ring.
Qed.

Lemma bigsum_zero_tail (n m : nat) (f : nat -> Qc) :
  (n <= m)%nat -> (forall k, (n <= k < m)%nat -> f k = Q2Qc 0) ->
  bigsum m f = bigsum n f.
Proof.
  intros Hnm. induction m as [|m IH]; intros Hf.
  - now replace n with O by lia.
  - destruct (Nat.eq_dec n (S m)) as [->|Hne]; [reflexivity|].
    cbn [bigsum]. rewrite IH, Hf by (intros; try apply Hf; lia). ring.
Qed.

Lemma bigsum_window (lo cnt n : nat) (f : nat -> Qc) :
  (lo + cnt <= n)%nat ->
  (forall k, (k < lo)%nat -> f k = Q2Qc 0) ->
  (forall k, (lo + cnt <= k < n)%nat -> f k = Q2Qc 0) ->
  bigsum n f = bigsum cnt (fun j => f (lo + j)%nat).
Proof.
  intros Hn Hlo Hhi. rewrite (@bigsum_zero_tail (lo + cnt) n f Hn Hhi).
  clear Hn Hhi. induction cnt as [|c IH].
  - rewrite Nat.add_0_r. now apply bigsum_zero.
  - rewrite Nat.add_succ_r. cbn [bigsum]. now rewrite IH.
Qed.

Lemma bigsum_same_support (n m : nat) (f g : nat -> Qc) :
  (forall k, (k < n)%nat -> (k < m)%nat -> f k = g k) ->
  (forall k, (m <= k < n)%nat -> f k = Q2Qc 0) ->
  (forall k, (n <= k < m)%nat -> g k = Q2Qc 0) ->
  bigsum n f = bigsum m g.
Proof.
  intros Hfg Hf Hg. destruct (Nat.le_ge_cases n m) as [Hnm|Hnm].
  - rewrite (@bigsum_zero_tail n m g Hnm Hg).
    apply bigsum_ext. intros k Hk. apply Hfg; lia.
  - rewrite (@bigsum_zero_tail m n f Hnm Hf).
    apply bigsum_ext. intros k Hk. apply Hfg; lia.
Qed.

Lemma fold_left_map_seq_bigsum (g : Z -> Qc) (p : nat -> Z) (n : nat) :
  fold_left (fun acc k => (acc + g k)%Qc) (map p (seq 0 n)) (Q2Qc 0)
  = bigsum n (fun j => g (p j)).
Proof.
  induction n as [|n IH]; [reflexivity|].
  rewrite seq_S, map_app, fold_left_app, IH. reflexivity.
Qed.

(** Entry [n] of the full convolution is the convolution sum. *)
Lemma convolve_at_sum (a v : list Qc) (n : nat) :
  (n < length a + length v - 1)%nat ->
  convolve_at a v (Z.of_nat n) = convolution_spec v a n.
Proof.
  intros Hn. unfold convolve_at, convolution_spec, irange. rewrite zero_Qc.
  set (lo := Z.max 0 (Z.of_nat n - len v + 1)).
  set (hi := Z.min (Z.of_nat n + 1) (len a)).
  rewrite (fold_left_map_seq_bigsum
             (fun m => (nth (Z.to_nat m) a (Q2Qc 0)
                        * nth (Z.to_nat (Z.of_nat n - m)) v (Q2Qc 0))%Qc)).
  set (G := fun m : nat => (nth m a (Q2Qc 0) * nth (n - m) v (Q2Qc 0))%Qc).
  transitivity (bigsum (S n) G).
  - rewrite (@bigsum_window (Z.to_nat lo) (Z.to_nat (hi - lo)) (S n) G).
    + apply bigsum_ext. intros j Hj. unfold G. f_equal; f_equal; unfold len in *; lia.
    + unfold lo, hi, len. lia.
    + intros k Hk. unfold G. rewrite (nth_overflow v); [ring|].
      unfold lo, len in Hk. lia.
    + intros k Hk. unfold G. rewrite (nth_overflow a); [ring|].
      unfold lo, hi, len in Hk. lia.
  - rewrite (bigsum_rev (S n) G). apply bigsum_same_support.
    + intros k Hk1 Hk2. unfold G. destruct (Nat.leb_spec k n); [|lia].
      replace (S n - 1 - k)%nat with (n - k)%nat by lia.
      replace (n - (n - k))%nat with k by lia. ring.
    + intros k Hk. unfold G. rewrite (nth_overflow v); [ring|]. lia.
    + intros k Hk. destruct (Nat.leb_spec k n); [lia|reflexivity].
Qed.

Lemma np_convolve_closed_form (a v : list Qc) :
  a <> [] -> v <> [] ->
  np_convolve a v
  = Ok (map (convolution_spec v a) (seq 0 (length a + length v - 1))).
Proof.
  intros Ha Hv. unfold np_convolve.
  destruct a as [|a0 a']; [contradiction|]. destruct v as [|v0 v']; [contradiction|].
  f_equal. unfold irange. rewrite map_map.
  replace (Z.to_nat (len (a0 :: a') + len (v0 :: v') - 1 - 0))
    with (length (a0 :: a') + length (v0 :: v') - 1)%nat by (unfold len; lia).
  apply map_ext_in. intros n Hn. apply in_seq in Hn.
  rewrite Z.add_0_l. apply convolve_at_sum. lia.
Qed.

Lemma nth_map_seq {B} (g : nat -> B) (T i : nat) (d : B) :
  (i < T)%nat -> nth i (map g (seq 0 T)) d = g i.
Proof.
  intros Hi. rewrite (nth_indep _ d (g O)) by (rewrite length_map, length_seq; lia).
  rewrite map_nth, seq_nth by lia. reflexivity.
Qed.

Lemma slice_map_seq {B} (g : nat -> B) (T a b : nat) (d : B) :
  (a <= b <= T)%nat ->
  slice (map g (seq 0 T)) (Z.of_nat a) (Z.of_nat b)
  = map (fun n => g (a + n)%nat) (seq 0 (b - a)).
Proof.
  intros Hab. unfold slice, clip, len. rewrite length_map, length_seq.
  destruct (Z.ltb_spec (Z.of_nat a) 0); [lia|].
  destruct (Z.ltb_spec (Z.of_nat b) 0); [lia|].
  rewrite !Z.min_l by lia. rewrite <- Nat2Z.inj_sub by lia. rewrite !Nat2Z.id.
  apply nth_ext with (d := d) (d' := d).
  - rewrite length_firstn, length_skipn, !length_map, !length_seq. lia.
  - intros i Hi.
    rewrite length_firstn, length_skipn, length_map, length_seq in Hi.
    rewrite nth_firstn, nth_skipn.
    destruct (Nat.ltb_spec i (b - a)); [|lia].
    rewrite !nth_map_seq by lia. reflexivity.
Qed.

(** Taking the second period of the convolution with two periods of [x]
    wraps the indices around. *)
Lemma convolution_second_period (h x : list Qc) (n : nat) :
  (n < length x)%nat -> (length h <= length x + 1)%nat ->
  convolution_spec h (x ++ x) (length x + n)
  = circular_convolution_spec h x (Z.of_nat n).
Proof.
  intros Hn Hh. unfold convolution_spec, circular_convolution_spec, len.
  apply bigsum_ext. intros k Hk.
  destruct (Nat.leb_spec k (length x + n)); [|lia]. f_equal.
  destruct (Nat.le_gt_cases k n) as [Hkn|Hkn].
  - rewrite app_nth2 by lia. rewrite Z.mod_small by lia. f_equal. lia.
  - rewrite app_nth1 by lia.
    replace (Z.of_nat n - Z.of_nat k)
      with (Z.of_nat (length x + n - k) + (-1) * Z.of_nat (length x)) by lia.
    rewrite Z_mod_plus_full, Z.mod_small by lia. now rewrite Nat2Z.id.
Qed.

Lemma cconv_closed_form (x h : list Qc) :
  x <> [] -> h <> [] -> len h <= len x + 1 ->
  cconv x h = Ok (map (circular_convolution_spec h x) (irange 0 (len x))).
Proof.
  intros Hx Hh Hlen. unfold cconv.
  rewrite np_convolve_closed_form; [|destruct x; [contradiction|discriminate]|exact Hh].
  cbn [bind]. f_equal.
  assert (0 < length h)%nat by (destruct h; [contradiction|simpl; lia]).
  unfold len in *. replace (2 * Z.of_nat (length x)) with (Z.of_nat (2 * length x)) by lia.
  rewrite (@slice_map_seq _ _ _ _ _ (Q2Qc 0)) by (rewrite length_app; lia).
  unfold irange. rewrite map_map.
  replace (Z.to_nat (Z.of_nat (length x) - 0)) with (length x) by lia.
  replace (2 * length x - length x)%nat with (length x) by lia.
  apply map_ext_in. intros n Hn. apply in_seq in Hn. rewrite Z.add_0_l.
  apply convolution_second_period; lia.
Qed.

Lemma nth_app_zeros (x : list Qc) (m j : nat) :
  nth j (x ++ repeat (Q2Qc 0) m) (Q2Qc 0) = nth j x (Q2Qc 0).
Proof.
  destruct (Nat.lt_ge_cases j (length x)).
  - now rewrite app_nth1.
  - rewrite app_nth2, nth_repeat, nth_overflow by lia. reflexivity.
Qed.

Lemma cconv_zero_padded (x h : list Qc) :
  x <> [] -> h <> [] ->
  cconv (x ++ repeat zero (length h - 1)) h = np_convolve x h.
Proof.
  intros Hx Hh.
  assert (0 < length h)%nat by (destruct h; [contradiction|simpl; lia]).
  assert (0 < length x)%nat by (destruct x; [contradiction|simpl; lia]).
  rewrite cconv_closed_form;
    [|destruct x; [contradiction|discriminate]|exact Hh
     |unfold len; rewrite length_app, repeat_length; lia].
  rewrite np_convolve_closed_form by assumption. f_equal.
  unfold irange. rewrite map_map. unfold len.
  rewrite length_app, repeat_length.
  replace (Z.to_nat (Z.of_nat (length x + (length h - 1)) - 0))
    with (length x + length h - 1)%nat by lia.
  apply map_ext_in. intros n Hn. apply in_seq in Hn. rewrite Z.add_0_l.
  unfold circular_convolution_spec, convolution_spec, len.
  rewrite length_app, repeat_length. rewrite zero_Qc.
  apply bigsum_ext. intros k Hk.
  destruct (Nat.leb_spec k n) as [Hkn|Hkn].
  - rewrite Z.mod_small by lia. rewrite nth_app_zeros. do 2 f_equal. lia.
  - replace (Z.of_nat n - Z.of_nat k)
      with (Z.of_nat (length x + (length h - 1) + n - k)
            + (-1) * Z.of_nat (length x + (length h - 1))) by lia.
    rewrite Z_mod_plus_full, Z.mod_small by lia.
    rewrite nth_app_zeros, (nth_overflow x) by lia. ring.
Qed.

(** X12: the online filter agrees with the offline one: for non-empty [h]
    and [xs], the outputs of [FIR_loop(h)] on the samples of [xs] are the
    first [len(xs)] samples of the full convolution [np.convolve(xs, h)]
    (exact arithmetic). *)
Theorem FIR_loop_is_truncated_convolve (h xs : list Qc) :
  h <> [] -> xs <> [] ->
  exists s0 s full,
    FIR_loop_init h = Ok s0 /\ np_convolve xs h = Ok full /\
    FIR_loop_run s0 xs = Ok (s, firstn (length xs) full).
Proof.
  intros Hh Hx. destruct (@FIR_loop_run_convolution h xs Hh) as (s0 & s & E0 & E).
  exists s0, s. eexists. split; [exact E0|].
  split; [now apply np_convolve_closed_form|]. rewrite E. do 2 f_equal.
  assert (0 < length h)%nat by (destruct h; [contradiction|simpl; lia]).
  apply nth_ext with (d := Q2Qc 0) (d' := Q2Qc 0).
  - rewrite length_firstn, !length_map, !length_seq. lia.
  - intros n Hn. rewrite length_map, length_seq in Hn.
    rewrite nth_firstn. destruct (Nat.ltb_spec n (length xs)); [|lia].
    rewrite !nth_map_seq by lia. reflexivity.
Qed.

Lemma FIR_loop_is_truncated_convolve_witness :
  exists s0 s full,
    FIR_loop_init [Q2Qc (1 # 2); Q2Qc (1 # 2)] = Ok s0 /\
    np_convolve [Q2Qc 1; Q2Qc 2; Q2Qc 3] [Q2Qc (1 # 2); Q2Qc (1 # 2)] = Ok full /\
    FIR_loop_run s0 [Q2Qc 1; Q2Qc 2; Q2Qc 3]
    = Ok (s, firstn (length [Q2Qc 1; Q2Qc 2; Q2Qc 3]) full).
Proof.
  apply FIR_loop_is_truncated_convolve; discriminate.
Defined.

(** X13: for non-empty [x] and [h] with [len(h) <= len(x) + 1], [cconv]
    returns the [len(x)] samples of the circular convolution,
    [y[n] = sum_{k < len(h)} h[k] * x[(n-k) mod len(x)]] (exact
    arithmetic). *)
Theorem cconv_is_circular_convolution (x h : list Qc) :
  x <> [] -> h <> [] -> len h <= len x + 1 ->
  cconv x h = Ok (map (circular_convolution_spec h x) (irange 0 (len x))).
Proof. apply cconv_closed_form. Qed.

Lemma cconv_is_circular_convolution_witness :
  let x := [Q2Qc 1; Q2Qc 2; Q2Qc 3; Q2Qc 4; Q2Qc 5] in
  let h := [Q2Qc 1; Q2Qc 1] in
  cconv x h = Ok (map (circular_convolution_spec h x) (irange 0 (len x))).
Proof.
  apply (@cconv_is_circular_convolution
           [Q2Qc 1; Q2Qc 2; Q2Qc 3; Q2Qc 4; Q2Qc 5] [Q2Qc 1; Q2Qc 1]);
    [discriminate | discriminate | unfold len; simpl; lia].
Defined.

(** X14: circular convolution of the zero-padded input is the linear
    convolution: for non-empty [x] and [h],
    [cconv(np.concatenate((x, np.zeros(len(h)-1))), h)] equals
    [np.convolve(x, h)] (exact arithmetic). *)
Theorem cconv_of_zero_padded_is_convolve (x h : list Qc) :
  x <> [] -> h <> [] ->
  exists pad_, np_zeros (len h - 1) = Ok pad_ /\
               cconv (x ++ pad_) h = np_convolve x h.
Proof.
  intros Hx Hh. unfold np_zeros.
  assert (0 < len h) by (destruct h; [contradiction|unfold len; simpl; lia]).
  destruct (Z.ltb_spec (len h - 1) 0); [lia|].
  eexists. split; [reflexivity|].
  replace (Z.to_nat (len h - 1)) with (length h - 1)%nat by (unfold len; lia).
  now apply cconv_zero_padded.
Qed.

Lemma cconv_of_zero_padded_is_convolve_witness :
  exists pad_, np_zeros (len [Q2Qc 1; Q2Qc 1] - 1) = Ok pad_ /\
               cconv ([Q2Qc 1; Q2Qc 2; Q2Qc 3] ++ pad_) [Q2Qc 1; Q2Qc 1]
               = np_convolve [Q2Qc 1; Q2Qc 2; Q2Qc 3] [Q2Qc 1; Q2Qc 1].
Proof.
  apply cconv_of_zero_padded_is_convolve; discriminate.
Defined.

(** ** Slices written inside the array *)

Lemma islice_inside {A} (op : A -> A -> A) (y v : list A) (n G : Z) (d : A) :
  0 <= n -> 0 <= G -> n + G <= len y -> len v = G ->
  exists y',
    islice op y n (n + G) v = Ok y' /\ length y' = length y /\
    forall i, (i < length y)%nat ->
      nth i y' d
      = if (n <=? Z.of_nat i) && (Z.of_nat i <? n + G)
        then op (nth i y d) (nth (i - Z.to_nat n) v d)
        else nth i y d.
Proof.
  intros Hn HG Hy Hv. unfold islice, clip.
  destruct (Z.ltb_spec n 0); [lia|]. destruct (Z.ltb_spec (n + G) 0); [lia|].
  rewrite !Z.min_l by lia. replace (n + G - n) with G by lia.
  set (s := Z.to_nat n). set (m := Z.to_nat G).
  set (target := firstn m (skipn s y)).
  assert (Hs : (s + m <= length y)%nat) by (unfold len in *; lia).
  assert (Lt : length target = m)
    by (unfold target; rewrite length_firstn, length_skipn; lia).
  assert (Lv : length v = m) by (unfold len in *; lia).
  destruct (Nat.eqb_spec (length v) (length target)) as [E|E]; [|lia].
  eexists. split; [reflexivity|].
  assert (Lf : length (firstn s y) = s) by (rewrite length_firstn; lia).
  split.
  - rewrite !length_app, length_map, length_combine, length_skipn. lia.
  - intros i Hi.
    destruct (Z.leb_spec n (Z.of_nat i)) as [H1|H1]; cbn [andb].
    + destruct (Z.ltb_spec (Z.of_nat i) (n + G)) as [H2|H2].
      * rewrite app_nth2 by lia. rewrite Lf. rewrite app_nth1
          by (rewrite length_map, length_combine; lia).
        rewrite (nth_indep _ d ((fun p : A * A => op (fst p) (snd p)) (d, d)))
          by (rewrite length_map, length_combine; lia).
        rewrite (map_nth (fun p : A * A => op (fst p) (snd p))).
        rewrite combine_nth by lia. cbn [fst snd]. f_equal.
        unfold target. rewrite nth_firstn.
        destruct (Nat.ltb_spec (i - s) m); [|lia]. rewrite nth_skipn.
        f_equal. lia.
      * rewrite app_nth2 by lia. rewrite Lf. rewrite app_nth2
          by (rewrite length_map, length_combine; lia).
        rewrite length_map, length_combine, nth_skipn. f_equal. lia.
    + rewrite app_nth1 by lia. rewrite nth_firstn.
      now destruct (Nat.ltb_spec i s); [|lia].
Qed.

Lemma nth_slice_inside {A} (x : list A) (n k : Z) (j : nat) (d : A) :
  0 <= n -> 0 <= k -> n + k <= len x -> (j < Z.to_nat k)%nat ->
  nth j (slice x n (n + k)) d = nth (Z.to_nat n + j) x d.
Proof.
  intros Hn Hk Hx Hj. unfold slice, clip.
  destruct (Z.ltb_spec n 0); [lia|]. destruct (Z.ltb_spec (n + k) 0); [lia|].
  rewrite !Z.min_l by lia. replace (n + k - n) with k by lia.
  rewrite nth_firstn. destruct (Nat.ltb_spec j (Z.to_nat k)); [|lia].
  apply nth_skipn.
Qed.

(** A loop over [g 0, g 1, ...] with an invariant indexed by the number of
    passes done. *)
Lemma foldM_indexed {S V} (body : S -> V -> result S) (g : nat -> V)
    (P : nat -> S -> Prop) (c : nat) :
  (forall k s, (k < c)%nat -> P k s ->
     exists s', body s (g k) = Ok s' /\ P (Datatypes.S k) s') ->
  forall s, P O s ->
    exists s', foldM body (map g (seq 0 c)) s = Ok s' /\ P c s'.
Proof.
  induction c as [|c IH]; intros Hb s Hs; [now exists s|].
  destruct (IH (fun k s Hk => Hb k s (Nat.lt_lt_succ_r _ _ Hk)) s Hs)
    as (s1 & E1 & H1).
  destruct (Hb c s1 (Nat.lt_succ_diag_r c) H1) as (s2 & E2 & H2).
  exists s2. split; [|exact H2].
  rewrite seq_S, map_app, foldM_app, E1. cbn [bind map foldM Nat.add].
  now rewrite E2.
Qed.

Lemma range_from_0 (stop step : Z) :
  0 < step ->
  range 0 stop step
  = Ok (map (fun k => Z.of_nat k * step)
            (seq 0 (Z.to_nat ((stop + step - 1) / step)))).
Proof.
  intros Hs. unfold range. destruct (Z.eqb_spec step 0); [lia|].
  destruct (Z.ltb_spec 0 step); [|lia]. rewrite Z.sub_0_r. reflexivity.
Qed.

(** The passes of a loop over [range(0, stop, step)] start below [stop]. *)
Lemma range_count_bound (stop step : Z) (k : nat) :
  0 < step -> (k < Z.to_nat ((stop + step - 1) / step))%nat ->
  Z.of_nat k * step < stop.
Proof.
  intros Hs Hk.
  pose proof (Z.mul_div_le (stop + step - 1) step Hs). nia.
Qed.

Lemma broadcast_same_length {A} (op : A -> A -> A) (u v : list A) (d : A) :
  length u = length v ->
  exists w, broadcast op u v = Ok w /\ length w = length u /\
            forall j, (j < length u)%nat -> nth j w d = op (nth j u d) (nth j v d).
Proof.
  intros L. unfold broadcast. rewrite L, Nat.eqb_refl.
  eexists. split; [reflexivity|]. split.
  - rewrite length_map, length_combine. lia.
  - intros j Hj.
    rewrite (nth_indep _ d ((fun p : A * A => op (fst p) (snd p)) (d, d)))
      by (rewrite length_map, length_combine; lia).
    rewrite (map_nth (fun p : A * A => op (fst p) (snd p))).
    rewrite combine_nth by lia. reflexivity.
Qed.

(** ** [double_len] *)

Lemma double_len_body_blocks {F : Type} `{Num F} (x y : list F) (G : Z)
    (k : nat) :
  1 <= G -> Z.of_nat k * G + G <= len x -> len y = 2 * len x ->
  exists y',
    double_len_body x G y (Z.of_nat k * G) = Ok y' /\ len y' = 2 * len x /\
    forall i, 0 <= i < 2 * len x ->
      nth (Z.to_nat i) y' zero
      = if (2 * G * Z.of_nat k <=? i) && (i <? 2 * G * Z.of_nat (S k))
        then nth (Z.to_nat (i / (2 * G) * G + i mod G)) x zero
        else nth (Z.to_nat i) y zero.
Proof.
  intros HG Hx Ly. unfold double_len_body, setslice.
  set (n := Z.of_nat k * G) in *.
  assert (Hn : 0 <= n) by (unfold n; nia).
  set (w := slice x n (n + G)).
  assert (Lw : len w = G).
  { unfold len, w. rewrite length_slice_inside by lia. lia. }
  destruct (@islice_inside _ (fun _ new : F => new) y w (2 * n) G zero)
    as (y1 & E1 & L1 & V1); try lia.
  rewrite E1. cbn [bind].
  replace (2 * n + 2 * G) with (2 * n + G + G) by lia.
  destruct (@islice_inside _ (fun _ new : F => new) y1 w (2 * n + G) G zero)
    as (y2 & E2 & L2 & V2); try (unfold len in *; lia).
  rewrite E2. exists y2. split; [reflexivity|].
  split; [unfold len in *; lia|].
  intros i Hi. rewrite V2 by (unfold len in *; lia).
  rewrite Z2Nat.id by lia.
  destruct (Z.leb_spec (2 * n + G) i) as [A1|A1]; cbn [andb].
  - destruct (Z.ltb_spec i (2 * n + G + G)) as [A2|A2].
    + destruct (Z.leb_spec (2 * G * Z.of_nat k) i); [|unfold n in *; lia].
      destruct (Z.ltb_spec i (2 * G * Z.of_nat (S k))); [|unfold n in *; lia].
      cbn [andb]. unfold w. rewrite nth_slice_inside by lia. f_equal.
      replace (i / (2 * G)) with (Z.of_nat k)
        by (apply Z.div_unique with (r := i - 2 * n); unfold n in *; lia).
      replace (i mod G) with (i - 2 * n - G)
        by (apply Z.mod_unique with (q := 2 * Z.of_nat k + 1); unfold n in *; lia).
      unfold n. lia.
    + rewrite V1 by (unfold len in *; lia). rewrite Z2Nat.id by lia.
      destruct (Z.leb_spec (2 * n) i); [|lia].
      destruct (Z.ltb_spec i (2 * n + G)); [lia|]. cbn [andb].
      destruct (Z.ltb_spec i (2 * G * Z.of_nat (S k))); [unfold n in *; lia|].
      now rewrite andb_false_r.
  - rewrite V1 by (unfold len in *; lia). rewrite Z2Nat.id by lia.
    destruct (Z.leb_spec (2 * n) i) as [A2|A2]; cbn [andb].
    + destruct (Z.ltb_spec i (2 * n + G)); [|lia].
      destruct (Z.leb_spec (2 * G * Z.of_nat k) i); [|unfold n in *; lia].
      destruct (Z.ltb_spec i (2 * G * Z.of_nat (S k))); [|unfold n in *; lia].
      cbn [andb]. unfold w. rewrite nth_slice_inside by lia. f_equal.
      replace (i / (2 * G)) with (Z.of_nat k)
        by (apply Z.div_unique with (r := i - 2 * n); unfold n in *; lia).
      replace (i mod G) with (i - 2 * n)
        by (apply Z.mod_unique with (q := 2 * Z.of_nat k); unfold n in *; lia).
      unfold n. lia.
    + destruct (Z.leb_spec (2 * G * Z.of_nat k) i); [unfold n in *; lia|].
      reflexivity.
Qed.

(** X15: for [G >= 1], [double_len] never raises and returns [2 * len(x)]
    samples: block [m] of [G] input samples, for every [m] with
    [m*G < len(x) - G], appears twice in a row at [y[2*m*G : 2*(m+1)*G]],
    and everything past the last such block is 0; the loop bound leaves out
    the last block also when [G] divides [len(x)] (any sample
    arithmetic). *)
Theorem double_len_repeats_each_block {F : Type} `{Num F} (x : list F)
    (G : Z) :
  1 <= G ->
  exists y,
    double_len x G = Ok y /\ len y = 2 * len x /\
    forall i, 0 <= i < 2 * len x -> getitem y i = Ok (doubled x G i).
Proof.
  intros HG. unfold double_len, np_zeros. pose proof (len_nonneg x) as Lx.
  destruct (Z.ltb_spec (2 * len x) 0); [lia|]. cbn [bind].
  rewrite range_from_0 by lia. cbn [bind].
  replace (len x - G + G - 1) with (len x - 1) by lia.
  set (c := Z.to_nat ((len x - 1) / G)).
  destruct (@foldM_indexed _ _ (double_len_body x G)
              (fun k => Z.of_nat k * G)
              (fun k y => len y = 2 * len x /\
                 forall i, 0 <= i < 2 * len x ->
                   nth (Z.to_nat i) y zero
                   = if i <? 2 * G * Z.of_nat k
                     then nth (Z.to_nat (i / (2 * G) * G + i mod G)) x zero
                     else zero) c) with (s := repeat zero (Z.to_nat (2 * len x)))
    as (y & E & Ly & Vy).
  - intros k y Hk (Ly & Vy).
    assert (Hb : Z.of_nat k * G < len x - G).
    { apply range_count_bound; [lia|].
      replace (len x - G + G - 1) with (len x - 1) by lia. exact Hk. }
    destruct (@double_len_body_blocks _ _ x y G k) as (y' & E' & L' & V'); try lia.
    exists y'. split; [exact E'|]. split; [exact L'|].
    intros i Hi. rewrite V' by lia.
    destruct (Z.leb_spec (2 * G * Z.of_nat k) i) as [A1|A1]; cbn [andb].
    + destruct (Z.ltb_spec i (2 * G * Z.of_nat (S k))) as [A2|A2];
        [reflexivity|].
      rewrite Vy by lia. destruct (Z.ltb_spec i (2 * G * Z.of_nat k)); [lia|].
      reflexivity.
    + rewrite Vy by lia. destruct (Z.ltb_spec i (2 * G * Z.of_nat k)); [|lia].
      destruct (Z.ltb_spec i (2 * G * Z.of_nat (S k))); [reflexivity|lia].
  - split; [unfold len; rewrite repeat_length; lia|].
    intros i Hi. rewrite nth_repeat.
    destruct (Z.ltb_spec i (2 * G * Z.of_nat 0)); [lia|reflexivity].
  - exists y. split; [exact E|]. split; [exact Ly|].
    intros i Hi. rewrite (getitem_nth y zero) by lia. f_equal.
    rewrite Vy by lia. unfold doubled.
    replace (Z.of_nat c) with (Z.max 0 ((len x - 1) / G)) by (unfold c; lia).
    reflexivity.
Qed.

Lemma double_len_repeats_each_block_witness :
  let x := [1; 2; 3; 4; 5; 6; 7; 8; 9]%float in
  exists y,
    double_len x 3 = Ok y /\ len y = 2 * len x /\
    forall i, 0 <= i < 2 * len x -> getitem y i = Ok (doubled x 3 i).
Proof.
  apply (@double_len_repeats_each_block float NumFloat
           [1; 2; 3; 4; 5; 6; 7; 8; 9]%float 3).
  lia.
Defined.

(** ** [double_len2] *)

(** The ramp of the 40% taper has [G / 5] samples. *)
Lemma double_len2_ramp_Qc (G : Z) :
  0 <= G ->
  to_int (div (mul (of_int G) (div (of_int 2) (of_int 5))) (of_int 2) : Qc)
  = Ok (G / 5).
Proof.
  intros HG.
  assert (E : (div (mul (of_int G) (div (of_int 2) (of_int 5))) (of_int 2) : Qc)
              = div (of_int G) (of_int 5)).
  { cbn [div mul NumQc].
    pose proof (@of_int_Qc_nonzero 2 ltac:(lia)).
    pose proof (@of_int_Qc_nonzero 5 ltac:(lia)).
    field. split; assumption. }
  rewrite E.
  pose proof (@Qfloor_quotient_Qc G 5 ltac:(lia)) as Hq.
  rewrite to_int_Qc_nonneg; [now rewrite Hq|].
  cbn [div of_int NumQc]. unfold Qcle, Qcdiv, Qcmult, Qcinv, Q2Qc. cbn [this].
  rewrite !Qred_correct. unfold Qle, Qmult, Qinv, inject_Z. simpl. lia.
Qed.

Lemma double_len2_copy_returns (x win y : list Qc) (G stride n ix k : Z) :
  0 <= n -> 0 <= G -> n + G <= len x -> len win = G ->
  0 <= ix -> ix + G <= len y ->
  exists y', double_len2_copy x G win stride n (y, ix) k = Ok (y', ix + stride)
             /\ len y' = len y.
Proof.
  intros Hn HG Hx Lw Hix Hy. unfold double_len2_copy.
  pose proof (length_slice_inside x Hn HG Hx) as Ls.
  destruct (@broadcast_same_length _ mul (slice x n (n + G)) win (Q2Qc 0))
    as (ww & -> & Lww & _); [unfold len in *; lia|]. cbn [bind].
  destruct (@islice_returns _ add y ww ix G) as (y' & E);
    try (unfold len in *; lia).
  rewrite E. cbn [bind]. exists y'. split; [reflexivity|].
  apply length_islice in E. unfold len. lia.
Qed.

(** X16: for [G >= 1], [double_len2] never raises and returns
    [2 * len(x)] samples: the 40% taper has a window of [G] samples, and
    every windowed copy is added inside the output (exact arithmetic). *)
Theorem double_len2_returns_twice_the_length (x : list Qc) (G : Z) :
  1 <= G -> exists y, double_len2 x G = Ok y /\ len y = 2 * len x.
Proof.
  intros HG. unfold double_len2, np_zeros. pose proof (len_nonneg x) as Lx.
  destruct (Z.ltb_spec (2 * len x) 0); [lia|]. cbn [bind].
  pose proof (Z.mul_div_le G 5 ltac:(lia)) as Hr.
  assert (Hr0 : 0 <= G / 5) by (apply Z.div_pos; lia).
  destruct (@win_taper_shape G (G / 5) (div (of_int 2) (of_int 5)))
    as (win & -> & Lw & _); [apply double_len2_ramp_Qc; lia|lia|lia|].
  cbn [bind]. rewrite range_from_0 by lia. cbn [bind].
  set (stride := G - G / 5 - 1).
  assert (Hs : 0 <= stride < G) by (unfold stride; lia).
  set (c := Z.to_nat ((len x - G + G - 1) / G)).
  destruct (@foldM_indexed _ _
              (fun s n => foldM (double_len2_copy x G win stride n) [0; 1] s)
              (fun k => Z.of_nat k * G)
              (fun k (s : list Qc * Z) =>
                 len (fst s) = 2 * len x /\
                 snd s = 2 * Z.of_nat k * stride) c)
    with (s := (repeat (@zero Qc _) (Z.to_nat (2 * len x)), 0))
    as (s & -> & Ls & _).
  - intros k [y ix] Hk. cbn [fst snd]. intros (Ly & Hix).
    assert (Hb : Z.of_nat k * G < len x - G)
      by (apply range_count_bound; [lia|exact Hk]).
    destruct (@double_len2_copy_returns x win y G stride (Z.of_nat k * G) ix 0)
      as (y1 & E1 & L1); try nia.
    destruct (@double_len2_copy_returns x win y1 G stride (Z.of_nat k * G)
                (ix + stride) 1) as (y2 & E2 & L2); try nia.
    cbn [foldM]. rewrite E1. cbn [bind]. rewrite E2. cbn [bind].
    eexists. split; [reflexivity|]. cbn [fst snd]. split; lia.
  - cbn [fst snd]. split; [|lia]. unfold len. rewrite repeat_length. lia.
  - cbn [bind]. eauto.
Qed.

Lemma double_len2_returns_twice_the_length_witness :
  let x := map (fun k => Q2Qc (inject_Z k)) (irange 1 12) in
  exists y, double_len2 x 5 = Ok y /\ len y = 2 * len x.
Proof.
  apply (@double_len2_returns_twice_the_length
           (map (fun k => Q2Qc (inject_Z k)) (irange 1 12)) 5).
  lia.
Defined.

(** ** [GS_pshift] *)

Section GranularLoop.

Context {F : Type} `{Num F}.

Lemma gs_grain_islice (x : list F) (f : F) (G igs : Z) (win y y' : list F)
    (n : Z) :
  gs_grain x f G igs win y n = Ok y' ->
  exists ww, islice add y n (n + G) ww = Ok y'.
Proof.
  unfold gs_grain. intros E.
  repeat (apply bind_Ok in E; destruct E as (? & _ & E)). eauto.
Qed.

Lemma grain_writes_slice (x : list F) (f : F) (G P igs : Z)
    (win y y' : list F) (n : Z) :
  grain x f G P igs win y n = Ok y' ->
  exists ww, islice add y n (n + G) ww = Ok y'.
Proof.
  unfold grain. intros E.
  repeat (apply bind_Ok in E; destruct E as (? & _ & E)). eauto.
Qed.

Lemma length_GS_pshift (x : list F) (f : F) (G : Z) (overlap : F)
    (y : list F) :
  GS_pshift x f G overlap = Ok y -> length y = length x.
Proof.
  unfold GS_pshift, np_zeros. pose proof (len_nonneg x).
  destruct (Z.ltb_spec (len x) 0); [lia|]. cbn [bind]. intros E.
  apply bind_Ok in E. destruct E as (igs & _ & E).
  apply bind_Ok in E. destruct E as ([win stride] & _ & E).
  apply bind_Ok in E. destruct E as (ns & _ & E).
  apply (@foldM_invariant _ _ _ (fun y => length y = length x)) in E;
    [assumption| |].
  - intros s v s' Hg Hs. apply gs_grain_islice in Hg. destruct Hg as (ww & Hg).
    apply length_islice in Hg. congruence.
  - unfold len. now rewrite repeat_length, Nat2Z.id.
Qed.

(** A loop whose passes only add into [y[n:n+G]], with every [n + G] at
    most [bound], leaves the samples from [bound] on as they were. *)
Lemma overlap_add_keeps_tail (body : list F -> Z -> result (list F))
    (G bound : Z) (ns : list Z) :
  (forall y n y', body y n = Ok y' ->
     exists ww, islice add y n (n + G) ww = Ok y') ->
  0 <= G -> (forall n, In n ns -> 0 <= n /\ n + G <= bound) ->
  forall y y', foldM body ns y = Ok y' ->
    length y' = length y /\
    forall i, bound <= Z.of_nat i -> nth i y' zero = nth i y zero.
Proof.
  intros Hb HG. induction ns as [|n ns IH]; intros Hns y y' E.
  - apply Ok_inj in E. now subst.
  - cbn [foldM] in E. apply bind_Ok in E. destruct E as (y1 & E1 & E).
    destruct (Hns n (or_introl eq_refl)) as [Hn0 Hn1].
    destruct (Hb _ _ _ E1) as (ww & Ew).
    pose proof (length_islice _ _ _ _ _ Ew) as L1.
    destruct (IH (fun m Hm => Hns m (or_intror Hm)) y1 y' E) as [L V].
    split; [congruence|]. intros i Hi. rewrite V by assumption.
    destruct (Nat.lt_ge_cases i (length y)) as [Hl|Hl].
    + apply (islice_nth _ _ _ _ _ zero Ew Hl).
      unfold clip. destruct (Z.ltb_spec n 0); [lia|].
      destruct (Z.ltb_spec (n + G) 0); [lia|]. unfold len. lia.
    + rewrite !nth_overflow by lia. reflexivity.
Qed.

End GranularLoop.

(** X17: whenever [GS_pshift] returns, the sequence it returns has the
    length of its input (any sample arithmetic). *)
Theorem GS_pshift_preserves_length {F : Type} `{Num F}
    (x : list F) (f : F) (G : Z) (overlap : F) (y : list F) :
  GS_pshift x f G overlap = Ok y -> len y = len x.
Proof.
  intros E. unfold len. f_equal. exact (length_GS_pshift _ _ _ _ E).
Qed.

Lemma GS_pshift_preserves_length_witness :
  len [1; 5; 7; 9; 6; 0; 0; 0]%float = len [1; 2; 3; 4; 5; 6; 7; 8]%float.
Proof.
  apply (@GS_pshift_preserves_length float NumFloat
           [1; 2; 3; 4; 5; 6; 7; 8]%float 2%float 2 0%float).
  reflexivity.
Defined.

(** X18: [LPC_GS_pshift] never writes the end of its output: with
    [G >= 0] and a positive stride, every sample from index
    [len(x) - max(igs, G) + G - 1] on is the 0 of [np.zeros], so the last
    sample is always 0 (any sample arithmetic). *)
Theorem LPC_GS_pshift_tail_is_untouched {F : Type} `{Num F}
    (x : list F) (f : F) (G P : Z) (overlap : F) (igs : Z) (win : list F)
    (stride : Z) (y : list F) :
  0 <= G ->
  to_int (add (mul (of_int G) f) half) = Ok igs ->
  win_taper G overlap = Ok (win, stride) -> 0 < stride ->
  LPC_GS_pshift x f G P overlap = Ok y ->
  forall i, 0 <= i < len x -> len x - Z.max igs G + G - 1 <= i ->
    getitem y i = Ok zero.
Proof.
  intros HG Higs Hwin Hs E i Hi Hb.
  pose proof (length_LPC_GS_pshift _ _ _ _ _ E) as L.
  unfold LPC_GS_pshift, np_zeros in E. pose proof (len_nonneg x).
  destruct (Z.ltb_spec (len x) 0); [lia|]. cbn [bind] in E.
  rewrite Higs in E. cbn [bind] in E. rewrite Hwin in E. cbn [bind] in E.
  apply bind_Ok in E. destruct E as (ns & Hns & E).
  destruct (@overlap_add_keeps_tail _ _ (grain x f G P igs win) G
              (len x - Z.max igs G + G - 1) ns) with (2 := HG) (4 := E)
    as [_ V].
  - intros y0 n y1. apply grain_writes_slice.
  - intros n Hn.
    pose proof (@in_range_positive_step _ _ _ _ _ Hs Hns Hn). lia.
  - rewrite (getitem_nth y zero) by (unfold len in *; lia). f_equal.
    rewrite V by lia. apply nth_repeat.
Qed.

Lemma LPC_GS_pshift_tail_is_untouched_witness :
  getitem [1; 4; 6; 4; 0]%float 4 = Ok (zero : float).
Proof.
  apply (@LPC_GS_pshift_tail_is_untouched float NumFloat
           [1; 2; 3; 4; 5]%float 1%float 2 3 0%float 2 [1; 1]%float 1);
    [lia | reflexivity | reflexivity | lia | reflexivity
     | unfold len; simpl; lia | unfold len; simpl; lia].
Defined.

(** X19: the same for [GS_pshift]: with [G >= 0] and a positive stride,
    every sample from index [len(x) - max(igs, G) + G - 1] on is left at 0
    (any sample arithmetic). *)
Theorem GS_pshift_tail_is_untouched {F : Type} `{Num F}
    (x : list F) (f : F) (G : Z) (overlap : F) (igs : Z) (win : list F)
    (stride : Z) (y : list F) :
  0 <= G ->
  to_int (add (mul (of_int G) f) half) = Ok igs ->
  win_taper G overlap = Ok (win, stride) -> 0 < stride ->
  GS_pshift x f G overlap = Ok y ->
  forall i, 0 <= i < len x -> len x - Z.max igs G + G - 1 <= i ->
    getitem y i = Ok zero.
Proof.
  intros HG Higs Hwin Hs E i Hi Hb.
  pose proof (length_GS_pshift _ _ _ _ E) as L.
  unfold GS_pshift, np_zeros in E. pose proof (len_nonneg x).
  destruct (Z.ltb_spec (len x) 0); [lia|]. cbn [bind] in E.
  rewrite Higs in E. cbn [bind] in E. rewrite Hwin in E. cbn [bind] in E.
  apply bind_Ok in E. destruct E as (ns & Hns & E).
  destruct (@overlap_add_keeps_tail _ _ (gs_grain x f G igs win) G
              (len x - Z.max igs G + G - 1) ns) with (2 := HG) (4 := E)
    as [_ V].
  - intros y0 n y1. apply gs_grain_islice.
  - intros n Hn.
    pose proof (@in_range_positive_step _ _ _ _ _ Hs Hns Hn). lia.
  - rewrite (getitem_nth y zero) by (unfold len in *; lia). f_equal.
    rewrite V by lia. apply nth_repeat.
Qed.

Lemma GS_pshift_tail_is_untouched_witness :
  getitem [1; 5; 7; 9; 6; 0; 0; 0]%float 6 = Ok (zero : float).
Proof.
  apply (@GS_pshift_tail_is_untouched float NumFloat
           [1; 2; 3; 4; 5; 6; 7; 8]%float 2%float 2 0%float 4 [1; 1]%float 1);
    [lia | reflexivity | reflexivity | lia | reflexivity
     | unfold len; simpl; lia | unfold len; simpl; lia].
Defined.

(** *** The taper, value by value *)

Lemma taper_gain_flat (G R j : Z) : R <= j < G - R -> taper_gain G R j = 1%Qc.
Proof.
  intros Hj. unfold taper_gain.
  destruct (Z.ltb_spec j R); [lia|]. destruct (Z.ltb_spec j (G - R)); [|lia].
  reflexivity.
Qed.

Lemma taper_gain_first (G R : Z) : 1 <= R -> taper_gain G R 0 = Q2Qc 0.
Proof.
  intros HR. unfold taper_gain. destruct (Z.ltb_spec 0 R); [|lia].
  pose proof (@of_int_Qc_nonzero R ltac:(lia)) as HRz.
  change (of_int 0 : Qc) with (Q2Qc 0). now field.
Qed.

Lemma taper_gain_last (G R : Z) :
  1 <= R -> 2 * R <= G -> taper_gain G R (G - 1) = Q2Qc 0.
Proof.
  intros HR HG. unfold taper_gain.
  destruct (Z.ltb_spec (G - 1) R); [lia|].
  destruct (Z.ltb_spec (G - 1) (G - R)); [lia|].
  replace (G - 1 - (G - 1)) with 0 by lia.
  pose proof (@of_int_Qc_nonzero R ltac:(lia)) as HRz.
  change (of_int 0 : Qc) with (Q2Qc 0). now field.
Qed.

(** The ramp down of one grain and the ramp up of the next add up to 1. *)
Lemma taper_gain_crossfade (G R j : Z) :
  1 <= R -> 2 * R < G -> 0 <= j <= R ->
  (taper_gain G R (j + (G - R - 1)) + taper_gain G R j)%Qc = 1%Qc.
Proof.
  intros HR HG Hj.
  pose proof (@of_int_Qc_nonzero R ltac:(lia)) as HRz.
  destruct (Z.eq_dec j 0) as [->|H0].
  - rewrite taper_gain_first by lia. rewrite taper_gain_flat by lia. ring.
  - destruct (Z.eq_dec j R) as [->|H1].
    + replace (R + (G - R - 1)) with (G - 1) by lia.
      rewrite taper_gain_last by lia. rewrite taper_gain_flat by lia. ring.
    + unfold taper_gain.
      destruct (Z.ltb_spec (j + (G - R - 1)) R); [lia|].
      destruct (Z.ltb_spec (j + (G - R - 1)) (G - R)); [lia|].
      destruct (Z.ltb_spec j R); [|lia].
      replace (G - 1 - (j + (G - R - 1))) with (R - j) by lia.
      rewrite of_int_Qc_sub. now field.
Qed.

(** What one more grain adds to the gain. *)
Lemma overlap_gain_next (G R : Z) (k : nat) (i : Z) :
  1 <= R -> 2 * R < G -> 0 <= i ->
  overlap_gain G R (S k) i
  = (overlap_gain G R k i
     + (if (Z.of_nat k * (G - R - 1) <=? i)
           && (i <? Z.of_nat k * (G - R - 1) + G)
        then taper_gain G R (i - Z.of_nat k * (G - R - 1))
        else Q2Qc 0))%Qc.
Proof.
  intros HR HG Hi. set (s := G - R - 1). assert (Hs : R <= s) by (unfold s; lia).
  destruct k as [|k].
  - cbn [overlap_gain]. fold s. rewrite Z.mul_0_l, Z.sub_0_r, Z.add_0_l.
    destruct (Z.leb_spec 0 i); [|lia]. cbn [andb].
    destruct (Z.ltb_spec i R).
    + destruct (Z.ltb_spec i G); [ring|lia].
    + destruct (Z.ltb_spec i (Z.of_nat 1 * s)).
      * destruct (Z.ltb_spec i G); [|lia].
        rewrite taper_gain_flat by (unfold s in *; lia). ring.
      * destruct (Z.ltb_spec i G); ring.
  - cbn [overlap_gain]. fold s.
    set (n := Z.of_nat (S k) * s).
    assert (Hn : Z.of_nat (S (S k)) * s = n + s) by (unfold n; lia).
    assert (Hp : Z.of_nat k * s = n - s) by (unfold n; lia).
    rewrite Hn, Hp.
    assert (Hns : s <= n) by (unfold n; nia).
    destruct (Z.ltb_spec i R).
    + destruct (Z.leb_spec n i); [lia|]. cbn [andb]. ring.
    + destruct (Z.ltb_spec i n).
      * destruct (Z.ltb_spec i (n + s)); [|lia].
        destruct (Z.leb_spec n i); [lia|]. cbn [andb]. ring.
      * destruct (Z.leb_spec n i); [|lia]. cbn [andb].
        destruct (Z.ltb_spec i (n - s + G)) as [A|A].
        -- destruct (Z.ltb_spec i (n + G)); [|lia].
           replace (i - (n - s)) with (i - n + (G - R - 1)) by (unfold s; lia).
           destruct (Z.ltb_spec i (n + s)) as [B|B].
           ++ symmetry. apply taper_gain_crossfade; unfold s in *; lia.
           ++ assert (i - n = R) by (unfold s in *; lia).
              replace (i - n + (G - R - 1)) with (G - 1) by lia.
              rewrite taper_gain_last by lia. ring.
        -- destruct (Z.ltb_spec i (n + G)) as [B|B].
           ++ destruct (Z.ltb_spec i (n + s)).
              ** rewrite taper_gain_flat by (unfold s in *; lia). ring.
              ** ring.
           ++ destruct (Z.ltb_spec i (n + s)); [lia|]. ring.
Qed.

(** *** Unit ratio *)

Lemma to_int_round_half_Qc (G : Z) :
  0 <= G -> to_int (add (mul (of_int G) one) half : Qc) = Ok G.
Proof.
  intros HG.
  assert (E : (this (add (mul (of_int G) one) half : Qc) == (2 * G + 1 # 2))%Q).
  { cbn [add mul of_int one half div NumQc].
    unfold Qcplus, Qcmult, Qcdiv, Qcinv, Q2Qc. cbn [this].
    rewrite !Qred_correct. unfold Qeq, Qplus, Qmult, Qinv, inject_Z. simpl.
    destruct G; lia. }
  rewrite to_int_Qc_nonneg.
  - f_equal. apply Qfloor_unique; rewrite E.
    + unfold Qle, inject_Z. cbn [Qnum Qden]. lia.
    + unfold Qlt, inject_Z. cbn [Qnum Qden]. lia.
  - unfold Qcle. rewrite E. unfold Qle. destruct G; simpl; lia.
Qed.

(** One grain at unit ratio adds the windowed input to the output. *)
Lemma gs_grain_unit_ratio (x win y : list Qc) (G R n : Z) :
  0 <= n -> 0 <= G -> n + G <= len x -> len y = len x -> len win = G ->
  (forall j, 0 <= j < G -> getitem win j = Ok (taper_gain G R j)) ->
  exists y',
    gs_grain x one G G win y n = Ok y' /\ len y' = len x /\
    forall i, 0 <= i < len x ->
      nth (Z.to_nat i) y' (Q2Qc 0)
      = (nth (Z.to_nat i) y (Q2Qc 0)
         + nth (Z.to_nat i) x (Q2Qc 0)
           * (if (n <=? i) && (i <? n + G) then taper_gain G R (i - n)
              else Q2Qc 0))%Qc.
Proof.
  intros Hn HG Hx Ly Lw Hw. unfold gs_grain.
  rewrite resample_unit_ratio. cbn [bind].
  pose proof (length_slice_inside x Hn HG Hx) as Ls.
  destruct (@broadcast_same_length _ mul (slice x n (n + G)) win (Q2Qc 0))
    as (ww & -> & Lww & Vww); [unfold len in *; lia|]. cbn [bind].
  destruct (@islice_inside _ add y ww n G (Q2Qc 0)) as (y' & E & L' & V');
    try (unfold len in *; lia).
  exists y'. split; [exact E|]. split; [unfold len in *; lia|].
  intros i Hi. rewrite V' by (unfold len in *; lia). rewrite Z2Nat.id by lia.
  destruct ((n <=? i) && (i <? n + G)) eqn:C.
  - apply andb_true_iff in C. destruct C as [C1 C2].
    apply Z.leb_le in C1. apply Z.ltb_lt in C2.
    rewrite Vww by lia. rewrite nth_slice_inside by lia.
    replace (Z.to_nat n + (Z.to_nat i - Z.to_nat n))%nat with (Z.to_nat i) by lia.
    specialize (Hw (i - n) ltac:(lia)).
    rewrite (getitem_nth win (Q2Qc 0)) in Hw by lia. apply Ok_inj in Hw.
    replace (Z.to_nat (i - n)) with (Z.to_nat i - Z.to_nat n)%nat in Hw by lia.
    rewrite Hw. reflexivity.
  - cbn [add NumQc]. ring.
Qed.

Lemma GS_pshift_unit_ratio_gain (x : list Qc) (G R : Z) (a : Qc) :
  to_int (div (mul (of_int G) a) (of_int 2)) = Ok R -> 1 <= R -> 2 * R < G ->
  exists y,
    GS_pshift x one G a = Ok y /\ len y = len x /\
    forall i, 0 <= i < len x ->
      nth (Z.to_nat i) y (Q2Qc 0)
      = (nth (Z.to_nat i) x (Q2Qc 0)
         * overlap_gain G R
             (Z.to_nat ((len x - G + (G - R - 1) - 1) / (G - R - 1))) i)%Qc.
Proof.
  intros HR HR1 HG. unfold GS_pshift, np_zeros. pose proof (len_nonneg x) as Lx.
  destruct (Z.ltb_spec (len x) 0); [lia|]. cbn [bind].
  rewrite to_int_round_half_Qc by lia. cbn [bind].
  destruct (@win_taper_shape G R a HR) as (win & -> & Lw & Hw); try lia.
  cbn [bind]. rewrite Z.max_id. rewrite range_from_0 by lia. cbn [bind].
  set (s := G - R - 1).
  set (c := Z.to_nat ((len x - G + s - 1) / s)).
  destruct (@foldM_indexed _ _ (gs_grain x one G G win)
              (fun k => Z.of_nat k * s)
              (fun k y => len y = len x /\
                 forall i, 0 <= i < len x ->
                   nth (Z.to_nat i) y (Q2Qc 0)
                   = (nth (Z.to_nat i) x (Q2Qc 0) * overlap_gain G R k i)%Qc)
              c) with (s := repeat (@zero Qc _) (Z.to_nat (len x)))
    as (y & E & Ly & Vy).
  - intros k y Hk (Ly & Vy).
    assert (Hb : Z.of_nat k * s < len x - G)
      by (apply range_count_bound; [unfold s; lia|exact Hk]).
    destruct (@gs_grain_unit_ratio x win y G R (Z.of_nat k * s))
      as (y' & E' & L' & V'); try assumption; try (unfold s in *; nia).
    exists y'. split; [exact E'|]. split; [exact L'|].
    intros i Hi. rewrite V', Vy by lia.
    rewrite (@overlap_gain_next G R k i) by lia. fold s. ring.
  - split; [unfold len; rewrite repeat_length; lia|].
    intros i Hi. rewrite nth_repeat. cbn [overlap_gain]. rewrite ?zero_Qc. ring.
  - exists y. repeat split; assumption.
Qed.

(** X20: at ratio 1 the granular shifter gives the input back. For an
    overlap [a] (a binary64 number) whose ramp length [R = int(G*a/2)] is
    the same computed in binary64, as the program does, and computed
    exactly, with [1 <= R] and [2*R < G], [GS_pshift(x, 1, G, a)] returns a
    sequence of [len(x)] samples with [y[i] = x[i]] for every
    [R <= i < len(x) - G], the crossfaded ramps of consecutive grains adding
    up to 1 (samples in exact arithmetic). *)
Theorem GS_pshift_unit_ratio_reconstructs (x : list Qc) (G R : Z) (a : float) :
  to_int (div (mul (of_int G) a) (of_int 2)) = Ok R ->
  to_int (div (mul (of_int G) (float_exact a)) (of_int 2)) = Ok R ->
  1 <= R -> 2 * R < G ->
  exists y,
    GS_pshift x one G (float_exact a) = Ok y /\ len y = len x /\
    forall i, R <= i < len x - G -> getitem y i = getitem x i.
Proof.
  intros _ HR HR1 HG.
  destruct (@GS_pshift_unit_ratio_gain x G R (float_exact a) HR HR1 HG)
    as (y & E & Ly & Vy).
  exists y. split; [exact E|]. split; [exact Ly|].
  intros i Hi. rewrite (getitem_nth y (Q2Qc 0)), (getitem_nth x (Q2Qc 0)) by lia.
  f_equal. rewrite Vy by lia.
  set (s := G - R - 1) in *.
  set (q := (len x - G + s - 1) / s).
  assert (Hs : 0 < s) by (unfold s; lia).
  assert (Hq : len x - G <= s * q).
  { pose proof (Z.mul_succ_div_gt (len x - G + s - 1) s Hs). fold q in H. lia. }
  assert (Hq1 : 1 <= q) by nia.
  destruct (Z.to_nat q) as [|k] eqn:Ek; [lia|].
  cbn [overlap_gain]. fold s.
  destruct (Z.ltb_spec i R); [lia|].
  destruct (Z.ltb_spec i (Z.of_nat (S k) * s)); [ring|]. nia.
Qed.

Lemma GS_pshift_unit_ratio_reconstructs_witness :
  let x := map (fun k => Q2Qc (inject_Z k)) (irange 1 10) in
  exists y,
    GS_pshift x one 4 (float_exact 0.5%float) = Ok y /\ len y = len x /\
    forall i, 1 <= i < len x - 4 -> getitem y i = getitem x i.
Proof.
  apply (@GS_pshift_unit_ratio_reconstructs
           (map (fun k => Q2Qc (inject_Z k)) (irange 1 10)) 4 1 0.5%float);
    [reflexivity | reflexivity | lia | lia].
Defined.

(** *** The LPC grain at unit ratio *)

Lemma grain_unit_ratio_Qc (x win y : list Qc) (G P igs n : Z) :
  1 <= P -> slice x n (n + igs) <> [] ->
  grain x one G P igs win y n = gs_grain x one G igs win y n.
Proof.
  intros HP Hw. unfold grain, gs_grain.
  destruct (lpc_returns (slice x n (n + igs)) HP) as (c & ->). cbn [bind].
  destruct (lfilter_round_trip_Qc c Hw) as (e & -> & _ & E2).
  cbn [bind]. rewrite !resample_unit_ratio. cbn [bind]. rewrite E2.
  reflexivity.
Qed.

Lemma foldM_ext_in {S V} (body body' : S -> V -> result S) (xs : list V) :
  (forall s v, In v xs -> body s v = body' s v) ->
  forall s, foldM body xs s = foldM body' xs s.
Proof.
  induction xs as [|v xs IH]; intros Hb s; [reflexivity|].
  cbn [foldM]. rewrite Hb by now left.
  destruct (body' s v); cbn [bind]; [|reflexivity].
  apply IH. intros s' v' Hv. apply Hb. now right.
Qed.

(** The recursion of an empty grain is not regular: its lag 0 is [0/0]. *)
Lemma empty_grain_not_regular (P : Z) (r : list Qc) :
  1 <= P -> bac [] P = Ok r -> ~ ld_regular r P.
Proof.
  intros HP E [H0 _]. rewrite bac_closed_form in E by lia.
  apply Ok_inj in E. subst r. apply H0. unfold lag.
  rewrite nth_map_irange by lia. apply Qc_is_canon. reflexivity.
Qed.

(** X21: at ratio 1 the LPC stage is transparent: for [P >= 1] and grains
    whose recursion never divides by zero, whitening a grain, resampling the
    residual at ratio 1 and resynthesizing gives the grain back, so
    [LPC_GS_pshift(x, 1, G, P, overlap)] is [GS_pshift(x, 1, G, overlap)]
    (exact arithmetic). *)
Theorem LPC_GS_pshift_unit_ratio_is_GS_pshift (x : list Qc) (G P : Z)
    (overlap : Qc) :
  1 <= P -> grains_regular x one G P overlap ->
  LPC_GS_pshift x one G P overlap = GS_pshift x one G overlap.
Proof.
  intros HP Hreg. unfold LPC_GS_pshift, GS_pshift.
  destruct (np_zeros (len x)) as [y|]; [|reflexivity]. cbn [bind].
  destruct (to_int _) as [igs|] eqn:Higs; [|reflexivity]. cbn [bind].
  destruct (win_taper G overlap) as [[win stride]|] eqn:Hwin; [|reflexivity].
  cbn [bind].
  destruct (range _ _ _) as [ns|] eqn:Hns; [|reflexivity]. cbn [bind].
  apply foldM_ext_in. intros s n Hn. apply grain_unit_ratio_Qc; [exact HP|].
  intros Hw.
  destruct (@bac Qc _ [] P) as [r|] eqn:Hr.
  - apply (@empty_grain_not_regular P r HP Hr).
    apply (Hreg igs win stride ns n r Higs Hwin Hns Hn). now rewrite Hw.
  - rewrite bac_closed_form in Hr by lia. discriminate Hr.
Qed.

Lemma LPC_GS_pshift_unit_ratio_is_GS_pshift_witness :
  let x := map (fun k => Q2Qc (inject_Z k)) (irange 1 10) in
  LPC_GS_pshift x one 4 1 (Q2Qc (1 # 2)) = GS_pshift x one 4 (Q2Qc (1 # 2)).
Proof.
  apply (@LPC_GS_pshift_unit_ratio_is_GS_pshift
           (map (fun k => Q2Qc (inject_Z k)) (irange 1 10)) 4 1 (Q2Qc (1 # 2)));
    [lia|].
  intros igs win stride ns n r Higs Hwin Hns Hn Hr.
  vm_compute in Higs. apply Ok_inj in Higs. subst igs.
  assert (Hs : stride = 2).
  { destruct (win_taper 4 (Q2Qc (1 # 2))) as [[w s]|] eqn:E; [|discriminate].
    assert (s = 2)
      by (apply (f_equal (fun r => match r with Ok p => snd p | Raise _ => 0 end)) in E;
          vm_compute in E; congruence).
    congruence. }
  subst stride. vm_compute in Hns. apply Ok_inj in Hns. subst ns.
  split; [|intros; lia].
  destruct Hn as [<-|[<-|[<-|[]]]];
    intros E0; unfold lag in E0;
    apply (f_equal (fun r => match r with Ok l => Ok (nth 0 l (Q2Qc 0)) | Raise e => Raise e end)) in Hr;
    rewrite E0 in Hr; apply (f_equal (value_of this)) in Hr;
    vm_compute in Hr; discriminate Hr.
Defined.

(** *** A grain that does not fit its window *)

Lemma broadcast_mismatch {A} (op : A -> A -> A) (u v : list A) :
  length u <> length v -> length u <> 1%nat -> length v <> 1%nat ->
  broadcast op u v = Raise ValueError.
Proof.
  intros H1 H2 H3. unfold broadcast.
  destruct (Nat.eqb_spec (length u) (length v)); [contradiction|].
  destruct u as [|a [|? ?]]; destruct v as [|b [|? ?]];
    try reflexivity; simpl in *; congruence.
Qed.

(** [resample] gives [m] samples or refuses a negative [m]; either way the
    product with a window of another length fails. *)
Lemma resample_misfit {F : Type} `{Num F} (e win : list F) (f : F) (m : Z) :
  is_zero f = false ->
  to_int (floor (div (of_int (len e)) f)) = Ok m ->
  (forall n, 0 <= n < m -> exists k, to_int (mul (of_int n) f) = Ok k) ->
  m <> len win -> m <> 1 -> len win <> 1 ->
  (w <- resample e f ;; broadcast mul w win) = Raise ValueError.
Proof.
  intros Hf Hm Hint H1 H2 H3. destruct (Z_lt_le_dec m 0) as [Hneg|Hpos].
  - unfold resample. rewrite Hf, Hm.
    cbn [bind]. unfold np_zeros. destruct (Z.ltb_spec m 0); [reflexivity|lia].
  - destruct (@resample_returns _ _ e f m Hf Hm Hpos Hint) as (w & -> & Lw).
    cbn [bind]. apply broadcast_mismatch; unfold len in *; lia.
Qed.

Lemma foldM_first_raises {S V} (body : S -> V -> result S) (v : V)
    (vs : list V) (s : S) (e : exn) :
  body s v = Raise e -> foldM body (v :: vs) s = Raise e.
Proof. intros E. cbn [foldM]. now rewrite E. Qed.

(** X22: in the arithmetic the code runs, [GS_pshift] raises a ValueError
    whenever a grain is processed and [resample] does not give it the
    length of the window: with [f] not zero, [igs = int(G*f + 0.5) >= 0], a
    positive stride, a window of [G] samples and [len(x) > max(igs, G)], if
    [m = int(floor(igs / f))], as the program computes it, is neither [G]
    nor 1 (and [G] is not 1), and each instant [n * f], [n < m], has an
    integer part, the first grain fails, in [np.zeros] when [m < 0] and in
    the product [w * win] otherwise (any sample arithmetic, binary64
    included). *)
Theorem GS_pshift_raises_when_grain_misfits {F : Type} `{Num F}
    (x : list F) (f overlap : F) (G igs m : Z) (win : list F) (stride : Z) :
  is_zero f = false ->
  to_int (add (mul (of_int G) f) half) = Ok igs -> 0 <= igs ->
  win_taper G overlap = Ok (win, stride) -> 0 < stride -> len win = G ->
  Z.max igs G < len x ->
  to_int (floor (div (of_int igs) f)) = Ok m -> m <> G -> m <> 1 -> G <> 1 ->
  (forall n, 0 <= n < m -> exists k, to_int (mul (of_int n) f) = Ok k) ->
  GS_pshift x f G overlap = Raise ValueError.
Proof.
  intros Hf Higs Higs0 Hwin Hstride Lwin Hlen Hm H1 H2 H3 Hint.
  unfold GS_pshift, np_zeros. pose proof (len_nonneg x).
  destruct (Z.ltb_spec (len x) 0); [lia|]. cbn [bind].
  rewrite Higs. cbn [bind]. rewrite Hwin. cbn [bind].
  destruct (@range_head (len x - Z.max igs G) stride) as (ns & ->); try lia.
  cbn [bind]. apply foldM_first_raises. unfold gs_grain.
  set (w := slice x 0 (0 + igs)).
  assert (Lw : len w = igs).
  { unfold len, w. rewrite length_slice_inside by lia. lia. }
  pose proof (@resample_misfit _ _ w win f m Hf) as K. rewrite Lw in K.
  specialize (K Hm Hint). rewrite Lwin in K. specialize (K H1 H2 H3).
  destruct (resample w f) as [e|err]; cbn [bind] in *; [|exact K].
  now rewrite K.
Qed.

Lemma GS_pshift_raises_when_grain_misfits_witness :
  GS_pshift [1; 2; 3; 4; 5; 6; 7]%float 1.25%float 5 0.5%float
  = Raise ValueError.
Proof.
  apply (@GS_pshift_raises_when_grain_misfits float NumFloat
           _ 1.25%float 0.5%float 5 6 4 [0; 1; 1; 1; 0]%float 3);
    try reflexivity; try lia.
  intros n Hn.
  assert (K : n = 0 \/ n = 1 \/ n = 2 \/ n = 3) by lia.
  destruct K as [->|[->|[->| ->]]]; eexists; reflexivity.
Defined.

(** X23: the same for [LPC_GS_pshift], with [P >= 1] and [igs >= 1], in any
    sample arithmetic in which 1 is not zero, binary64 included: whenever a
    grain is processed and [m = int(floor(igs / f))], as the program
    computes it, is neither [G] nor 1 (and [G] is not 1), the call raises a
    ValueError at the first grain; together with the case [m = G], where
    the call returns, this says when the rounding of [igs] makes the
    shifter fail. *)
Theorem LPC_GS_pshift_raises_when_grain_misfits {F : Type} `{Num F}
    (x : list F) (f overlap : F) (G P igs m : Z) (win : list F)
    (stride : Z) :
  1 <= P -> is_zero (one : F) = false -> is_zero f = false ->
  to_int (add (mul (of_int G) f) half) = Ok igs -> 1 <= igs ->
  win_taper G overlap = Ok (win, stride) -> 0 < stride -> len win = G ->
  Z.max igs G < len x ->
  to_int (floor (div (of_int igs) f)) = Ok m -> m <> G -> m <> 1 -> G <> 1 ->
  (forall n, 0 <= n < m -> exists k, to_int (mul (of_int n) f) = Ok k) ->
  LPC_GS_pshift x f G P overlap = Raise ValueError.
Proof.
  intros HP Hone Hf Higs Higs0 Hwin Hstride Lwin Hlen Hm H1 H2 H3 Hint.
  unfold LPC_GS_pshift, np_zeros. pose proof (len_nonneg x).
  destruct (Z.ltb_spec (len x) 0); [lia|]. cbn [bind].
  rewrite Higs. cbn [bind]. rewrite Hwin. cbn [bind].
  destruct (@range_head (len x - Z.max igs G) stride) as (ns & ->); try lia.
  cbn [bind]. apply foldM_first_raises. unfold grain.
  set (w := slice x 0 (0 + igs)).
  assert (Lw : length w = Z.to_nat igs)
    by (unfold w; apply length_slice_inside; lia).
  destruct (lpc_returns_order w HP) as (c & -> & Lc). cbn [bind].
  destruct (@whitening_returns _ _ c w) as (e & -> & Le);
    [now apply (@nonempty_of_length _ w igs)|].
  cbn [bind].
  assert (Hm' : to_int (floor (div (of_int (len e)) f)) = Ok m)
    by (replace (len e) with igs by (unfold len; lia); exact Hm).
  destruct (Z_lt_le_dec m 0) as [Hneg|Hpos].
  - unfold resample. rewrite Hf, Hm'.
    cbn [bind]. unfold np_zeros. destruct (Z.ltb_spec m 0); [reflexivity|lia].
  - destruct (@resample_returns _ _ e f m Hf Hm' Hpos Hint) as (e' & -> & Le').
    cbn [bind].
    destruct (@synthesis_returns _ _ c e' Hone) as (w' & -> & Lw');
      [now apply (@nonempty_of_length _ c P)|].
    cbn [bind].
    rewrite broadcast_mismatch; [reflexivity| | |]; unfold len in *; lia.
Qed.

Lemma LPC_GS_pshift_raises_when_grain_misfits_witness :
  LPC_GS_pshift [1; 2; 3; 4; 5; 6; 7]%float 1.25%float 5 1 0.5%float
  = Raise ValueError.
Proof.
  apply (@LPC_GS_pshift_raises_when_grain_misfits float NumFloat
           _ 1.25%float 0.5%float 5 1 6 4 [0; 1; 1; 1; 0]%float 3);
    try reflexivity; try lia.
  intros n Hn.
  assert (K : n = 0 \/ n = 1 \/ n = 2 \/ n = 3) by lia.
  destruct K as [->|[->|[->| ->]]]; eexists; reflexivity.
Defined.
